(** * RGOAP: the regressive planner and the plan executor

    A shallow embedding of [rgoap/planning.py] (classes [Node], [Planner] and
    [PlanExecutor]) and the properties its specification states about them.

    Python objects live in a store: a [Node] is addressed by a reference, the
    parent lists of a node hold references, and the in-place updates of the
    source ([heuristic_distance], [possible_prev_nodes], the worldstate handed
    to [Action.run]) are updates of the store.  Numbers are exact rationals:
    Python's ints and floats are both read as [Q], so rounding is not
    modelled.  Exceptions are values of [exn] carried by [res]. *)

From Stdlib Require Import QArith Qabs Lqa.
From stdpp Require Import base option list sorting gmap strings pretty.

Set Default Proof Using "Type".
Set Warnings "-clear-no-such-hyp".

#[local] Arguments Qabs : simpl never.
#[local] Arguments Qplus : simpl never.
#[local] Arguments Qminus : simpl never.
#[local] Arguments Qmult : simpl never.
#[local] Arguments Qdiv : simpl never.
#[local] Arguments Qle_bool : simpl never.
#[local] Arguments Qeq_bool : simpl never.
#[local] Arguments inject_Z : simpl never.

(** ** Exceptions and results *)

Inductive exn : Set :=
  | AssertionError
  | AttributeError
  | IndexError
  | KeyError
  | TypeError
  | ZeroDivisionError
  (* maximum recursion depth exceeded *)
  | RuntimeError
  (* no Python counterpart: a reference that is not in the store *)
  | DanglingReference.

Inductive res (A : Type) : Type :=
  | Ok (a : A)
  | Raise (e : exn).
Arguments Ok {A} a.
Arguments Raise {A} e.

#[global] Instance res_ret : MRet res := λ A a, Ok a.
#[global] Instance res_bind : MBind res := λ A B f m,
  match m with
  | Ok a => f a
  | Raise e => Raise e
  end.
#[global] Instance res_fmap : FMap res := λ A B f m,
  match m with
  | Ok a => Ok (f a)
  | Raise e => Raise e
  end.

Fixpoint res_mapM {A B} (f : A → res B) (l : list A) : res (list B) :=
  match l with
  | [] => Ok []
  | x :: l' => y ← f x; ys ← res_mapM f l'; Ok (y :: ys)
  end.

(** The call returned. *)
Definition is_Ok {A} (m : res A) : bool :=
  match m with
  | Ok _ => true
  | Raise _ => false
  end.

(** What the call returned, or [d] when it raised. *)
Definition res_get {A} (d : A) (m : res A) : A :=
  match m with
  | Ok a => a
  | Raise _ => d
  end.

(** ** Numbers *)

Definition Qltb (x y : Q) : bool := negb (Qle_bool y x).

(** [sum(iterable)]: a left fold starting from 0. *)
Definition py_sum (l : list Q) : Q := fold_left Qplus l 0%Q.

(** [min(a, b)]: [b] when [b < a], otherwise [a]. *)
Definition py_min (a b : Q) : Q := if Qltb b a then b else a.

(** [len(x)] as a number. *)
Definition py_len {A} (l : list A) : Q := inject_Z (Z.of_nat (length l)).

(** ** Condition values

    The values a worldstate maps conditions to.  Python's [bool] is a
    subclass of [int], so booleans take part in arithmetic; strings and
    [None] do not. *)

Inductive Value : Type :=
  | VNone
  | VBool (b : bool)
  | VNum (q : Q)
  | VStr (s : string).

Definition as_number (v : Value) : option Q :=
  match v with
  | VBool b => Some (if b then 1%Q else 0%Q)
  | VNum q => Some q
  | VNone | VStr _ => None
  end.

(** [a - b] on condition values: a [TypeError] unless both are numbers. *)
Definition py_sub (a b : Value) : res Q :=
  match as_number a, as_number b with
  | Some x, Some y => Ok (x - y)%Q
  | _, _ => Raise TypeError
  end.

(** [float(a) / b]. *)
Definition py_truediv (a b : Q) : res Q :=
  if Qeq_bool b 0 then Raise ZeroDivisionError else Ok (a / b)%Q.

(** ** Worldstates

    [rgoap.WorldState] is imported, not defined, by the planner module;
    [runner.py] shows it is a dictionary [_condition_values] from conditions
    to values.  A condition is identified by its state name. *)

Abbreviation Condition := string (only parsing).
Abbreviation WorldState := (gmap string Value) (only parsing).

(** Modelled from the spec: [WorldState.get_condition_value] is missing from
    the sources; it "fails with a lookup error if absent". *)
Definition get_condition_value (ws : WorldState) (c : Condition) : res Value :=
  match ws !! c with
  | Some v => Ok v
  | None => Raise KeyError
  end.

(** ** The external collaborators

    The planner module calls into [WorldState], [Action] and [Goal], whose
    code is not part of the sources.  They are the parameters of the
    development.  [World] stands for whatever the freeform context check
    reads and [run] changes outside the worldstate objects.  A Python [set]
    is iterated in an order the language leaves open: [set_iteration] gives
    the elements of the set built from a list, in that order. *)

Class Domain : Type := {
  Action : Type;
  Action_eq_dec :: EqDecision Action;
  Goal : Type;
  World : Type;
  (* WorldState *)
  matches : WorldState → WorldState → bool;
  get_unsatisfied_conditions : WorldState → WorldState → list Condition;
  (* Action *)
  Action_cost : Action → Q;
  check_freeform_context : Action → World → bool;
  Action_apply_preconditions : Action → WorldState → WorldState → WorldState;
  has_satisfying_effects :
    Action → WorldState → WorldState → list Condition → bool;
  is_valid : Action → WorldState → bool;
  run : Action → WorldState → World → WorldState * World;
  (* Goal *)
  Goal_apply_preconditions : Goal → WorldState → WorldState;
  (* set *)
  set_iteration : list Action → list Action;
  set_iteration_elem : ∀ l a, a ∈ set_iteration l ↔ a ∈ l;
  set_iteration_NoDup : ∀ l, NoDup (set_iteration l);
}.

(** ** Nodes and the store *)

Abbreviation ref := nat (only parsing).

Record Node `{Domain} : Type := mkNode {
  worldstate : WorldState;
  action : option Action;
  possible_prev_nodes : list ref;
  parent_nodes_path_list : list ref;
  parent_actions_path_list : list Action;
  heuristic_distance : option Q;
}.

Arguments mkNode {_} _ _ _ _ _ _.

#[global] Instance Node_inhabited `{Domain} : Inhabited Node :=
  populate (mkNode ∅ None [] [] [] None).

Abbreviation Heap := (list Node) (only parsing).

Section planning.
Context `{D : Domain}.

Definition deref (h : Heap) (r : ref) : res Node :=
  match h !! r with
  | Some n => Ok n
  | None => Raise DanglingReference
  end.

Definition set_heuristic_distance (n : Node) (d : Q) : Node :=
  mkNode (worldstate n) (action n) (possible_prev_nodes n)
    (parent_nodes_path_list n) (parent_actions_path_list n) (Some d).

Definition set_possible_prev_nodes (n : Node) (l : list ref) : Node :=
  mkNode (worldstate n) (action n) l
    (parent_nodes_path_list n) (parent_actions_path_list n)
    (heuristic_distance n).

Definition set_worldstate (n : Node) (ws : WorldState) : Node :=
  mkNode ws (action n) (possible_prev_nodes n)
    (parent_nodes_path_list n) (parent_actions_path_list n)
    (heuristic_distance n).

(** *** [Node] *)

Definition is_goal (n : Node) : bool :=
  match action n with
  | None => true
  | Some _ => false
  end.

(** [self.parent_nodes_path_list[-1]] *)
Definition parent_node (n : Node) : res ref :=
  match last (parent_nodes_path_list n) with
  | Some r => Ok r
  | None => Raise IndexError
  end.

Definition cost (n : Node) : Q :=
  match action n with
  | None => 0%Q
  | Some a => Action_cost a
  end.

Definition path_cost (h : Heap) (n : Node) : res Q :=
  costs ← res_mapM (λ r, cost <$> deref h r) (parent_nodes_path_list n);
  Ok (cost n + py_sum costs)%Q.

(** [path_cost() + heuristic_distance]; adding [None] is a [TypeError]. *)
Definition total_cost (h : Heap) (n : Node) : res Q :=
  pc ← path_cost h n;
  match heuristic_distance n with
  | Some d => Ok (pc + d)%Q
  | None => Raise TypeError
  end.

(** The body of the inner [try]: both distances, their quotient, and the
    assertion on it. *)
Definition relative_distance (goal_value node_value start_value : Value)
    : res Q :=
  distance_total ← Qabs <$> py_sub goal_value start_value;
  distance_remaining ← Qabs <$> py_sub node_value start_value;
  relative ← py_truediv distance_remaining distance_total;
  if Qltb 0 relative then Ok relative else Raise AssertionError.

(** What one unsatisfied condition adds to [heuristic_distance]: the
    [KeyError] of the goal lookup and the [TypeError] of the arithmetic are
    caught and replaced by 1, every other exception propagates. *)
Definition condition_distance (goal_worldstate node_worldstate
    start_worldstate : WorldState) (condition : Condition) : res Q :=
  match get_condition_value goal_worldstate condition with
  | Raise KeyError => Ok 1%Q
  | Raise e => Raise e
  | Ok goal_value =>
      node_value ← get_condition_value node_worldstate condition;
      start_value ← get_condition_value start_worldstate condition;
      match relative_distance goal_value node_value start_value with
      | Raise TypeError => Ok 1%Q
      | r => r
      end
  end.

(** The [for condition in unsatisfied_conditions_set] loop, [acc] being
    [self.heuristic_distance]. *)
Fixpoint sum_distances (goal_worldstate node_worldstate start_worldstate
    : WorldState) (conditions : list Condition) (acc : Q) : res Q :=
  match conditions with
  | [] => Ok acc
  | c :: cs =>
      d ← condition_distance goal_worldstate node_worldstate
            start_worldstate c;
      sum_distances goal_worldstate node_worldstate start_worldstate cs
        (acc + d)%Q
  end.

Definition _calc_heuristic_distance_for_node (self : ref)
    (start_worldstate : WorldState) (h : Heap) : res Heap :=
  n ← deref h self;
  match heuristic_distance n with
  | Some _ => Raise AssertionError
  | None =>
      let unsatisfied_conditions_set :=
        get_unsatisfied_conditions (worldstate n) start_worldstate in
      d ← (if is_goal n then Ok (py_len unsatisfied_conditions_set)
           else
             g ← from_option Ok (Raise IndexError)
                   (head (parent_nodes_path_list n));
             goal_node ← deref h g;
             total ← sum_distances (worldstate goal_node) (worldstate n)
                       start_worldstate unsatisfied_conditions_set 0%Q;
             Ok (py_min (py_len unsatisfied_conditions_set) total));
      Ok (<[self := set_heuristic_distance n d]> h)
  end.

(** The [for action in actions] loop of [get_child_nodes]. *)
Fixpoint expand (self : ref) (actions : list Action)
    (start_worldstate : WorldState) (h : Heap) : res Heap :=
  match actions with
  | [] => Ok h
  | action :: actions' =>
      n ← deref h self;
      let nodes_path_list := parent_nodes_path_list n ++ [self] in
      let actions_path_list := parent_actions_path_list n ++ [action] in
      let worldstatecopy :=
        Action_apply_preconditions action (worldstate n) start_worldstate in
      let node := length h in
      let h1 := h ++ [mkNode worldstatecopy (Some action) []
                        nodes_path_list actions_path_list None] in
      h2 ← _calc_heuristic_distance_for_node node start_worldstate h1;
      n2 ← deref h2 self;
      let h3 := <[self := set_possible_prev_nodes n2
                            (possible_prev_nodes n2 ++ [node])]> h2 in
      expand self actions' start_worldstate h3
  end.

Definition get_child_nodes (self : ref) (actions : list Action)
    (start_worldstate : WorldState) (h : Heap) : res (list ref * Heap) :=
  n ← deref h self;
  if bool_decide (length (possible_prev_nodes n) = 0) then
    h' ← expand self actions start_worldstate h;
    n' ← deref h' self;
    Ok (possible_prev_nodes n', h')
  else Raise AssertionError.

(** *** [sorted(iterable, key=...)]

    The keys are computed first, once per element; the sort is stable and
    compares keys with [<] only.  Any stable sort returns the same list, so
    an insertion sort stands for Python's. *)

Fixpoint insert_by_key {A} (x : Q * A) (l : list (Q * A)) : list (Q * A) :=
  match l with
  | [] => [x]
  | y :: l' =>
      if Qltb (fst y) (fst x) then y :: insert_by_key x l' else x :: y :: l'
  end.

Definition sort_by_key {A} (l : list (Q * A)) : list (Q * A) :=
  foldr insert_by_key [] l.

Definition py_sorted {A} (key : A → res Q) (l : list A) : res (list A) :=
  keyed ← res_mapM (λ x, k ← key x; Ok (k, x)) l;
  Ok (snd <$> sort_by_key keyed).

(** *** [Planner] *)

(** The sort key of the open collection, [lambda node: node.total_cost()]. *)
Definition key (h : Heap) (r : ref) : res Q := deref h r ≫= total_cost h.

Record Planner : Type := mkPlanner {
  _actions : list Action;
  _start_worldstate : WorldState;
  _goal : option Goal;
  last_goal_node : option ref;
}.

Definition _filter_matching_actions (start_worldstate node_worldstate
    : WorldState) (actions : list Action) : list Action :=
  let unsatisfied_conditions_set :=
    get_unsatisfied_conditions node_worldstate start_worldstate in
  filter (λ action, has_satisfying_effects action node_worldstate
                      start_worldstate unsatisfied_conditions_set = true)
    actions.

(** The actions that pass [check_freeform_context], as the set
    [checked_actions]. *)
Definition check_actions (actions : list Action) (w : World) : list Action :=
  set_iteration (filter (λ action, check_freeform_context action w = true)
                   actions).

(** The variables of the [while] loop, and the store. *)
Record LoopState : Type := mkLoopState {
  loopcount : nat;
  child_nodes : list ref;
  store : Heap;
}.

(** How the loop is left: by [return current_node], by its condition
    becoming false, or by the [break] at the loop limit. *)
Inductive Outcome : Type :=
  | Found (current_node : ref) (h : Heap)
  | Drained (h : Heap)
  | LimitHit (h : Heap).

(** How one pass through the loop ends. *)
Inductive Iteration : Type :=
  | Continue (s : LoopState)
  | Exit (o : Outcome).

Definition loop_limit : nat := 500.

Definition plan_iteration (checked_actions : list Action)
    (start_worldstate : WorldState) (s : LoopState) : res Iteration :=
  match child_nodes s with
  | [] => Ok (Exit (Drained (store s)))
  | current_node :: rest =>
      let loopcount := S (loopcount s) in
      if bool_decide (loop_limit < loopcount) then
        Ok (Exit (LimitHit (store s)))
      else
        n ← deref (store s) current_node;
        if matches start_worldstate (worldstate n) then
          Ok (Exit (Found current_node (store s)))
        else
          let helpful_actions :=
            _filter_matching_actions start_worldstate (worldstate n)
              checked_actions in
          '(new_child_nodes, h) ←
            get_child_nodes current_node helpful_actions start_worldstate
              (store s);
          sorted ← py_sorted (key h) (rest ++ new_child_nodes);
          Ok (Continue (mkLoopState loopcount sorted h))
  end.

(** The loop, run for at most [fuel] passes; [None] when the fuel runs out
    first. *)
Fixpoint plan_loop (fuel : nat) (checked_actions : list Action)
    (start_worldstate : WorldState) (s : LoopState)
    : option (res Outcome) :=
  match fuel with
  | O => None
  | S fuel' =>
      match plan_iteration checked_actions start_worldstate s with
      | Ok (Continue s') =>
          plan_loop fuel' checked_actions start_worldstate s'
      | Ok (Exit o) => Some (Ok o)
      | Raise e => Some (Raise e)
      end
  end.

(** The planner with its parameters stored, the checked actions, and the
    loop state before the first pass. *)
Definition plan_setup (self : Planner) (start_worldstate : option WorldState)
    (goal : option Goal) (w : World)
    : res (Planner * list Action * LoopState) :=
  let start := default (_start_worldstate self) start_worldstate in
  let goal' := match goal with Some g => Some g | None => _goal self end in
  let checked_actions := check_actions (_actions self) w in
  g ← from_option Ok (Raise AttributeError) goal';
  let goal_worldstate := Goal_apply_preconditions g ∅ in
  let goal_node := 0 in
  h ← _calc_heuristic_distance_for_node goal_node start
        [mkNode goal_worldstate None [] [] [] None];
  Ok (mkPlanner (_actions self) start goal' (Some goal_node),
      checked_actions,
      mkLoopState 0 [goal_node] h).

(** What [plan] hands back: the start node of the plan or [None], the
    planner object as the call leaves it, and the store of the nodes the
    call created. *)
Record PlanResult : Type := mkPlanResult {
  start_node : option ref;
  planner : Planner;
  nodes : Heap;
}.

Definition plan_with_fuel (fuel : nat) (self : Planner)
    (start_worldstate : option WorldState) (goal : option Goal) (w : World)
    : option (res PlanResult) :=
  match plan_setup self start_worldstate goal w with
  | Raise e => Some (Raise e)
  | Ok (self', checked_actions, s) =>
      match plan_loop fuel checked_actions (_start_worldstate self') s with
      | None => None
      | Some (Raise e) => Some (Raise e)
      | Some (Ok (Found current_node h)) =>
          Some (Ok (mkPlanResult (Some current_node) self' h))
      | Some (Ok (Drained h)) | Some (Ok (LimitHit h)) =>
          Some (Ok (mkPlanResult None self' h))
      end
  end.

(** [Planner.plan]: the loop limit bounds the passes, so [S loop_limit]
    passes are always enough (see [plan_loop_terminates]); running out of
    fuel, which does not happen, is mapped to [RuntimeError]. *)
Definition plan (self : Planner) (start_worldstate : option WorldState)
    (goal : option Goal) (w : World) : res PlanResult :=
  default (Raise RuntimeError)
    (plan_with_fuel (S loop_limit) self start_worldstate goal w).

(** *** [PlanExecutor]

    The calls into the action are logged in order, each with its argument
    and, for the two checks, its answer. *)

Inductive Event : Type :=
  | EvPublish (node : ref)
  | EvIsValid (a : Action) (ws : WorldState) (ok : bool)
  | EvCheckContext (a : Action) (ok : bool)
  | EvRun (a : Action) (next_worldstate : WorldState).

Record ExecState : Type := mkExecState {
  heap : Heap;
  world : World;
  log : list Event;
}.

Definition emit (s : ExecState) (e : Event) : ExecState :=
  mkExecState (heap s) (world s) (log s ++ [e]).

(** [execute] calls itself once per step of the plan; [depth] is the
    number of nested calls the interpreter still allows. *)
Fixpoint execute (depth : nat) (start_node : ref) (introspector : bool)
    (s : ExecState) : res (bool * ExecState) :=
  match depth with
  | O => Raise RuntimeError
  | S depth' =>
      n ← deref (heap s) start_node;
      if bool_decide (length (parent_nodes_path_list n)
                      = length (parent_actions_path_list n)) then
        match action n with
        | None => Ok (true, s)
        | Some action =>
            let current_worldstate := worldstate n in
            next_node ← parent_node n;
            nn ← deref (heap s) next_node;
            let next_worldstate := worldstate nn in
            let s := if introspector then emit s (EvPublish start_node)
                     else s in
            if is_valid action current_worldstate then
              let s := emit s (EvIsValid action current_worldstate true) in
              if check_freeform_context action (world s) then
                let s := emit s (EvCheckContext action true) in
                let '(ws', w') := run action next_worldstate (world s) in
                let s := mkExecState
                           (<[next_node := set_worldstate nn ws']> (heap s))
                           w' (log s ++ [EvRun action next_worldstate]) in
                execute depth' next_node introspector s
              else Ok (false, emit s (EvCheckContext action false))
            else
              Ok (false, emit s (EvIsValid action current_worldstate false))
        end
      else Raise AssertionError
  end.

End planning.

(** ** Notions the properties are stated with *)


(** A check of the executor that came out false. *)
Definition failed_check `{Domain} (e : Event) : bool :=
  match e with
  | EvIsValid _ _ ok | EvCheckContext _ ok => negb ok
  | EvPublish _ | EvRun _ _ => false
  end.

(** The order in which the open collection is kept: by key, and among
    equal keys by [before]. *)
Definition by_key_then {A} (before : relation A) (x y : Q * A) : Prop :=
  (x.1 < y.1)%Q ∨ ((x.1 == y.1)%Q ∧ before x.2 y.2).

(** Elements with equal keys stand in the order [before]. *)
Definition ties_in_order {A} (before : relation A) (x y : Q * A) : Prop :=
  (x.1 == y.1)%Q → before x.2 y.2.

Section notions.
Context `{D : Domain}.

(** The costs of the nodes of a list, as [path_cost] sums them. *)
Definition costs_of (h : Heap) (l : list ref) : res (list Q) :=
  res_mapM (λ r, cost <$> deref h r) l.

(** [passes checked start k s s']: [k] passes of the planner loop that end
    at the bottom of the loop body lead from [s] to [s']. *)
Inductive passes (checked_actions : list Action)
    (start_worldstate : WorldState) : nat → LoopState → LoopState → Prop :=
  | passes_O s : passes checked_actions start_worldstate 0 s s
  | passes_S k s s' s'' :
      plan_iteration checked_actions start_worldstate s = Ok (Continue s') →
      passes checked_actions start_worldstate k s' s'' →
      passes checked_actions start_worldstate (S k) s s''.

(** The loop state a pass hands to the next one, or [d] when the pass left
    the loop. *)
Definition next_state (d : LoopState) (r : res Iteration) : LoopState :=
  match r with
  | Ok (Continue s) => s
  | _ => d
  end.

(** The pass reached the bottom of the loop body. *)
Definition continues (r : res Iteration) : bool :=
  match r with
  | Ok (Continue _) => true
  | _ => false
  end.

(** The node [plan] returns for an outcome of the loop. *)
Definition outcome_node (o : Outcome) : option ref :=
  match o with
  | Found r _ => Some r
  | Drained _ | LimitHit _ => None
  end.

(** The stores of a planning run: the store at the top of any pass of the
    loop.  The store [plan] returns is one of them ([plan_run_store]). *)
Definition run_store (self : Planner) (start_worldstate : option WorldState)
    (goal : option Goal) (w : World) (h : Heap) : Prop :=
  ∃ self' checked_actions s0 k s,
    plan_setup self start_worldstate goal w = Ok (self', checked_actions, s0) ∧
    passes checked_actions (_start_worldstate self') k s0 s ∧
    h = store s.

(** The walk along the parent links, from a node to the goal node: the
    nodes visited, in order.  It is the walk of the executor and of
    [rgoap_path_to_smach_container]; [fuel] bounds its length. *)
Fixpoint forward_walk (h : Heap) (fuel : nat) (node : ref)
    : res (list ref) :=
  match fuel with
  | O => Raise RuntimeError
  | S fuel' =>
      n ← deref h node;
      if is_goal n then Ok [node]
      else
        next_node ← parent_node n;
        cons node <$> forward_walk h fuel' next_node
  end.

(** The actions of the nodes of a walk; the goal node has none. *)
Definition walk_actions (h : Heap) (walk : list ref) : list Action :=
  omap (λ r, h !! r ≫= action) walk.

(** A node as the planner builds it: its heuristic is computed, the goal
    node has empty parent lists, and every other node carries a checked
    action and the parent list of its parent followed by the parent. *)
Record node_wf (checked_actions : list Action) (h : Heap) (r : ref)
    (n : Node) : Prop := mk_node_wf {
  wf_heuristic : is_Some (heuristic_distance n);
  wf_shape :
    match action n with
    | None => parent_nodes_path_list n = []
    | Some a =>
        a ∈ checked_actions ∧
        ∃ p pn, p < r ∧ h !! p = Some pn ∧
          parent_nodes_path_list n = parent_nodes_path_list pn ++ [p]
    end;
}.

Definition heap_wf (checked_actions : list Action) (h : Heap) : Prop :=
  ∀ r n, h !! r = Some n → node_wf checked_actions h r n.

(** The store [h'] has the nodes of [h], changed at most in their lists of
    children. *)
Definition heap_extends (h h' : Heap) : Prop :=
  ∀ r n, h !! r = Some n →
    ∃ l, h' !! r = Some (set_possible_prev_nodes n l).

(** [r] leaves the open collection before [q]: its key is smaller, or the
    keys are equal and [r] was created first. *)
Definition popped_before (h : Heap) (r q : ref) : Prop :=
  ∃ kr kq, key h r = Ok kr ∧ key h q = Ok kq ∧
    ((kr < kq)%Q ∨ ((kr == kq)%Q ∧ r < q)).

(** What holds of the loop state at the top of every pass. *)
Record loop_inv (checked_actions : list Action) (s : LoopState)
    : Prop := mk_loop_inv {
  inv_wf : heap_wf checked_actions (store s);
  inv_open : Forall (λ r, r < length (store s)) (child_nodes s);
  inv_sorted : StronglySorted (popped_before (store s)) (child_nodes s);
}.

End notions.

(** ** A domain to run the planner on

    The classes [WorldState], [Action] and [Goal] are not part of the
    sources.  This module gives one instance of them, after the
    specification, on which the planner and the executor are run: actions
    are records of preconditions, effects, a cost and a freeform context,
    and the world is the table of the facts as they really are. *)

Module Model.

(** [==] on condition values: numbers by value, strings by content. *)
Definition value_eqb (a b : Value) : bool :=
  match as_number a, as_number b with
  | Some x, Some y => Qeq_bool x y
  | None, None =>
      match a, b with
      | VNone, VNone => true
      | VStr s, VStr t => bool_decide (s = t)
      | _, _ => false
      end
  | _, _ => false
  end.

(** The state has the value for the condition. *)
Definition holds (ws : WorldState) (cv : Condition * Value) : bool :=
  match ws !! cv.1 with
  | Some v => value_eqb v cv.2
  | None => false
  end.

Definition assign (ws : WorldState) (cv : Condition * Value) : WorldState :=
  <[cv.1 := cv.2]> ws.

Record Act : Type := mkAct {
  name : string;
  preconditions : list (Condition * Value);
  effects : list (Condition * Value);
  act_cost : Q;
  context : list (Condition * Value);
}.

#[export] Instance Q_eq_dec : EqDecision Q.
Proof. solve_decision. Defined.
#[export] Instance Value_eq_dec : EqDecision Value.
Proof. solve_decision. Defined.
#[export] Instance Act_eq_dec : EqDecision Act.
Proof. solve_decision. Defined.

(** Modelled from the spec: [WorldState.matches] is missing from the
    sources; it is "true iff this state satisfies every condition [other]
    cares about". *)
Definition ws_matches (self other : WorldState) : bool :=
  forallb (holds self) (map_to_list other).

(** Modelled from the spec: [WorldState.get_unsatisfied_conditions] is
    missing from the sources; it gives the "set of conditions differing from
    a reference state", here the conditions both states have a value for,
    with unequal values. *)
Definition unsatisfied (self other : WorldState) : list Condition :=
  map_to_list self ≫= λ cv,
    match other !! cv.1 with
    | Some v => if value_eqb cv.2 v then [] else [cv.1]
    | None => []
    end.

(** Modelled from the spec: [Action.apply_preconditions] is missing from
    the sources; it "mutates a regressed candidate state so applying this
    action forward from it would still satisfy the child node's known
    conditions": what the effects establish is no longer asked for, and the
    preconditions are. *)
Definition regress (a : Act) (ws start : WorldState) : WorldState :=
  foldl assign (foldl (λ m cv, delete cv.1 m) ws (effects a))
    (preconditions a).

(** Modelled from the spec: [Action.has_satisfying_effects] is missing from
    the sources; it holds when the "effects could plausibly reduce" at least
    one unsatisfied condition: an effect gives an unsatisfied condition the
    value the node asks for. *)
Definition satisfying_effects (a : Act) (node_ws start : WorldState)
    (unsatisfied_conditions : list Condition) : bool :=
  existsb (λ cv, bool_decide (cv.1 ∈ unsatisfied_conditions)
                 && holds node_ws cv) (effects a).

(** Modelled from the spec: [Action.is_valid], [check_freeform_context],
    [run] and [Goal.apply_preconditions] are missing from the sources:
    "preconditions hold"; an "arbitrary external gate", here facts the world
    must show; "performs the real side effect, updating [next_state]"; and
    "produces the done state". *)
#[export, refine] Instance domain : Domain := {|
  Action := Act;
  Goal := list (Condition * Value);
  World := gmap string Value;
  matches := ws_matches;
  get_unsatisfied_conditions := unsatisfied;
  Action_cost := act_cost;
  check_freeform_context a w := forallb (holds w) (context a);
  Action_apply_preconditions := regress;
  has_satisfying_effects := satisfying_effects;
  is_valid a ws := forallb (holds ws) (preconditions a);
  run a next_ws w :=
    (foldl assign next_ws (effects a), foldl assign w (effects a));
  Goal_apply_preconditions g ws := foldl assign ws g;
  set_iteration := remove_dups;
|}.
Proof.
  - intros l a. apply elem_of_remove_dups.
  - intros l. apply NoDup_remove_dups.
Defined.

(** Running actions forward from a state, each on the state the one before
    left; [None] when a precondition does not hold. *)
Fixpoint run_forward (actions : list Act) (ws : WorldState)
    : option WorldState :=
  match actions with
  | [] => Some ws
  | a :: actions' =>
      if forallb (holds ws) (preconditions a)
      then run_forward actions' (foldl assign ws (effects a))
      else None
  end.

(** A problem is solvable when some sequence of actions of the catalog
    leads from the start state to a state in which the goal holds. *)
Definition solvable (catalog : list Act) (start : WorldState)
    (goal : list (Condition * Value)) : Prop :=
  ∃ actions ws,
    Forall (λ a, a ∈ catalog) actions ∧
    run_forward actions start = Some ws ∧
    forallb (holds ws) goal = true.

(** [feeds a b]: an effect of [a] establishes a precondition of [b], so
    [b] can follow [a] in an effect chain. *)
Definition feeds (a b : Act) : bool :=
  existsb (λ e, existsb (λ p, bool_decide (e.1 = p.1) && value_eqb e.2 p.2)
                  (preconditions b)) (effects a).

(** The effect chains of a catalog are acyclic and shorter than [bound]
    when the actions can be ranked below [bound] so that the rank grows
    along every chain. *)
Definition chains_shorter_than (bound : nat) (catalog : list Act) : Prop :=
  ∃ rank : Act → nat,
    (∀ a, a ∈ catalog → rank a < bound) ∧
    ∀ a b, a ∈ catalog → b ∈ catalog → feeds a b = true → rank a < rank b.

(** An event of the executor with the worldstate as a list. *)
Inductive Shown : Type :=
  | SPublish (node : nat)
  | SIsValid (a : string) (ws : list (Condition * Value)) (ok : bool)
  | SCheckContext (a : string) (ok : bool)
  | SRun (a : string) (next_worldstate : list (Condition * Value)).

Definition show (e : Event) : Shown :=
  match e with
  | EvPublish r => SPublish r
  | EvIsValid a ws ok => SIsValid (name a) (map_to_list ws) ok
  | EvCheckContext a ok => SCheckContext (name a) ok
  | EvRun a ws => SRun (name a) (map_to_list ws)
  end.

(** *** The door *)

Definition WalkToDoor : Act :=
  mkAct "WalkToDoor" [] [("at_door", VBool true)] 1 [].
Definition OpenDoor : Act :=
  mkAct "OpenDoor" [("at_door", VBool true)] [("door", VStr "open")] 1 [].
(** An action that would open the door at once, were its context valid. *)
Definition KickDoor : Act :=
  mkAct "KickDoor" [] [("door", VStr "open")] 1 [("alarm", VBool false)].

Definition door_start : WorldState :=
  list_to_map [("door", VStr "closed"); ("at_door", VBool false);
               ("alarm", VBool true)].
Definition door_goal : list (Condition * Value) := [("door", VStr "open")].

Definition door_planner : Planner :=
  mkPlanner [KickDoor; WalkToDoor; OpenDoor] door_start (Some door_goal) None.

(** The agent stands at the door when the plan is made... *)
Definition at_door_start : WorldState :=
  list_to_map [("door", VStr "closed"); ("at_door", VBool true);
               ("alarm", VBool true)].
(** ...and has moved away when the plan is executed. *)
Definition drifted_world : WorldState := door_start.

(** A world in which the alarm is off, so that kicking is allowed. *)
Definition quiet_world : WorldState :=
  list_to_map [("door", VStr "closed"); ("at_door", VBool false);
               ("alarm", VBool false)].

(** The plan for the door, made with the alarm on. *)
Definition door_result : PlanResult :=
  res_get (mkPlanResult None door_planner [])
    (plan door_planner None None door_start).

(** Its start node, of [WalkToDoor], and the node of [OpenDoor]. *)
Definition walk_node : Node := nodes door_result !!! 2.
Definition open_node : Node := nodes door_result !!! 1.

(** The plan made at the door. *)
Definition at_door_result : PlanResult :=
  res_get (mkPlanResult None door_planner [])
    (plan door_planner (Some at_door_start) None at_door_start).
Definition at_door_node : Node := nodes at_door_result !!! 1.
(** Its execution after the agent has moved away. *)
Definition drifted_execution : bool * ExecState :=
  res_get (false, mkExecState [] ∅ [])
    (execute 10 1 false (mkExecState (nodes at_door_result) drifted_world [])).
(** Its execution at the door. *)
Definition at_door_execution : bool * ExecState :=
  res_get (false, mkExecState [] ∅ [])
    (execute 10 1 false (mkExecState (nodes at_door_result) at_door_start [])).

(** The plan made with the alarm off: kick the door. *)
Definition kick_result : PlanResult :=
  res_get (mkPlanResult None door_planner [])
    (plan door_planner (Some quiet_world) None quiet_world).
(** Its execution with the alarm on. *)
Definition kick_execution : bool * ExecState :=
  res_get (false, mkExecState [] ∅ [])
    (execute 10 1 false (mkExecState (nodes kick_result) door_start [])).


(** *** A light that has to be on for the work and off at the end *)

Definition TurnOn : Act :=
  mkAct "TurnOn" [("light", VBool false)] [("light", VBool true)] 1 [].
Definition Work : Act :=
  mkAct "Work" [("light", VBool true); ("done", VBool false)]
    [("done", VBool true)] 1 [].
Definition TurnOff : Act :=
  mkAct "TurnOff" [("light", VBool true)] [("light", VBool false)] 1 [].
Definition light_start : WorldState :=
  list_to_map [("light", VBool false); ("done", VBool false)].
Definition light_goal : list (Condition * Value) :=
  [("light", VBool false); ("done", VBool true)].
Definition light_planner : Planner :=
  mkPlanner [TurnOn; Work; TurnOff] light_start (Some light_goal) None.
Definition light_goal_ws : WorldState :=
  list_to_map [("light", VBool false); ("done", VBool true)].
(** The store in which the node of [Work] is about to get its heuristic. *)
Definition light_goal_node : Node :=
  mkNode light_goal_ws None [] [] [] (Some 1%Q).
Definition light_node : Node :=
  mkNode (regress Work light_goal_ws light_start) (Some Work) [] [0] [Work]
    None.
Definition light_store : list Node := [light_goal_node; light_node].

(** *** A battery to be charged from 0 to 10, at 5 in between *)

Definition Charge : Act :=
  mkAct "Charge" [("level", VNum 5)] [("level", VNum 10)] 1 [].
Definition charge_start : WorldState := list_to_map [("level", VNum 0)].
Definition charge_node : Node :=
  mkNode (list_to_map [("level", VNum 5)]) (Some Charge) [] [0] [Charge]
    None.
Definition charge_store : list Node :=
  [mkNode (list_to_map [("level", VNum 10)]) None [] [] [] (Some 1%Q);
   charge_node].
Definition charge_store' : list Node :=
  res_get [] (_calc_heuristic_distance_for_node 1 charge_start charge_store).

(** *** Many cheap dead ends and one expensive way

    The goal is reached by the single action [Reach], which is expensive.
    Each of the [width] actions [decoy1 i] would reach it too, from a state
    that only the actions [decoy2 j] lead to, and those need a fact that
    nothing brings about. *)

Definition width : nat := 23.

Definition Reach : Act :=
  mkAct "Reach" [("g", VBool false)] [("g", VBool true)] 1000 [].
Definition decoy1 (i : nat) : Act :=
  mkAct ("D1_" +:+ pretty i) [("g", VBool false); ("m", VBool true)]
    [("g", VBool true)] 1 [].
Definition decoy2 (i : nat) : Act :=
  mkAct ("D2_" +:+ pretty i) [("m", VBool false); ("x", VBool true)]
    [("m", VBool true)] 1 [].

Definition maze_catalog : list Act :=
  Reach :: (decoy1 <$> seq 0 width) ++ (decoy2 <$> seq 0 width).
Definition maze_start : WorldState :=
  list_to_map [("g", VBool false); ("m", VBool false); ("x", VBool false)].
Definition maze_goal : list (Condition * Value) := [("g", VBool true)].
Definition maze_planner : Planner :=
  mkPlanner maze_catalog maze_start (Some maze_goal) None.

(** The loop state of the maze before the first pass and after it. *)
Definition maze_setup : Planner * list Act * LoopState :=
  res_get (maze_planner, [], mkLoopState 0 [] [])
    (plan_setup maze_planner None None maze_start).
Definition maze_pass1 : LoopState :=
  next_state maze_setup.2
    (plan_iteration maze_setup.1.2 (_start_worldstate maze_setup.1.1)
       maze_setup.2).


(** The rank of an action of the maze along the effect chains. *)
Definition maze_rank (a : Act) : nat :=
  if bool_decide (effects a = [("m", VBool true)]) then 0 else 1.

End Model.

(** ** Notions for the further properties *)


Section more_notions.
Context `{D : Domain}.

Definition is_publish (e : Event) : bool :=
  match e with
  | EvPublish _ => true
  | _ => false
  end.

(** The log without the updates published to the introspector. *)
Definition without_publish (evs : list Event) : list Event :=
  filter (λ e, is_publish e = false) evs.

(** The actions run, in the order of the log. *)
Definition runs (evs : list Event) : list Action :=
  omap (λ e, match e with EvRun a _ => Some a | _ => None end) evs.

(** [executable h r actions]: from [r] the parent links lead to a goal
    node, every node on the way passes the assertion of [execute], and the
    nodes before the goal node carry [actions], in order. *)
Inductive executable (h : Heap) : ref → list Action → Prop :=
  | executable_goal r n :
      h !! r = Some n →
      action n = None →
      length (parent_nodes_path_list n) = length (parent_actions_path_list n) →
      executable h r []
  | executable_step r n a p actions :
      h !! r = Some n →
      action n = Some a →
      length (parent_nodes_path_list n) = length (parent_actions_path_list n) →
      last (parent_nodes_path_list n) = Some p →
      executable h p actions →
      executable h r (a :: actions).

(** More of what the planner keeps of every node.  The goal node is the
    first node of the store and the only one without an action.  Every
    other node has a parent, which did not match the start worldstate and
    for which the action of the node was found helpful; its worldstate is
    that of the parent with the preconditions of the action applied, and its
    list of parent actions that of the parent followed by the action.  The
    list of children names exactly the nodes whose parent the node is; when
    it is not empty the children carry the helpful actions, in the order of
    the set of checked actions.  The heuristic lies between 0 and the number
    of conditions on which the node and the start worldstate disagree. *)
Record node_built (checked_actions : list Action)
    (start_worldstate : WorldState) (h : Heap) (r : ref) (n : Node)
    : Prop := mk_node_built {
  nb_root : action n = None ↔ r = 0;
  nb_parent :
    match action n with
    | None => parent_actions_path_list n = []
    | Some a =>
        ∃ p pn, last (parent_nodes_path_list n) = Some p ∧
          h !! p = Some pn ∧
          parent_actions_path_list n = parent_actions_path_list pn ++ [a] ∧
          worldstate n
          = Action_apply_preconditions a (worldstate pn) start_worldstate ∧
          has_satisfying_effects a (worldstate pn) start_worldstate
            (get_unsatisfied_conditions (worldstate pn) start_worldstate)
          = true ∧
          matches start_worldstate (worldstate pn) = false
    end;
  nb_children :
    ∀ c, c ∈ possible_prev_nodes n ↔
         ∃ cn, h !! c = Some cn ∧
               last (parent_nodes_path_list cn) = Some r;
  nb_helpful :
    possible_prev_nodes n = [] ∨
    walk_actions h (possible_prev_nodes n)
    = _filter_matching_actions start_worldstate (worldstate n)
        checked_actions;
  nb_heuristic :
    ∃ d, heuristic_distance n = Some d ∧ (0 <= d)%Q ∧
         (d <= py_len (get_unsatisfied_conditions (worldstate n)
                         start_worldstate))%Q;
}.

Definition heap_built (checked_actions : list Action)
    (start_worldstate : WorldState) (h : Heap) : Prop :=
  ∀ r n, h !! r = Some n → node_built checked_actions start_worldstate h r n.

(** More of what holds of the loop state at the top of every pass: no
    open node has been expanded, and no node is open twice; every other
    node was taken from the open collection in an earlier pass, one in each
    pass, did not match the start worldstate and got a child for each
    helpful action. *)
Record open_inv (checked_actions : list Action)
    (start_worldstate : WorldState) (s : LoopState) : Prop := mk_open_inv {
  open_built : heap_built checked_actions start_worldstate (store s);
  open_unexpanded :
    Forall (λ r, ∃ n, store s !! r = Some n ∧ possible_prev_nodes n = [])
      (child_nodes s);
  open_NoDup : NoDup (child_nodes s);
  open_closed :
    ∀ r n, store s !! r = Some n → r ∉ child_nodes s →
      matches start_worldstate (worldstate n) = false ∧
      walk_actions (store s) (possible_prev_nodes n)
      = _filter_matching_actions start_worldstate (worldstate n)
          checked_actions;
  open_count : length (store s) = loopcount s + length (child_nodes s);
}.

(** [regressed checked start ws actions ws']: the worldstate [ws'] is
    reached from [ws] by applying the preconditions of [actions] one after
    the other, each action being found helpful for the worldstate it is
    applied to, which does not match the start worldstate. *)
Inductive regressed (checked_actions : list Action)
    (start_worldstate : WorldState)
    : WorldState → list Action → WorldState → Prop :=
  | regressed_nil ws : regressed checked_actions start_worldstate ws [] ws
  | regressed_cons ws a actions ws' :
      matches start_worldstate ws = false →
      a ∈ _filter_matching_actions start_worldstate ws checked_actions →
      regressed checked_actions start_worldstate
        (Action_apply_preconditions a ws start_worldstate) actions ws' →
      regressed checked_actions start_worldstate ws (a :: actions) ws'.

(** The child [get_child_nodes] builds for an action, with its
    heuristic. *)
Definition child_of (self : ref) (n : Node) (a : Action)
    (start_worldstate : WorldState) (d : Q) : Node :=
  mkNode (Action_apply_preconditions a (worldstate n) start_worldstate)
    (Some a) [] (parent_nodes_path_list n ++ [self])
    (parent_actions_path_list n ++ [a]) (Some d).

(** The goal node as [plan] builds it. *)
Definition goal_node_of (g : Goal) (start_worldstate : WorldState) : Node :=
  let goal_worldstate := Goal_apply_preconditions g ∅ in
  mkNode goal_worldstate None [] [] []
    (Some (py_len (get_unsatisfied_conditions goal_worldstate
                     start_worldstate))).

(** The goal [plan] works with: the one given, or the one stored. *)
Definition goal_used (self : Planner) (goal : option Goal) : option Goal :=
  match goal with
  | Some g => Some g
  | None => _goal self
  end.


(** The store [h'] has the nodes of [h], changed at most in their
    worldstates. *)
Definition same_structure (h h' : Heap) : Prop :=
  length h' = length h ∧
  ∀ q nq, h !! q = Some nq → ∃ ws, h' !! q = Some (set_worldstate nq ws).

(** The check [e] is one of the action [a]. *)
Definition check_of (a : Action) (e : Event) : Prop :=
  (∃ ws ok, e = EvIsValid a ws ok) ∨ (∃ ok, e = EvCheckContext a ok).

End more_notions.

(** ** The runner

    [runner.py] drives the planner and the executor.  It calls
    [Condition.initialize_worldstate], which fills the worldstate of the
    runner from the world, and [rgoap.is_shutdown]; neither is part of the
    sources, nor are the usability and the validity of a goal.  They are
    further parameters, with the number of nested calls the interpreter
    allows. *)

Class Control `{Domain} : Type := {
  Goal_eq_dec :: EqDecision Goal;
  usability : Goal → Q;
  Goal_is_valid : Goal → WorldState → bool;
  initialize_worldstate : WorldState → World → WorldState * World;
  is_shutdown : World → bool;
  recursion_limit : nat;
}.

(** What the methods of the runner return for an outcome: [None], the
    boolean of the executor, or a string. *)
Inductive PyOutcome : Type :=
  | ONone
  | OBool (b : bool)
  | OStr (s : string).

(** [outcome == s] for a string [s]: a boolean and [None] equal no
    string. *)
Definition outcome_eq (outcome : PyOutcome) (s : string) : bool :=
  match outcome with
  | OStr t => bool_decide (t = s)
  | ONone | OBool _ => false
  end.

(** The calls of the runner into the worldstate initializer, the planner
    and the executor, logged in order. *)
Inductive Call `{Domain} : Type :=
  | CUpdate
  | CPlan (goal : option Goal) (found : bool)
  | CExecute (success : bool).

(** [self.planner] is built in [__init__] from [self.actions] and
    [self.worldstate] themselves, not from copies, and no method of the
    runner binds either name again: the planner of a runner reads the
    actions and the worldstate of the runner, and has only its goal and its
    [last_goal_node] of its own.  The memory is handed to the configuration
    only. *)
Record Runner `{Domain} : Type := mkRunner {
  runner_worldstate : WorldState;
  runner_actions : list Action;
  planner_goal : option Goal;
  planner_last_goal_node : option ref;
  _last_goal : option Goal;
  _preempt_requested : bool;
}.

Arguments mkRunner {_} _ _ _ _ _ _.

(** What a method of the runner works on: the runner, the world, the log
    of the executor and the log of the calls.  The runner is called from
    one thread. *)
Record Env `{Domain} : Type := mkEnv {
  runner : Runner;
  env_world : World;
  env_log : list Event;
  calls : list Call;
}.

Arguments mkEnv {_} _ _ _ _.

(** A method: from the state before the call to an exception, or to a
    result and the state after the call. *)
Definition M `{Domain} (A : Type) : Type := Env → res (A * Env).

#[global] Instance M_ret `{Domain} : MRet M := λ A a e, Ok (a, e).
#[global] Instance M_bind `{Domain} : MBind M :=
  λ A B f m e, match m e with
               | Ok (a, e') => f a e'
               | Raise ex => Raise ex
               end.

(** How one pass through the loop of [update_and_plan_and_execute] ends:
    at the bottom of the loop body, or with the value the method returns. *)
Inductive Pass : Type :=
  | Again (outcome : PyOutcome)
  | Return (outcome : PyOutcome).

Section runner.
Context `{D : Domain} {C : Control}.

Definition raise {A} (ex : exn) : M A := λ _, Raise ex.

Definition get_runner : M Runner := λ e, Ok (runner e, e).

Definition put_runner (r : Runner) : M unit :=
  λ e, Ok (tt, mkEnv r (env_world e) (env_log e) (calls e)).

Definition log_call (c : Call) : M unit :=
  λ e, Ok (tt, mkEnv (runner e) (env_world e) (env_log e) (calls e ++ [c])).

(** [Runner.__init__], with the actions of the configuration. *)
Definition Runner_init (actions : list Action) : Runner :=
  mkRunner ∅ actions None None None false.

(** [self.planner] *)
Definition runner_planner (self : Runner) : Planner :=
  mkPlanner (runner_actions self) (runner_worldstate self)
    (planner_goal self) (planner_last_goal_node self).

Definition set_preempt_requested (self : Runner) (b : bool) : Runner :=
  mkRunner (runner_worldstate self) (runner_actions self)
    (planner_goal self) (planner_last_goal_node self) (_last_goal self) b.

Definition set_last_goal (self : Runner) (goal : option Goal) : Runner :=
  mkRunner (runner_worldstate self) (runner_actions self)
    (planner_goal self) (planner_last_goal_node self) goal
    (_preempt_requested self).

Definition request_preempt : M unit :=
  self ← get_runner; put_runner (set_preempt_requested self true).

Definition preempt_requested : M bool :=
  self ← get_runner; mret (_preempt_requested self).

Definition service_preempt : M unit :=
  self ← get_runner; put_runner (set_preempt_requested self false).

Definition _update_worldstate : M unit := λ e,
  let self := runner e in
  let '(ws, w) := initialize_worldstate (runner_worldstate self)
                    (env_world e) in
  Ok (tt, mkEnv (mkRunner ws (runner_actions self) (planner_goal self)
                   (planner_last_goal_node self) (_last_goal self)
                   (_preempt_requested self))
            w (env_log e) (calls e ++ [CUpdate])).

(** [Runner.plan]: [_check_conditions] only logs.  The node returned
    comes with the store it lives in. *)
Definition Runner_plan (goal : option Goal) : M (option (ref * Heap)) := λ e,
  let self := runner e in
  pr ← plan (runner_planner self) None goal (env_world e);
  let self' := mkRunner (runner_worldstate self) (runner_actions self)
                 (_goal (planner pr)) (last_goal_node (planner pr))
                 (_last_goal self) (_preempt_requested self) in
  let start_node := (λ r, (r, nodes pr)) <$> start_node pr in
  Ok (start_node,
      mkEnv self' (env_world e) (env_log e)
        (calls e ++ [CPlan goal (bool_decide (is_Some start_node))])).

(** [Runner.execute]: the executor is given no introspector, whatever
    [introspection] is. *)
Definition Runner_execute (start_node : ref * Heap) : M bool := λ e,
  '(success, s) ← execute recursion_limit start_node.1 false
                    (mkExecState start_node.2 (env_world e) (env_log e));
  Ok (success,
      mkEnv (runner e) (world s) (log s) (calls e ++ [CExecute success])).

(** The [while tries > 0] loop of [update_and_plan]. *)
Fixpoint update_and_plan_loop (tries : nat) (goal : option Goal)
    (start_node : option (ref * Heap)) : M (option (ref * Heap)) :=
  match tries with
  | O => mret start_node
  | S tries' =>
      _update_worldstate ;;
      start_node ← Runner_plan goal;
      match start_node with
      | Some _ => mret start_node
      | None => update_and_plan_loop tries' goal start_node
      end
  end.

Definition update_and_plan (goal : option Goal) (tries : Z)
    : M (option (ref * Heap)) :=
  if bool_decide (1 ≤ tries)%Z
  then update_and_plan_loop (Z.to_nat tries) goal None
  else raise AssertionError.

(** The [for goal in goals] loop of [plan_and_execute_goals], with what
    follows it. *)
Fixpoint goals_loop (goals : list Goal) : M PyOutcome :=
  match goals with
  | [] => mret (OStr "aborted")
  | goal :: goals' =>
      self ← get_runner;
      if bool_decide (_last_goal self = Some goal) then goals_loop goals'
      else
        preempt ← preempt_requested;
        if preempt : bool
        then service_preempt ;; mret (OStr "preempted")
        else
          plan ← Runner_plan (Some goal);
          match plan with
          | None => goals_loop goals'
          | Some start_node =>
              self ← get_runner;
              put_runner (set_last_goal self (Some goal)) ;;
              success ← Runner_execute start_node;
              let outcome := OBool success in
              if outcome_eq outcome "aborted" then goals_loop goals'
              else mret outcome
          end
  end.

(** [goals.sort(key=lambda goal: goal.usability, reverse=True)]: the sort
    is stable also when reversed, so it is the stable sort by the negated
    key. *)
Definition sort_goals (goals : list Goal) : list Goal :=
  (sort_by_key ((λ goal, ((- usability goal)%Q, goal)) <$> goals)).*2.

Definition plan_and_execute_goals (goals : list Goal) : M PyOutcome :=
  _update_worldstate ;;
  goals_loop (sort_goals goals).

(** One pass through the loop of [update_and_plan_and_execute]. *)
Definition update_and_plan_and_execute_pass (goal : option Goal) (tries : Z)
    (outcome : PyOutcome) : M Pass := λ e,
  if is_shutdown (env_world e) then Ok (Return outcome, e)
  else
    (preempt ← preempt_requested;
     if preempt : bool
     then service_preempt ;; mret (Return (OStr "preempted"))
     else
       start_node ← update_and_plan goal tries;
       match start_node with
       | None => mret (Return (OStr "aborted"))
       | Some start_node =>
           success ← Runner_execute start_node;
           let outcome := OBool success in
           if negb (outcome_eq outcome "aborted") then mret (Return outcome)
           else
             _update_worldstate ;;
             self ← get_runner;
             match goal with
             | None => raise AttributeError
             | Some g =>
                 let _ := Goal_is_valid g (runner_worldstate self) in
                 mret (Again outcome)
             end
       end) e.

(** The loop, run for at most [fuel] passes; [None] when the fuel runs out
    first. *)
Fixpoint update_and_plan_and_execute_loop (fuel : nat) (goal : option Goal)
    (tries : Z) (outcome : PyOutcome) (e : Env)
    : option (res (PyOutcome * Env)) :=
  match fuel with
  | O => None
  | S fuel' =>
      match update_and_plan_and_execute_pass goal tries outcome e with
      | Ok (Again outcome', e') =>
          update_and_plan_and_execute_loop fuel' goal tries outcome' e'
      | Ok (Return outcome', e') => Some (Ok (outcome', e'))
      | Raise ex => Some (Raise ex)
      end
  end.

(** [Runner.update_and_plan_and_execute]: no pass reaches the bottom of
    the loop body (see [no_pass_goes_again]), so one pass is enough. *)
Definition update_and_plan_and_execute (goal : option Goal) (tries : Z)
    : M PyOutcome := λ e,
  default (Raise RuntimeError)
    (update_and_plan_and_execute_loop 1 goal tries ONone e).

(** The calls of [k] tries that found no plan, each after an update of
    the worldstate. *)
Definition failed_tries (goal : option Goal) (k : nat) : list Call :=
  concat (replicate k [CUpdate; CPlan goal false]).

(** The calls of planning in vain for each of the goals. *)
Definition failed_plans (goals : list Goal) : list Call :=
  (λ goal, CPlan (Some goal) false) <$> goals.

(** The goals [plan_and_execute_goals] considers, in its order: all but
    the goal used last time, by falling usability. *)
Definition candidates (self : Runner) (goals : list Goal) : list Goal :=
  filter (λ goal, _last_goal self ≠ Some goal) (sort_goals goals).

End runner.

(** ** More scenarios *)

Module Scenarios.
Import Model.

(** Modelled from the spec: [Condition.initialize_worldstate] is missing
    from the sources; the runner "refreshes the WorldState from live
    sensors", here the facts of the world, which take precedence over what
    the worldstate held. *)
Definition read_sensors (ws w : WorldState) : WorldState * WorldState :=
  (w ∪ ws, w).

(** Modelled from the spec: [rgoap.is_shutdown] and the usability and the
    validity of a goal are missing from the sources; a goal "carries a
    usability score", here the number of conditions it asks for, and is
    valid when they hold. *)
#[export] Instance control : Control := {|
  usability g := py_len g;
  Goal_is_valid g ws := forallb (holds ws) g;
  initialize_worldstate := read_sensors;
  is_shutdown w := holds w ("shutdown", VBool true);
  recursion_limit := 1000;
|}.

(** *** The door, once more *)

Definition door_goal_ws : WorldState := list_to_map door_goal.

(** The store in which the node of [OpenDoor] is about to get its
    heuristic: it asks for [at_door], of which the goal knows nothing. *)
Definition fresh_open_node : Node :=
  mkNode (regress OpenDoor door_goal_ws door_start) (Some OpenDoor) [] [0]
    [OpenDoor] None.
Definition door_store : list Node :=
  [mkNode door_goal_ws None [] [] [] (Some 1%Q); fresh_open_node].

(** A world in which the door is open. *)
Definition open_world : WorldState :=
  list_to_map [("door", VStr "open"); ("at_door", VBool true);
               ("alarm", VBool true)].

(** A planner that can only walk. *)
Definition walker_planner : Planner :=
  mkPlanner [WalkToDoor] door_start (Some door_goal) None.
Definition walker_result : PlanResult :=
  res_get (mkPlanResult None walker_planner [])
    (plan walker_planner None None door_start).

(** The execution of the plan for the door. *)
Definition door_execution : bool * ExecState :=
  res_get (false, mkExecState [] ∅ [])
    (execute 10 2 false (mkExecState (nodes door_result) door_start [])).

(** *** The battery, once more *)

Definition charge_goal_node : Node :=
  mkNode (list_to_map [("level", VNum 10)]) None [] [] [] (Some 1%Q).
(** The goal node expanded over [Charge]. *)
Definition charge_children : list nat * list Node :=
  res_get ([], [])
    (get_child_nodes 0 [Charge] charge_start [charge_goal_node]).

(** *** A runner at the door *)

(** A call of the runner, with the goal as a list. *)
Inductive ShownCall : Type :=
  | SUpdate
  | SPlan (goal : option (list (Condition * Value))) (found : bool)
  | SExecute (success : bool).

Definition show_call (c : Call) : ShownCall :=
  match c with
  | CUpdate => SUpdate
  | CPlan goal found => SPlan goal found
  | CExecute success => SExecute success
  end.

Definition door_runner : Runner := Runner_init [KickDoor; WalkToDoor; OpenDoor].
Definition door_env : Env := mkEnv door_runner door_start [] [].

(** A goal for which there is no plan while the alarm is on, and which
    asks for more than [door_goal]. *)
Definition quiet_goal : list (Condition * Value) :=
  [("alarm", VBool false); ("door", VStr "open")].

Definition door_try : option (nat * list Node) * Env :=
  res_get (None, door_env) (update_and_plan (Some door_goal) 2 door_env).
Definition door_run : PyOutcome * Env :=
  res_get (ONone, door_env)
    (update_and_plan_and_execute (Some door_goal) 1 door_env).
Definition goals_run : PyOutcome * Env :=
  res_get (ONone, door_env)
    (plan_and_execute_goals [door_goal; quiet_goal] door_env).

End Scenarios.

(** * Properties *)

(** ** Results *)

Lemma bind_Ok {A B} (m : res A) (f : A → res B) (b : B) :
  m ≫= f = Ok b ↔ ∃ a, m = Ok a ∧ f a = Ok b.
Proof.
  destruct m as [a|e]; simpl; split.
  - intros Hf. by exists a.
  - by intros (a' & [= <-] & Hf).
  - intros [=].
  - by intros (a' & [=] & _).
Qed.

Lemma fmap_Ok {A B} (f : A → B) (m : res A) (b : B) :
  f <$> m = Ok b ↔ ∃ a, m = Ok a ∧ b = f a.
Proof.
  destruct m as [a|e]; simpl; split.
  - intros [= <-]. by exists a.
  - by intros (a' & [= <-] & ->).
  - intros [=].
  - by intros (a' & [=] & _).
Qed.

Lemma res_get_Ok {A} (d : A) (m : res A) :
  is_Ok m = true → m = Ok (res_get d m).
Proof. by destruct m. Qed.

Lemma next_state_Continue `{Domain} (d : LoopState) (r : res Iteration) :
  continues r = true → r = Ok (Continue (next_state d r)).
Proof. by destruct r as [[]|]. Qed.

Lemma res_get_Ok_pair {A B} (d : A * B) (m : res (A * B)) (a : A) :
  is_Ok m = true → (res_get d m).1 = a → m = Ok (a, (res_get d m).2).
Proof. destruct m as [[??]|]; naive_solver. Qed.

(** Splits the hypotheses that say a sequence of calls returned. *)
Ltac res_inv :=
  repeat match goal with
  | H : Ok _ = Ok _ |- _ => inversion H; clear H; subst
  | H : Raise _ = Ok _ |- _ => discriminate H
  | H : Ok _ = Raise _ |- _ => discriminate H
  | H : _ ≫= _ = Ok _ |- _ =>
      apply bind_Ok in H; destruct H as (? & ? & H)
  | H : _ <$> _ = Ok _ |- _ =>
      apply fmap_Ok in H; destruct H as (? & ? & H)
  end.

(** Runs the sequencing of calls whose results are known, and nothing
    else. *)
Tactic Notation "res_simpl" :=
  cbn [mbind res_bind fmap res_fmap mret res_ret from_option default].
Tactic Notation "res_simpl" "in" hyp(H) :=
  cbn [mbind res_bind fmap res_fmap mret res_ret from_option default] in H.

(** ** Numbers *)

Lemma Qltb_lt (x y : Q) : Qltb x y = true ↔ (x < y)%Q.
Proof.
  unfold Qltb. rewrite negb_true_iff, <- not_true_iff_false, Qle_bool_iff.
  split; [apply Qnot_le_lt | apply Qlt_not_le].
Qed.

Lemma Qltb_ge (x y : Q) : Qltb x y = false ↔ (y <= x)%Q.
Proof.
  unfold Qltb. rewrite negb_false_iff. apply Qle_bool_iff.
Qed.

Lemma py_min_le_l (a b : Q) : (py_min a b <= a)%Q.
Proof.
  unfold py_min. destruct (Qltb b a) eqn:Hlt.
  - apply Qltb_lt in Hlt. lra.
  - lra.
Qed.

Lemma py_min_le_r (a b : Q) : (py_min a b <= b)%Q.
Proof.
  unfold py_min. destruct (Qltb b a) eqn:Hlt.
  - lra.
  - apply Qltb_ge in Hlt. lra.
Qed.

Section heuristic.
Context `{D : Domain}.

Lemma deref_Ok (h : Heap) (r : ref) (n : Node) :
  deref h r = Ok n ↔ h !! r = Some n.
Proof.
  unfold deref. destruct (h !! r); split; intros H; by simplify_eq.
Qed.

(** What a heuristic computation that returns has done: the node had no
    heuristic, and it is the only node changed. *)
Lemma calc_heuristic_Ok (h h' : Heap) (self : ref) (start : WorldState) :
  _calc_heuristic_distance_for_node self start h = Ok h' →
  ∃ n d, h !! self = Some n ∧ heuristic_distance n = None ∧
         h' = <[self := set_heuristic_distance n d]> h ∧
         (d <= py_len (get_unsatisfied_conditions (worldstate n) start))%Q ∧
         (is_goal n = true →
          d = py_len (get_unsatisfied_conditions (worldstate n) start)).
Proof.
  unfold _calc_heuristic_distance_for_node. intros Hcalc.
  res_inv. rename x into n, H into Hn. apply deref_Ok in Hn.
  destruct (heuristic_distance n) eqn:Hhd; [done|].
  res_inv. rename x into d, H into Hd.
  exists n, d. split_and!; [done..| |].
  - destruct (is_goal n); res_inv; [lra|].
    apply py_min_le_l.
  - intros Hg. rewrite Hg in Hd. by res_inv.
Qed.

(** C6.  For a node that is not the goal node, a heuristic computation
    that returns leaves in [heuristic_distance] a number that is at most the
    number of conditions on which the worldstate of the node and the start
    worldstate disagree. *)
Theorem heuristic_at_most_unsatisfied_count (h h' : Heap) (self : ref)
    (n : Node) (start_worldstate : WorldState) :
  h !! self = Some n →
  is_goal n = false →
  _calc_heuristic_distance_for_node self start_worldstate h = Ok h' →
  ∃ n' d,
    h' !! self = Some n' ∧
    worldstate n' = worldstate n ∧
    heuristic_distance n' = Some d ∧
    (d <= py_len (get_unsatisfied_conditions (worldstate n)
                    start_worldstate))%Q.
Proof.
  intros Hn Hgoal Hcalc.
  apply calc_heuristic_Ok in Hcalc as (n0 & d & Hn0 & _ & -> & Hle & _).
  simplify_eq. exists (set_heuristic_distance n d), d.
  split_and!; [|done..].
  apply list_lookup_insert_eq. by eapply lookup_lt_Some.
Qed.

End heuristic.

(** ** The heuristic on numeric conditions *)


Lemma py_sub_TypeError (a b : Value) :
  py_sub a b = Raise TypeError ↔ as_number a = None ∨ as_number b = None.
Proof.
  unfold py_sub. destruct (as_number a), (as_number b); naive_solver.
Qed.



Lemma Qabs_zero_iff (x : Q) : (Qabs x == 0)%Q ↔ (x == 0)%Q.
Proof.
  split; intros Hx.
  - revert Hx. apply Qabs_case; intros; lra.
  - rewrite Hx. reflexivity.
Qed.




Lemma relative_distance_TypeError (vg vn vs : Value) :
  relative_distance vg vn vs = Raise TypeError ↔
  as_number vg = None ∨ as_number vn = None ∨ as_number vs = None.
Proof.
  unfold relative_distance, py_sub, py_truediv.
  destruct (as_number vg) as [qg|], (as_number vs) as [qs|],
    (as_number vn) as [qn|]; res_simpl; try naive_solver.
  destruct (Qeq_bool _ _); res_simpl; [naive_solver|].
  destruct (Qltb _ _); naive_solver.
Qed.

Section zero_distance.
Context `{D : Domain}.




End zero_distance.

(** ** The executor *)

Section executor.
Context `{D : Domain}.

(** A call of [execute] only adds to the log, and a failed check is the
    last thing it adds. *)
Lemma execute_log (depth : nat) (r : ref) (introspector : bool)
    (s s' : ExecState) (b : bool) :
  execute depth r introspector s = Ok (b, s') →
  ∃ evs, log s' = log s ++ evs ∧
    (∀ i e, evs !! i = Some e → failed_check e = true →
            length evs = S i) ∧
    (b = false ↔ ∃ e, last evs = Some e ∧ failed_check e = true).
Proof.
  revert r s s' b.
  induction depth as [|depth IH]; intros r s s' b Hexec; [done|].
  cbn [execute] in Hexec. res_inv. rename x into n.
  case_bool_decide; [|done].
  destruct (action n) as [a|]; last first.
  { res_inv. exists []. rewrite app_nil_r. split_and!; [done|done|].
    split; [done|]. by intros (e & [=] & _). }
  res_inv. rename x into p, x0 into pn.
  set (s1 := if introspector then emit s (EvPublish r) else s) in *.
  assert (∃ pre, log s1 = log s ++ pre ∧ world s1 = world s ∧
            Forall (λ e, failed_check e = false) pre) as
    (pre & Hpre & Hworld & Hpre_ok).
  { subst s1. destruct introspector.
    - exists [EvPublish r]. by repeat constructor.
    - exists []. by rewrite app_nil_r. }
  destruct (is_valid a (worldstate n)) eqn:Hvalid; last first.
  { res_inv. exists (pre ++ [EvIsValid a (worldstate n) false]).
    cbn [emit log]. rewrite Hpre, <- (assoc_L (++)). split_and!; [done| |].
    - intros i e Hi He. rewrite length_app. cbn [length].
      apply lookup_app_Some in Hi as [Hi|[Hlen Hi]].
      + eapply Forall_lookup_1 in Hpre_ok; [|done]. congruence.
      + apply list_lookup_singleton_Some in Hi as [Hi _]. lia.
    - split; [intros _|done]. rewrite last_snoc. by eexists. }
  cbn [emit world] in Hexec.
  destruct (check_freeform_context a (world s1)) eqn:Hctx; last first.
  { res_inv.
    exists (pre ++ [EvIsValid a (worldstate n) true; EvCheckContext a false]).
    cbn [emit log]. rewrite Hpre, <- !(assoc_L (++)).
    split_and!; [done| |].
    - intros i e Hi He. rewrite length_app. cbn [length].
      apply lookup_app_Some in Hi as [Hi|[Hlen Hi]].
      + eapply Forall_lookup_1 in Hpre_ok; [|done]. congruence.
      + destruct (i - length pre) as [|[|?]] eqn:Hidx;
          simplify_eq/=; lia.
    - split; [intros _|done]. rewrite last_app_cons. by eexists. }
  destruct (run a (worldstate pn) (world s1)) as [ws' w'] eqn:Hrun.
  apply IH in Hexec as (evs & Hlog & Hfailed & Hres).
  cbn [log emit] in Hlog.
  exists (pre ++ [EvIsValid a (worldstate n) true; EvCheckContext a true;
                  EvRun a (worldstate pn)] ++ evs).
  split_and!.
  - rewrite Hlog, Hpre, <- !(assoc_L (++)). done.
  - intros i e Hi He. rewrite !length_app. cbn [length].
    apply lookup_app_Some in Hi as [Hi|[Hlen Hi]].
    { eapply Forall_lookup_1 in Hpre_ok; [|done]. congruence. }
    apply lookup_app_Some in Hi as [Hi|[Hlen' Hi]].
    { destruct (i - length pre) as [|[|[|?]]] eqn:Hidx; simplify_eq/=. }
    cbn [length] in Hlen', Hi. apply Hfailed in Hi; [|done]. lia.
  - rewrite Hres. cbn [app]. rewrite last_app_cons.
    destruct evs as [|e evs _] using rev_ind.
    + split; intros (e & [= <-] & He); done.
    + by rewrite !app_comm_cons, !last_snoc.
Qed.

(** C8.  When the validation of the preconditions or the check of the
    freeform context of a step fails, [execute] returns [False], and the
    failed check is the last call it made: the action of that step is not
    run and no later step is looked at.  An execution that returns [True]
    has had no failed check. *)
Theorem execute_aborts_on_failed_check (depth : nat) (start_node : ref)
    (introspector : bool) (s s' : ExecState) (b : bool) (i : nat)
    (e : Event) :
  execute depth start_node introspector s = Ok (b, s') →
  log s' !! (length (log s) + i) = Some e →
  failed_check e = true →
  b = false ∧ length (log s') = S (length (log s) + i).
Proof.
  intros Hexec Hi He.
  apply execute_log in Hexec as (evs & Hlog & Hfailed & Hres).
  rewrite Hlog in Hi |- *. rewrite lookup_app_r in Hi by lia.
  replace (length (log s) + i - length (log s)) with i in Hi by lia.
  pose proof (Hfailed _ _ Hi He) as Hlen.
  split; [|rewrite length_app; lia].
  apply Hres. exists e. split; [|done].
  rewrite last_lookup, Hlen. done.
Qed.

(** C3, as the code has it.  At every step, that is in every call of
    [execute] on a node that is not the goal node, the preconditions of the
    action are validated against the worldstate the store holds for that
    node at the time of the call: the state recorded at plan time for the
    first node, and for every later node the state in which the [run] of the
    step before left it.  The freeform context is checked next, and the
    action is run only when both checks passed; the next step is then
    executed on the parent node, in the store as [run] updated it. *)
Theorem execute_validates_stored_worldstate (depth : nat) (start_node : ref)
    (introspector : bool) (s s' : ExecState) (b : bool) (n : Node)
    (a : Action) :
  execute depth start_node introspector s = Ok (b, s') →
  heap s !! start_node = Some n →
  action n = Some a →
  let s1 := if introspector then emit s (EvPublish start_node) else s in
  let valid := is_valid a (worldstate n) in
  let context := check_freeform_context a (world s) in
  ∃ evs,
    log s' = log s1 ++ EvIsValid a (worldstate n) valid :: evs ∧
    if valid then
      ∃ evs', evs = EvCheckContext a context :: evs' ∧
        if context then
          ∃ depth' next_node nn evs'',
            depth = S depth' ∧
            parent_node n = Ok next_node ∧
            heap s !! next_node = Some nn ∧
            evs' = EvRun a (worldstate nn) :: evs'' ∧
            execute depth' next_node introspector
              (mkExecState
                 (<[next_node := set_worldstate nn
                                   (run a (worldstate nn) (world s)).1]>
                    (heap s))
                 (run a (worldstate nn) (world s)).2
                 (log s1 ++ [EvIsValid a (worldstate n) true;
                             EvCheckContext a true;
                             EvRun a (worldstate nn)]))
            = Ok (b, s')
        else evs' = [] ∧ b = false
    else evs = [] ∧ b = false.
Proof.
  intros Hexec Hn Ha s1 valid context.
  destruct depth as [|depth]; [done|].
  cbn [execute] in Hexec.
  rewrite (proj2 (deref_Ok _ _ _) Hn) in Hexec. res_simpl in Hexec.
  case_bool_decide; [|done]. rewrite Ha in Hexec.
  res_inv. rename x into p, x0 into pn, H0 into Hp, H1 into Hpn.
  apply deref_Ok in Hpn. fold s1 in Hexec.
  assert (world s1 = world s) as Hworld.
  { subst s1. by destruct introspector. }
  assert (heap s1 = heap s) as Hheap.
  { subst s1. by destruct introspector. }
  subst valid context. rewrite <- Hworld.
  destruct (is_valid a (worldstate n)) eqn:Hvalid; last first.
  { res_inv. exists []. by cbn [emit log]. }
  cbn [emit world] in Hexec.
  destruct (check_freeform_context a (world s1)) eqn:Hctx; last first.
  { res_inv. exists [EvCheckContext a false]. cbn [emit log].
    rewrite <- (assoc_L (++)). split; [done|]. by eexists. }
  destruct (run a (worldstate pn) (world s1)) as [ws' w'] eqn:Hrun.
  cbn [emit heap log] in Hexec. rewrite Hheap in Hexec.
  rewrite <- !(assoc_L (++)) in Hexec. cbn [app] in Hexec.
  pose proof Hexec as Hlog.
  apply execute_log in Hlog as (evs & Hlog & _). cbn [log] in Hlog.
  exists (EvCheckContext a true :: EvRun a (worldstate pn) :: evs).
  split.
  { rewrite Hlog, <- (assoc_L (++)). done. }
  eexists. split; [done|].
  exists depth, p, pn, evs. rewrite Hrun. by split_and!.
Qed.

End executor.

(** ** The stable sort *)

Section stable_sort.
Context {A : Type} (before : relation A).

Lemma insert_by_key_Permutation (x : Q * A) (l : list (Q * A)) :
  insert_by_key x l ≡ₚ x :: l.
Proof.
  induction l as [|y l IH]; [done|]. cbn [insert_by_key].
  destruct (Qltb y.1 x.1); [|done].
  rewrite IH. apply Permutation_swap.
Qed.

Lemma sort_by_key_cons (x : Q * A) (l : list (Q * A)) :
  sort_by_key (x :: l) = insert_by_key x (sort_by_key l).
Proof. done. Qed.

Lemma sort_by_key_Permutation (l : list (Q * A)) : sort_by_key l ≡ₚ l.
Proof.
  induction l as [|x l IH]; [done|]. rewrite sort_by_key_cons.
  rewrite insert_by_key_Permutation. by f_equiv.
Qed.

Lemma insert_by_key_sorted (x : Q * A) (l : list (Q * A)) :
  StronglySorted (by_key_then before) l →
  Forall (ties_in_order before x) l →
  StronglySorted (by_key_then before) (insert_by_key x l).
Proof.
  induction 1 as [|y l Hsorted IH Hy]; intros Hties.
  { repeat constructor. }
  apply Forall_cons in Hties as [Hxy Hties]. cbn [insert_by_key].
  destruct (Qltb y.1 x.1) eqn:Hlt.
  - apply Qltb_lt in Hlt. constructor; [by apply IH|].
    rewrite insert_by_key_Permutation. constructor; [by left|done].
  - apply Qltb_ge in Hlt.
    assert (by_key_then before x y) as Hx.
    { destruct (Qlt_le_dec x.1 y.1) as [?|Hge]; [by left|].
      right. assert (x.1 == y.1)%Q by lra. split; [done|]. by apply Hxy. }
    constructor; [by constructor|]. constructor; [done|].
    eapply Forall_impl.
    { apply Forall_and. split; [exact Hy|exact Hties]. }
    intros z [Hyz Hxz]. unfold by_key_then in *.
    destruct (Qlt_le_dec x.1 z.1) as [?|Hge]; [by left|].
    right. assert (x.1 == z.1)%Q by (destruct Hyz as [?|[? _]]; lra).
    split; [done|]. by apply Hxz.
Qed.

(** Sorting a list whose equal keys already stand in the order [before]
    gives the list ordered by key first and by [before] among equal keys:
    the sort keeps ties in the order it found them. *)
Lemma sort_by_key_sorted (l : list (Q * A)) :
  StronglySorted (ties_in_order before) l →
  StronglySorted (by_key_then before) (sort_by_key l).
Proof.
  induction 1 as [|x l Hsorted IH Hx]; [constructor|].
  rewrite sort_by_key_cons. apply insert_by_key_sorted; [done|].
  by rewrite sort_by_key_Permutation.
Qed.

Lemma py_sorted_Ok (f : A → res Q) (l l' : list A) :
  py_sorted f l = Ok l' →
  ∃ keyed, Forall2 (λ x kx, f x = Ok kx.1 ∧ kx.2 = x) l keyed ∧
           l' = (sort_by_key keyed).*2.
Proof.
  unfold py_sorted. intros Hsorted. res_inv. rename x into keyed.
  exists keyed. split; [|done]. rename H into Hkeys.
  revert keyed Hkeys. induction l as [|x l IH]; intros keyed Hkeys.
  { cbn in Hkeys. res_inv. constructor. }
  cbn [res_mapM] in Hkeys. res_inv. constructor; [done|]. by apply IH.
Qed.

End stable_sort.

(** ** The store of the planner *)

Section store.
Context `{D : Domain}.

Lemma heap_extends_refl (h : Heap) : heap_extends h h.
Proof. intros r n Hn. exists (possible_prev_nodes n). by destruct n. Qed.

Lemma heap_extends_trans (h1 h2 h3 : Heap) :
  heap_extends h1 h2 → heap_extends h2 h3 → heap_extends h1 h3.
Proof.
  intros H12 H23 r n Hn.
  destruct (H12 _ _ Hn) as [l Hl]. destruct (H23 _ _ Hl) as [l' Hl'].
  by exists l'.
Qed.

Lemma heap_extends_length (h h' : Heap) :
  heap_extends h h' → length h ≤ length h'.
Proof.
  intros Hext. destruct (decide (length h ≤ length h')) as [|Hlt]; [done|].
  destruct (lookup_lt_is_Some_2 h (length h')) as [n Hn]; [lia|].
  destruct (Hext _ _ Hn) as [l Hl]. apply lookup_lt_Some in Hl. lia.
Qed.

(** The parents of a node were created before it. *)
Lemma parents_below (checked : list Action) (h : Heap) (r : ref) (n : Node) :
  heap_wf checked h → h !! r = Some n →
  Forall (λ p, p < r) (parent_nodes_path_list n).
Proof.
  intros Hwf. revert n.
  induction (lt_wf r) as [r _ IH]. intros n Hn.
  destruct (Hwf _ _ Hn) as [_ Hshape].
  destruct (action n) as [a|]; [|by rewrite Hshape].
  destruct Hshape as (_ & p & pn & Hlt & Hpn & ->).
  apply Forall_app. split; [|by repeat constructor].
  eapply Forall_impl; [by eapply IH|]. intros q ?. simpl in *. lia.
Qed.

Lemma node_wf_extends (checked : list Action) (h h' : Heap) (r : ref)
    (n : Node) (l : list ref) :
  heap_extends h h' → node_wf checked h r n →
  node_wf checked h' r (set_possible_prev_nodes n l).
Proof.
  intros Hext [Hhd Hshape]. split; [done|]. cbn.
  destruct (action n) as [a|]; [|done].
  destruct Hshape as (Ha & p & pn & Hlt & Hpn & Hlist).
  split; [done|]. destruct (Hext _ _ Hpn) as [l' Hl'].
  by exists p, (set_possible_prev_nodes pn l').
Qed.

Lemma costs_of_extends (h h' : Heap) (l : list ref) :
  heap_extends h h' → Forall (λ p, p < length h) l →
  costs_of h' l = costs_of h l.
Proof.
  intros Hext. induction 1 as [|p l Hp _ IH]; [done|].
  unfold costs_of in *. cbn [res_mapM]. rewrite IH.
  destruct (lookup_lt_is_Some_2 h p Hp) as [n Hn].
  destruct (Hext _ _ Hn) as [l' Hl'].
  by rewrite (proj2 (deref_Ok h p n) Hn), (proj2 (deref_Ok h' p _) Hl').
Qed.

Lemma costs_of_Ok (h : Heap) (l : list ref) :
  Forall (λ p, p < length h) l →
  ∃ costs, costs_of h l = Ok costs ∧
    Forall2 (λ p c, ∃ pn, h !! p = Some pn ∧ c = cost pn) l costs.
Proof.
  induction 1 as [|p l Hp _ (costs & Hcosts & Hall)].
  { exists []. by split; [|constructor]. }
  destruct (lookup_lt_is_Some_2 h p Hp) as [n Hn].
  exists (cost n :: costs). unfold costs_of in *. cbn [res_mapM].
  rewrite Hcosts, (proj2 (deref_Ok h p n) Hn). split; [done|].
  constructor; [by exists n|done].
Qed.

Lemma total_cost_extends (checked : list Action) (h h' : Heap) (r : ref)
    (n : Node) (l : list ref) :
  heap_wf checked h → heap_extends h h' → h !! r = Some n →
  total_cost h' (set_possible_prev_nodes n l) = total_cost h n.
Proof.
  intros Hwf Hext Hn. unfold total_cost, path_cost. cbn.
  fold (costs_of h' (parent_nodes_path_list n)).
  fold (costs_of h (parent_nodes_path_list n)).
  rewrite (costs_of_extends h h'); [done..|].
  eapply Forall_impl; [by eapply parents_below|].
  intros p ?. apply lookup_lt_Some in Hn. simpl in *. lia.
Qed.

(** The key of a node does not change when the store grows. *)
Lemma key_extends (checked : list Action) (h h' : Heap) (r : ref) :
  heap_wf checked h → heap_extends h h' → r < length h →
  key h' r = key h r.
Proof.
  intros Hwf Hext Hr. unfold key.
  destruct (lookup_lt_is_Some_2 h r Hr) as [n Hn].
  destruct (Hext _ _ Hn) as [l Hl].
  rewrite (proj2 (deref_Ok h r n) Hn), (proj2 (deref_Ok h' r _) Hl).
  res_simpl. by eapply total_cost_extends.
Qed.


Lemma set_possible_prev_nodes_id (n : Node) :
  set_possible_prev_nodes n (possible_prev_nodes n) = n.
Proof. by destruct n. Qed.

(** One pass of the loop of [get_child_nodes]: the new node is appended to
    the store with its heuristic, and [self] gets it as a child. *)
Lemma expand_pass (checked : list Action) (h : Heap) (self : ref)
    (n new : Node) (a : Action) (d : Q) :
  heap_wf checked h → h !! self = Some n → a ∈ checked →
  action new = Some a →
  parent_nodes_path_list new = parent_nodes_path_list n ++ [self] →
  let n' := set_possible_prev_nodes n (possible_prev_nodes n ++ [length h]) in
  let h' := <[self := n']>
              (<[length h := set_heuristic_distance new d]> (h ++ [new])) in
  heap_wf checked h' ∧ heap_extends h h' ∧ length h' = S (length h) ∧
  h' !! self = Some n'.
Proof.
  intros Hwf Hn Ha Hact Hparents n' h'.
  assert (self < length h) as Hself by by eapply lookup_lt_Some.
  assert (length h' = S (length h)) as Hlen.
  { subst h'. rewrite !length_insert, length_app. simpl. lia. }
  assert (h' !! self = Some n') as Hself'.
  { subst h'. apply list_lookup_insert_eq.
    rewrite length_insert, length_app. simpl. lia. }
  assert (h' !! length h = Some (set_heuristic_distance new d)) as Hnew.
  { subst h'. rewrite list_lookup_insert_ne by lia.
    apply list_lookup_insert_eq. rewrite length_app. simpl. lia. }
  assert (∀ r, r ≠ self → r < length h → h' !! r = h !! r) as Hold.
  { intros r Hne Hr. subst h'.
    rewrite !list_lookup_insert_ne by lia. by apply lookup_app_l. }
  assert (heap_extends h h') as Hext.
  { intros r m Hm. destruct (decide (r = self)) as [->|Hne].
    - simplify_eq. by eexists.
    - exists (possible_prev_nodes m). rewrite set_possible_prev_nodes_id.
      rewrite Hold; [done..|]. by eapply lookup_lt_Some. }
  split_and!; [|done..].
  intros r m Hm. pose proof (lookup_lt_Some _ _ _ Hm) as Hr.
  destruct (decide (r = self)) as [->|Hne].
  { simplify_eq. eapply node_wf_extends; [done|]. by apply Hwf. }
  destruct (decide (r = length h)) as [->|Hne'].
  { simplify_eq. split; [by eexists|]. cbn. rewrite Hact.
    split; [done|]. exists self, n'. by rewrite Hparents. }
  rewrite Hold in Hm by lia.
  rewrite <- (set_possible_prev_nodes_id m).
  eapply node_wf_extends; [done|]. by apply Hwf.
Qed.

Lemma expand_spec (checked : list Action) (start : WorldState)
    (actions : list Action) (h h' : Heap) (self : ref) (n : Node) :
  heap_wf checked h → h !! self = Some n →
  Forall (λ a, a ∈ checked) actions →
  expand self actions start h = Ok h' →
  heap_wf checked h' ∧ heap_extends h h' ∧
  length h' = length h + length actions ∧
  h' !! self = Some (set_possible_prev_nodes n
                       (possible_prev_nodes n
                        ++ seq (length h) (length actions))).
Proof.
  intros Hwf Hn Hall. revert h n Hwf Hn.
  induction Hall as [|a actions Ha _ IH]; intros h n Hwf Hn Hexpand.
  { cbn in Hexpand. res_inv. split_and!; [done| |simpl; lia|].
    - apply heap_extends_refl.
    - by rewrite app_nil_r, set_possible_prev_nodes_id. }
  cbn [expand] in Hexpand.
  rewrite (proj2 (deref_Ok h self n) Hn) in Hexpand. res_simpl in Hexpand.
  res_inv. rename x into h2, H into Hcalc, x0 into n2, H0 into Hn2.
  apply calc_heuristic_Ok in Hcalc as (new & d & Hnew & _ & -> & _).
  rewrite list_lookup_middle in Hnew by done. simplify_eq.
  apply deref_Ok in Hn2.
  assert (self < length h) as Hself by by eapply lookup_lt_Some.
  rewrite list_lookup_insert_ne, lookup_app_l in Hn2 by lia. simplify_eq.
  match type of Hexpand with
  | expand _ _ _ (<[_ := _]> (<[_ := set_heuristic_distance ?new _]> _)) = _
      => destruct (expand_pass checked h self n new a d)
           as (Hwf' & Hext & Hlen & Hself'); [done..|]
  end.
  destruct (IH _ _ Hwf' Hself' Hexpand) as (Hwf'' & Hext' & Hlen' & Hself'').
  split_and!; [done| |simpl; lia|].
  - by eapply heap_extends_trans.
  - rewrite Hself''. cbn. rewrite Hlen, <- (assoc_L (++)). done.
Qed.

Lemma get_child_nodes_spec (checked : list Action) (start : WorldState)
    (actions : list Action) (h h' : Heap) (self : ref) (new : list ref) :
  heap_wf checked h → Forall (λ a, a ∈ checked) actions →
  get_child_nodes self actions start h = Ok (new, h') →
  heap_wf checked h' ∧ heap_extends h h' ∧
  length h' = length h + length actions ∧
  new = seq (length h) (length actions).
Proof.
  intros Hwf Hall Hget. unfold get_child_nodes in Hget.
  res_inv. rename x into n, H into Hn. apply deref_Ok in Hn.
  case_bool_decide as Hnil; [|done]. apply nil_length_inv in Hnil.
  apply bind_Ok in Hget as (h1 & Hexpand & Hget).
  apply bind_Ok in Hget as (n' & Hn' & Hget).
  apply deref_Ok in Hn'.
  destruct (expand_spec _ _ _ _ _ _ _ Hwf Hn Hall Hexpand)
    as (Hwf' & Hext & Hlen & Hself).
  rewrite Hn' in Hself. simplify_eq. by rewrite Hnil.
Qed.

End store.

(** ** The planner loop *)

Lemma StronglySorted_Forall2 {A B} (R : relation A) (R' : relation B)
    (P : A → B → Prop) (l : list A) (l' : list B) :
  Forall2 P l l' →
  (∀ x y x' y', x ∈ l → y ∈ l → P x x' → P y y' → R x y → R' x' y') →
  StronglySorted R l → StronglySorted R' l'.
Proof.
  induction 1 as [|x x' l l' Hx Hall IH]; intros HR Hsorted; [constructor|].
  apply StronglySorted_cons in Hsorted as [Hhd Hsorted].
  constructor.
  - apply IH; [|done]. intros ???? ??. apply HR; by right.
  - clear IH Hsorted. induction Hall as [|y y' l l' Hy Hall IH];
      [constructor|].
    apply Forall_cons in Hhd as [Hxy Hhd]. constructor.
    + eapply (HR x y); [by left|by right; left|done..].
    + apply IH; [|done]. intros a b a' b' Ha Hb. apply HR.
      * apply elem_of_cons in Ha as [->|Ha]; [by left|by do 2 right].
      * apply elem_of_cons in Hb as [->|Hb]; [by left|by do 2 right].
Qed.

Lemma StronglySorted_fmap_elem {A B} (f : A → B) (R : relation A)
    (R' : relation B) (l : list A) :
  (∀ x y, x ∈ l → y ∈ l → R x y → R' (f x) (f y)) →
  StronglySorted R l → StronglySorted R' (f <$> l).
Proof.
  intros HR. apply StronglySorted_Forall2 with (P := λ x y, y = f x).
  - apply Forall2_fmap_r, Forall_Forall2_diag, Forall_true. done.
  - intros x y ?? Hx Hy -> ->. by apply HR.
Qed.

Lemma StronglySorted_seq (j n : nat) : StronglySorted lt (seq j n).
Proof.
  revert j. induction n as [|n IH]; intros j; [constructor|].
  cbn [seq]. constructor; [done|].
  apply Forall_seq. intros; lia.
Qed.

Section loop.
Context `{D : Domain}.

Lemma helpful_actions_checked (start node_ws : WorldState)
    (checked : list Action) :
  Forall (λ a, a ∈ checked)
    (_filter_matching_actions start node_ws checked).
Proof.
  apply Forall_forall. intros a Ha. unfold _filter_matching_actions in Ha.
  by apply list_elem_of_filter in Ha as [_ Ha].
Qed.

(** What a pass that reaches the bottom of the loop body has done. *)
Lemma plan_iteration_Continue (checked : list Action) (start : WorldState)
    (s s' : LoopState) :
  plan_iteration checked start s = Ok (Continue s') →
  ∃ current rest n new,
    child_nodes s = current :: rest ∧
    S (loopcount s) ≤ loop_limit ∧
    loopcount s' = S (loopcount s) ∧
    store s !! current = Some n ∧
    matches start (worldstate n) = false ∧
    get_child_nodes current
      (_filter_matching_actions start (worldstate n) checked) start (store s)
    = Ok (new, store s') ∧
    py_sorted (key (store s')) (rest ++ new) = Ok (child_nodes s').
Proof.
  unfold plan_iteration. intros Hpass.
  destruct (child_nodes s) as [|current rest]; [done|].
  case_bool_decide as Hlimit; [done|].
  apply bind_Ok in Hpass as (n & Hn & Hpass). apply deref_Ok in Hn.
  destruct (matches start (worldstate n)) eqn:Hmatch; [done|].
  apply bind_Ok in Hpass as ([new h] & Hget & Hpass).
  apply bind_Ok in Hpass as (sorted & Hsorted & Hpass).
  simplify_eq. exists current, rest, n, new. split_and!; [done|lia|done..].
Qed.

Lemma loop_inv_pass (checked : list Action) (start : WorldState)
    (s s' : LoopState) :
  loop_inv checked s →
  plan_iteration checked start s = Ok (Continue s') →
  loop_inv checked s'.
Proof.
  intros [Hwf Hopen Hsorted] Hpass.
  apply plan_iteration_Continue in Hpass
    as (current & rest & n & new & Hchild & _ & _ & Hn & _ & Hget & Hsort).
  rewrite Hchild in Hopen, Hsorted.
  apply Forall_cons in Hopen as [Hcurrent Hopen].
  apply StronglySorted_cons in Hsorted as [_ Hsorted].
  apply get_child_nodes_spec with (checked := checked) in Hget
    as (Hwf' & Hext & Hlen & ->);
    [|done|apply helpful_actions_checked].
  set (k := length (_filter_matching_actions _ _ _)) in *.
  apply py_sorted_Ok in Hsort as (keyed & Hkeyed & Hchild').
  assert (Forall (λ r, r < length (store s')) (rest ++ seq (length (store s)) k))
    as Hopen'.
  { apply Forall_app. split.
    - eapply Forall_impl; [done|]. intros r ?. simpl in *. lia.
    - apply Forall_seq. intros. lia. }
  assert (Forall (λ kx, key (store s') kx.2 = Ok kx.1) keyed) as Hkeys.
  { clear -Hkeyed. induction Hkeyed as [|x kx l l' [Hk <-] _ IH];
      by constructor. }
  assert (keyed.*2 = rest ++ seq (length (store s)) k) as Hrefs.
  { clear -Hkeyed. induction Hkeyed as [|x kx l l' [_ <-] _ IH];
      [done|]. cbn. by f_equal. }
  split.
  - done.
  - rewrite Hchild', sort_by_key_Permutation, Hrefs. done.
  - rewrite Hchild'.
    apply StronglySorted_fmap_elem with (R := by_key_then lt).
    { intros x y Hx Hy [Hlt|[Heq Hlt]].
      all: rewrite sort_by_key_Permutation in Hx, Hy.
      all: eapply Forall_forall in Hx; [|exact Hkeys].
      all: eapply Forall_forall in Hy; [|exact Hkeys].
      all: exists x.1, y.1; split_and!; [done|done|].
      - by left.
      - by right. }
    apply sort_by_key_sorted.
    apply Forall2_app_inv_l in Hkeyed
      as (keyed1 & keyed2 & Hkeyed1 & Hkeyed2 & ->).
    apply StronglySorted_app_2.
    + intros x1 x2 Hx1 Hx2 _.
      assert (x1.2 < length (store s)) as Hlt1.
      { apply list_elem_of_lookup in Hx1 as [i Hi].
        destruct (Forall2_lookup_r _ _ _ _ _ Hkeyed1 Hi)
          as (r & Hr & _ & <-).
        eapply Forall_lookup_1 in Hopen; done. }
      assert (length (store s) ≤ x2.2) as Hge2.
      { apply list_elem_of_lookup in Hx2 as [i Hi].
        destruct (Forall2_lookup_r _ _ _ _ _ Hkeyed2 Hi)
          as (r & Hr & _ & <-).
        apply lookup_seq in Hr as [-> _]. lia. }
      lia.
    + eapply StronglySorted_Forall2; [exact Hkeyed1| |exact Hsorted].
      intros x y x' y' Hx Hy [Hkx <-] [Hky <-] (kx & ky & Hx' & Hy' & Hlt) Heq.
      rewrite (key_extends checked (store s)) in Hkx, Hky;
        [|done|done|by eapply Forall_forall in Hopen..].
      rewrite Hkx in Hx'. rewrite Hky in Hy'.
      injection Hx' as <-. injection Hy' as <-.
      destruct Hlt as [Hlt|[_ Hlt]]; [lra|done].
    + eapply StronglySorted_Forall2;
        [exact Hkeyed2| |apply StronglySorted_seq].
      by intros x y x' y' _ _ [_ <-] [_ <-] Hlt _.
Qed.

Lemma loop_inv_passes (checked : list Action) (start : WorldState)
    (k : nat) (s s' : LoopState) :
  passes checked start k s s' →
  loop_inv checked s →
  loop_inv checked s' ∧ loopcount s' = loopcount s + k ∧
  heap_extends (store s) (store s').
Proof.
  induction 1 as [s|k s s' s'' Hpass _ IH]; intros Hinv.
  { split_and!; [done|lia|apply heap_extends_refl]. }
  pose proof (loop_inv_pass _ _ _ _ Hinv Hpass) as Hinv'.
  destruct (IH Hinv') as (Hinv'' & Hcount & Hext).
  apply plan_iteration_Continue in Hpass
    as (current & rest & n & new & _ & _ & Hcount' & _ & _ & Hget & _).
  apply get_child_nodes_spec with (checked := checked) in Hget
    as (_ & Hext' & _);
    [|apply Hinv|apply helpful_actions_checked].
  split_and!; [done|lia|by eapply heap_extends_trans].
Qed.

Lemma passes_bound (checked : list Action) (start : WorldState)
    (k : nat) (s s' : LoopState) :
  passes checked start k s s' →
  loopcount s' = loopcount s + k ∧ (0 < k → loopcount s' ≤ loop_limit).
Proof.
  induction 1 as [s|k s s' s'' Hpass Hrest [IH1 IH2]]; [lia|].
  apply plan_iteration_Continue in Hpass
    as (_ & _ & _ & _ & _ & Hlimit & Hcount & _).
  split; [lia|]. intros _. destruct k; [|lia].
  inversion Hrest; subst. lia.
Qed.

(** What [plan] has set up when the loop is entered. *)
Lemma plan_setup_Ok (self self' : Planner) (start : option WorldState)
    (goal : option Goal) (w : World) (checked : list Action)
    (s0 : LoopState) :
  plan_setup self start goal w = Ok (self', checked, s0) →
  checked = check_actions (_actions self) w ∧
  _start_worldstate self' = default (_start_worldstate self) start ∧
  loopcount s0 = 0 ∧
  child_nodes s0 = [0] ∧
  loop_inv checked s0 ∧
  ∃ gn, store s0 = [gn] ∧ is_goal gn = true.
Proof.
  unfold plan_setup. intros Hsetup.
  apply bind_Ok in Hsetup as (g & _ & Hsetup).
  apply bind_Ok in Hsetup as (h & Hcalc & Hsetup).
  simplify_eq.
  apply calc_heuristic_Ok in Hcalc as (gn & d & Hgn & _ & -> & _).
  cbn in Hgn. simplify_eq. split_and!; [done..| |by eexists].
  split; cbn.
  - intros [|r] n Hn; [|done]. cbn in Hn. simplify_eq.
    split; [by eexists|done].
  - repeat constructor.
  - repeat constructor.
Qed.

(** The loop and its passes. *)
Lemma plan_loop_passes (checked : list Action) (start : WorldState)
    (fuel : nat) (s0 : LoopState) (o : Outcome) :
  plan_loop fuel checked start s0 = Some (Ok o) →
  ∃ k s, passes checked start k s0 s ∧
         plan_iteration checked start s = Ok (Exit o).
Proof.
  revert s0. induction fuel as [|fuel IH]; intros s0 Hloop; [done|].
  cbn [plan_loop] in Hloop.
  destruct (plan_iteration checked start s0) as [[s1|o']|e] eqn:Hpass;
    [|simplify_eq|done].
  - destruct (IH _ Hloop) as (k & s & Hpasses & Hexit).
    exists (S k), s. split; [by econstructor|done].
  - exists 0, s0. split; [constructor|done].
Qed.

Lemma passes_plan_loop (checked : list Action) (start : WorldState)
    (k fuel : nat) (s0 s : LoopState) (o : Outcome) :
  passes checked start k s0 s →
  plan_iteration checked start s = Ok (Exit o) →
  k < fuel →
  plan_loop fuel checked start s0 = Some (Ok o).
Proof.
  intros Hpasses Hexit. revert fuel.
  induction Hpasses as [s|k s s' s'' Hpass _ IH]; intros fuel Hfuel.
  - destruct fuel; [lia|]. cbn [plan_loop]. by rewrite Hexit.
  - destruct fuel; [lia|]. cbn [plan_loop]. rewrite Hpass.
    apply IH; [done|lia].
Qed.


End loop.

(** ** Sums of costs *)

Lemma fold_left_Qplus (l : list Q) (a : Q) :
  (fold_left Qplus l a == a + fold_left Qplus l 0)%Q.
Proof.
  revert a. induction l as [|x l IH]; intros a; cbn [fold_left].
  - ring.
  - rewrite (IH (a + x)%Q), (IH (0 + x)%Q). ring.
Qed.

Lemma py_sum_cons (x : Q) (l : list Q) :
  (py_sum (x :: l) == x + py_sum l)%Q.
Proof.
  unfold py_sum. cbn [fold_left]. rewrite fold_left_Qplus. ring.
Qed.

Lemma py_sum_app (l1 l2 : list Q) :
  (py_sum (l1 ++ l2) == py_sum l1 + py_sum l2)%Q.
Proof.
  induction l1 as [|x l1 IH].
  - cbn [app]. unfold py_sum at 2. cbn [fold_left]. ring.
  - rewrite <- app_comm_cons, !py_sum_cons, IH. ring.
Qed.

Lemma py_sum_reverse (l : list Q) : (py_sum (reverse l) == py_sum l)%Q.
Proof.
  induction l as [|x l IH]; [reflexivity|].
  rewrite reverse_cons, py_sum_app, !py_sum_cons, IH.
  unfold py_sum at 2. cbn [fold_left]. ring.
Qed.

(** ** Walks along the parent links *)

Section walks.
Context `{D : Domain}.

Lemma forward_walk_wf (checked : list Action) (h : Heap) (r : ref)
    (n : Node) :
  heap_wf checked h → h !! r = Some n →
  forward_walk h (S (length (parent_nodes_path_list n))) r
  = Ok (r :: reverse (parent_nodes_path_list n)).
Proof.
  intros Hwf. revert n. induction (lt_wf r) as [r _ IH]. intros n Hn.
  cbn [forward_walk]. rewrite (proj2 (deref_Ok h r n) Hn). res_simpl.
  destruct (Hwf _ _ Hn) as [_ Hshape]. unfold is_goal, parent_node.
  destruct (action n) as [a|]; [|by rewrite Hshape].
  destruct Hshape as (_ & p & pn & Hlt & Hpn & ->).
  rewrite last_snoc, length_app, Nat.add_1_r. res_simpl.
  rewrite (IH p Hlt pn Hpn), reverse_snoc. done.
Qed.

Lemma walk_ends_at_goal (checked : list Action) (h : Heap) (r : ref)
    (n : Node) :
  heap_wf checked h → h !! r = Some n →
  ∃ g gn, last (r :: reverse (parent_nodes_path_list n)) = Some g ∧
          h !! g = Some gn ∧ is_goal gn = true.
Proof.
  intros Hwf. revert n. induction (lt_wf r) as [r _ IH]. intros n Hn.
  destruct (Hwf _ _ Hn) as [_ Hshape]. unfold is_goal in *.
  destruct (action n) as [a|] eqn:Ha.
  - destruct Hshape as (_ & p & pn & Hlt & Hpn & ->).
    rewrite reverse_snoc, last_cons_cons. by apply IH.
  - exists r, n. by rewrite Hshape, Ha.
Qed.

Lemma walk_actions_cons (h : Heap) (p : ref) (pn : Node) (l : list ref) :
  h !! p = Some pn →
  walk_actions h (p :: l)
  = match action pn with
    | Some a => a :: walk_actions h l
    | None => walk_actions h l
    end.
Proof. intros Hpn. unfold walk_actions. cbn. by rewrite Hpn. Qed.

Lemma costs_walk_actions (h : Heap) (l : list ref) (costs : list Q) :
  Forall2 (λ p c, ∃ pn, h !! p = Some pn ∧ c = cost pn) l costs →
  (py_sum costs == py_sum (Action_cost <$> walk_actions h l))%Q.
Proof.
  induction 1 as [|p c l costs (pn & Hpn & ->) _ IH]; [reflexivity|].
  rewrite (walk_actions_cons _ _ _ _ Hpn). unfold cost.
  destruct (action pn) as [a|].
  - rewrite fmap_cons, !py_sum_cons, IH. reflexivity.
  - rewrite py_sum_cons, IH. ring.
Qed.

(** The path cost of a node of the planner is the sum of the costs of the
    actions met on the walk from it to the goal node. *)
Lemma path_cost_walk (checked : list Action) (h : Heap) (r : ref)
    (n : Node) :
  heap_wf checked h → h !! r = Some n →
  ∃ costs,
    Forall2 (λ p c, ∃ pn, h !! p = Some pn ∧ c = cost pn)
      (parent_nodes_path_list n) costs ∧
    path_cost h n = Ok (cost n + py_sum costs)%Q ∧
    (cost n + py_sum costs ==
     py_sum (Action_cost <$>
               walk_actions h (r :: reverse (parent_nodes_path_list n))))%Q.
Proof.
  intros Hwf Hn.
  destruct (costs_of_Ok h (parent_nodes_path_list n))
    as (costs & Hcosts & Hall).
  { eapply Forall_impl; [by eapply parents_below|].
    intros p ?. apply lookup_lt_Some in Hn. simpl in *. lia. }
  exists costs. split_and!; [done| |].
  - unfold path_cost. fold (costs_of h (parent_nodes_path_list n)).
    by rewrite Hcosts.
  - rewrite <- (costs_walk_actions h (r :: reverse (parent_nodes_path_list n))
                  (cost n :: reverse costs)).
    + by rewrite py_sum_cons, py_sum_reverse.
    + constructor; [by exists n|by apply Forall2_reverse].
Qed.

(** How a pass can leave the loop. *)
Lemma plan_iteration_Exit (checked : list Action) (start : WorldState)
    (s : LoopState) (o : Outcome) :
  plan_iteration checked start s = Ok (Exit o) →
  match o with
  | Found r h =>
      h = store s ∧ S (loopcount s) ≤ loop_limit ∧
      ∃ rest n, child_nodes s = r :: rest ∧ store s !! r = Some n ∧
                matches start (worldstate n) = true
  | Drained h => h = store s ∧ child_nodes s = []
  | LimitHit h =>
      h = store s ∧ child_nodes s ≠ [] ∧ loopcount s ≥ loop_limit
  end.
Proof.
  unfold plan_iteration. intros Hpass.
  destruct (child_nodes s) as [|current rest]; [by simplify_eq|].
  case_bool_decide as Hlimit; [simplify_eq; split_and!; [done..|lia]|].
  apply bind_Ok in Hpass as (n & Hn & Hpass). apply deref_Ok in Hn.
  destruct (matches start (worldstate n)) eqn:Hmatch.
  - simplify_eq. split_and!; [done|lia|]. by exists rest, n.
  - apply bind_Ok in Hpass as ([new h] & Hget & Hpass).
    apply bind_Ok in Hpass as (sorted & Hsorted & Hpass). done.
Qed.

(** A call of [plan] that returns has set up the loop, gone through some
    passes, and left the loop in the pass after them. *)
Lemma plan_Ok (self : Planner) (start : option WorldState)
    (goal : option Goal) (w : World) (pr : PlanResult) :
  plan self start goal w = Ok pr →
  ∃ checked s0 k s o,
    plan_setup self start goal w = Ok (planner pr, checked, s0) ∧
    passes checked (_start_worldstate (planner pr)) k s0 s ∧
    plan_iteration checked (_start_worldstate (planner pr)) s = Ok (Exit o) ∧
    nodes pr = store s ∧
    start_node pr = outcome_node o.
Proof.
  unfold plan, plan_with_fuel. intros Hplan.
  destruct (plan_setup self start goal w) as [[[self' checked] s0]|e]
    eqn:Hsetup; [|done].
  destruct (plan_loop _ _ _ _) as [[o|e]|] eqn:Hloop; [|done..].
  apply plan_loop_passes in Hloop as (k & s & Hpasses & Hexit).
  pose proof (plan_iteration_Exit _ _ _ _ Hexit) as Ho.
  exists checked, s0, k, s, o.
  destruct o; cbn in Hplan; simplify_eq; cbn; by destruct Ho as [-> _].
Qed.

Lemma plan_store_wf (self : Planner) (start : option WorldState)
    (goal : option Goal) (w : World) (pr : PlanResult) :
  plan self start goal w = Ok pr →
  heap_wf (check_actions (_actions self) w) (nodes pr).
Proof.
  intros Hplan.
  apply plan_Ok in Hplan
    as (checked & s0 & k & s & o & Hsetup & Hpasses & _ & -> & _).
  apply plan_setup_Ok in Hsetup as (-> & _ & _ & _ & Hinv & _).
  by apply (loop_inv_passes _ _ _ _ _ Hpasses).
Qed.

End walks.

(** ** The planner *)

Section planner.
Context `{D : Domain}.

Lemma plan_run_store (self : Planner) (start : option WorldState)
    (goal : option Goal) (w : World) (pr : PlanResult) :
  plan self start goal w = Ok pr → run_store self start goal w (nodes pr).
Proof.
  intros Hplan.
  apply plan_Ok in Hplan
    as (checked & s0 & k & s & o & Hsetup & Hpasses & _ & Hnodes & _).
  by exists (planner pr), checked, s0, k, s.
Qed.

Lemma run_store_wf (self : Planner) (start : option WorldState)
    (goal : option Goal) (w : World) (h : Heap) :
  run_store self start goal w h →
  heap_wf (check_actions (_actions self) w) h.
Proof.
  intros (self' & checked & s0 & k & s & Hsetup & Hpasses & ->).
  apply plan_setup_Ok in Hsetup as (-> & _ & _ & _ & Hinv & _).
  by apply (loop_inv_passes _ _ _ _ _ Hpasses).
Qed.

(** C7.  In every store of a planning run, the action of a node passed
    the check of its freeform context when the run filtered the catalog: an
    action that failed the check is the action of no node the run creates,
    whatever its effects. *)
Theorem unchecked_action_in_no_node (self : Planner)
    (start_worldstate : option WorldState) (goal : option Goal) (w : World)
    (h : Heap) (r : ref) (n : Node) (a : Action) :
  run_store self start_worldstate goal w h →
  h !! r = Some n →
  action n = Some a →
  check_freeform_context a w = true ∧ a ∈ _actions self.
Proof.
  intros Hrun Hn Ha. apply run_store_wf in Hrun.
  destruct (Hrun _ _ Hn) as [_ Hshape]. rewrite Ha in Hshape.
  destruct Hshape as [Hchecked _]. unfold check_actions in Hchecked.
  apply set_iteration_elem, list_elem_of_filter in Hchecked. naive_solver.
Qed.

(** C2.  At the top of every pass of the loop the node at the head of the
    open collection, which is the node the pass removes, has the least
    total cost of all open nodes, and every open node of the same total
    cost was created after it.  References are handed out in the order of
    creation, the nodes a pass adds are new ones, and the keys of the nodes
    that stay do not change, so among equal costs the node discovered first
    leaves first, across every sort. *)
Theorem lowest_total_cost_popped_first (self self' : Planner)
    (start_worldstate : option WorldState) (goal : option Goal) (w : World)
    (checked_actions : list Action) (s0 s : LoopState) (k : nat)
    (current_node : ref) (rest : list ref) :
  plan_setup self start_worldstate goal w = Ok (self', checked_actions, s0) →
  passes checked_actions (_start_worldstate self') k s0 s →
  child_nodes s = current_node :: rest →
  (∀ q, q ∈ rest →
     ∃ kc kq, key (store s) current_node = Ok kc ∧
              key (store s) q = Ok kq ∧
              (kc <= kq)%Q ∧ ((kc == kq)%Q → current_node < q)) ∧
  (∀ s', plan_iteration checked_actions (_start_worldstate self') s
         = Ok (Continue s') →
     ∃ new, child_nodes s' ≡ₚ rest ++ new ∧
            new = seq (length (store s)) (length new) ∧
            ∀ q, q ∈ rest → key (store s') q = key (store s) q).
Proof.
  intros Hsetup Hpasses Hchild.
  apply plan_setup_Ok in Hsetup as (_ & _ & _ & _ & Hinv & _).
  apply (loop_inv_passes _ _ _ _ _ Hpasses) in Hinv
    as ([Hwf Hopen Hsorted] & _ & _).
  rewrite Hchild in Hopen, Hsorted.
  apply Forall_cons in Hopen as [Hcurrent Hopen].
  apply StronglySorted_cons in Hsorted as [Hhead _].
  split.
  - intros q Hq. eapply Forall_forall in Hhead; [|done].
    destruct Hhead as (kc & kq & Hkc & Hkq & Hlt).
    exists kc, kq. split_and!; [done..| |].
    + destruct Hlt as [?|[? _]]; lra.
    + intros Heq. destruct Hlt as [?|[_ ?]]; [lra|done].
  - intros s' Hpass.
    apply plan_iteration_Continue in Hpass
      as (current & rest' & n & new & Hchild' & _ & _ & Hn & _ & Hget
          & Hsort).
    rewrite Hchild in Hchild'. simplify_eq.
    apply get_child_nodes_spec with (checked := checked_actions) in Hget
      as (_ & Hext & _ & ->); [|done|apply helpful_actions_checked].
    exists (seq (length (store s))
              (length (_filter_matching_actions (_start_worldstate self')
                         (worldstate n) checked_actions))).
    split_and!.
    + apply py_sorted_Ok in Hsort as (keyed & Hkeyed & ->).
      rewrite sort_by_key_Permutation.
      clear -Hkeyed. induction Hkeyed as [|x kx l l' [_ <-] _ IH]; [done|].
      cbn. by f_equiv.
    + by rewrite length_seq.
    + intros q Hq. eapply key_extends; [done..|].
      by eapply Forall_forall in Hopen.
Qed.


(** C9.  The path cost of a node is its own cost plus the sum of the
    costs of the nodes of its parent list, the goal node costing 0 and every
    other node what its action costs.  For every node of the store [plan]
    returns, and so for the start node of the plan, the parent list is the
    chain of the parent links in reverse, and the path cost is the sum of
    the costs of the actions met on the walk from the node to the goal
    node. *)
Theorem path_cost_sums_action_costs (self : Planner)
    (start_worldstate : option WorldState) (goal : option Goal) (w : World)
    (pr : PlanResult) (r : ref) (n : Node) :
  plan self start_worldstate goal w = Ok pr →
  nodes pr !! r = Some n →
  cost n = match action n with Some a => Action_cost a | None => 0%Q end ∧
  ∃ costs walk,
    Forall2 (λ p c, ∃ pn, nodes pr !! p = Some pn ∧ c = cost pn)
      (parent_nodes_path_list n) costs ∧
    path_cost (nodes pr) n = Ok (cost n + py_sum costs)%Q ∧
    forward_walk (nodes pr) (S (length (parent_nodes_path_list n))) r
    = Ok walk ∧
    walk = r :: reverse (parent_nodes_path_list n) ∧
    (cost n + py_sum costs
     == py_sum (Action_cost <$> walk_actions (nodes pr) walk))%Q.
Proof.
  intros Hplan Hn. split; [done|].
  apply plan_store_wf in Hplan.
  destruct (path_cost_walk _ _ _ _ Hplan Hn) as (costs & Hcosts & Hpc & Hsum).
  exists costs, (r :: reverse (parent_nodes_path_list n)).
  split_and!; [done|done| |done|done].
  by eapply forward_walk_wf.
Qed.

(** C1, as the code has it.  When [plan] returns a node, the start
    worldstate matches the worldstate of that node, and the walk from it
    along the parent links ends, after as many steps as its parent list is
    long, at a node for which [is_goal] is true.  Whether a node is returned
    for a solvable problem is not promised: see the counterexample. *)
Theorem returned_node_walks_to_goal (self : Planner)
    (start_worldstate : option WorldState) (goal : option Goal) (w : World)
    (pr : PlanResult) (r : ref) :
  plan self start_worldstate goal w = Ok pr →
  start_node pr = Some r →
  ∃ n walk g gn,
    nodes pr !! r = Some n ∧
    matches (_start_worldstate (planner pr)) (worldstate n) = true ∧
    forward_walk (nodes pr) (S (length (parent_nodes_path_list n))) r
    = Ok walk ∧
    last walk = Some g ∧
    nodes pr !! g = Some gn ∧
    is_goal gn = true.
Proof.
  intros Hplan Hstart. pose proof (plan_store_wf _ _ _ _ _ Hplan) as Hwf.
  apply plan_Ok in Hplan
    as (checked & s0 & k & s & o & _ & _ & Hexit & Hnodes & Hnode).
  apply plan_iteration_Exit in Hexit. rewrite Hstart in Hnode.
  destruct o as [r' h| |]; [|done..]. cbn in Hnode. simplify_eq.
  destruct Hexit as (_ & _ & rest & n & _ & Hn & Hmatch).
  rewrite <- Hnodes in Hn.
  destruct (walk_ends_at_goal _ _ _ _ Hwf Hn) as (g & gn & Hlast & Hgn & Hg).
  exists n, (r' :: reverse (parent_nodes_path_list n)), g, gn.
  split_and!; [done..| |done|done|done].
  by eapply forward_walk_wf.
Qed.

End planner.

(** ** Calling twice *)

Section twice.
Context `{D : Domain}.

(** A second heuristic computation on a node fails on the assertion. *)
Lemma heuristic_twice_fails (h h' : Heap) (self : ref)
    (start start' : WorldState) :
  _calc_heuristic_distance_for_node self start h = Ok h' →
  _calc_heuristic_distance_for_node self start' h' = Raise AssertionError.
Proof.
  intros Hcalc.
  apply calc_heuristic_Ok in Hcalc as (n & d & Hn & _ & -> & _).
  unfold _calc_heuristic_distance_for_node, deref.
  rewrite list_lookup_insert_eq by by eapply lookup_lt_Some. done.
Qed.

Lemma expand_children (start : WorldState) (actions : list Action)
    (h h' : Heap) (self : ref) (n : Node) :
  h !! self = Some n →
  expand self actions start h = Ok h' →
  ∃ n', h' !! self = Some n' ∧
        length (possible_prev_nodes n')
        = length (possible_prev_nodes n) + length actions.
Proof.
  revert h n. induction actions as [|a actions IH]; intros h n Hn Hexpand.
  { cbn in Hexpand. simplify_eq. exists n. split; [done|]. simpl. lia. }
  cbn [expand] in Hexpand.
  rewrite (proj2 (deref_Ok h self n) Hn) in Hexpand. res_simpl in Hexpand.
  apply bind_Ok in Hexpand as (h2 & Hcalc & Hexpand).
  apply bind_Ok in Hexpand as (n2 & Hn2 & Hexpand).
  apply calc_heuristic_Ok in Hcalc as (new & d & Hnew & _ & -> & _).
  apply deref_Ok in Hn2.
  assert (self < length h) as Hself by by eapply lookup_lt_Some.
  rewrite list_lookup_insert_ne, lookup_app_l in Hn2 by lia. simplify_eq.
  eapply IH in Hexpand as (n' & Hn' & Hlen); last first.
  { apply list_lookup_insert_eq. rewrite length_insert, length_app. lia. }
  exists n'. split; [done|]. rewrite Hlen. cbn. rewrite length_app.
  simpl. lia.
Qed.

(** A second expansion of a node whose first expansion was given at least
    one action fails on the assertion. *)
Lemma get_child_nodes_twice_fails (h h' : Heap) (self : ref)
    (start start' : WorldState) (a : Action) (actions actions' : list Action)
    (new : list ref) :
  get_child_nodes self (a :: actions) start h = Ok (new, h') →
  get_child_nodes self actions' start' h' = Raise AssertionError.
Proof.
  unfold get_child_nodes. intros Hget.
  apply bind_Ok in Hget as (n & Hn & Hget). apply deref_Ok in Hn.
  case_bool_decide; [|done].
  apply bind_Ok in Hget as (h1 & Hexpand & Hget).
  apply bind_Ok in Hget as (n' & Hn' & Hget). simplify_eq.
  apply (expand_children _ _ _ _ _ _ Hn) in Hexpand as (n1 & Hn1 & Hlen).
  rewrite (proj2 (deref_Ok _ _ _) Hn1). res_simpl.
  rewrite bool_decide_eq_false_2; [done|]. cbn [length] in Hlen. lia.
Qed.

(** C5, where the code departs from it.  The assertion of
    [get_child_nodes] looks at the list of children, not at whether the node
    was expanded before: an expansion over no actions leaves the list empty
    and the store as it was, and a second expansion of the same node passes
    the assertion and returns. *)
Theorem get_child_nodes_twice_without_children (h : Heap) (self : ref)
    (n : Node) (start1 start2 : WorldState) :
  h !! self = Some n →
  possible_prev_nodes n = [] →
  ∃ h1,
    get_child_nodes self [] start1 h = Ok ([], h1) ∧
    get_child_nodes self [] start2 h1 = Ok ([], h1).
Proof.
  intros Hn Hnil. exists h. unfold get_child_nodes. cbn [expand].
  rewrite (proj2 (deref_Ok _ _ _) Hn). res_simpl.
  rewrite Hnil. cbn. rewrite (proj2 (deref_Ok _ _ _) Hn). res_simpl.
  by rewrite Hnil.
Qed.

End twice.

(** ** The properties at work *)

Section examples.
Import Model.

(** *** The heuristic *)

(** The battery at 5 on its way from 0 to 10: the heuristic is a half, which
    is below the one condition that differs. *)
Lemma heuristic_at_most_unsatisfied_count_witness :
  ∃ n' d,
    charge_store' !! 1 = Some n' ∧
    worldstate n' = worldstate charge_node ∧
    heuristic_distance n' = Some d ∧
    (d <= py_len (get_unsatisfied_conditions (worldstate charge_node)
                    charge_start))%Q.
Proof.
  apply (heuristic_at_most_unsatisfied_count charge_store charge_store' 1
           charge_node charge_start); [reflexivity|reflexivity|].
  apply res_get_Ok. vm_compute. reflexivity.
Defined.

Example heuristic_of_charge_node :
  heuristic_distance <$> charge_store' = [Some 1%Q; Some (5 # 10)%Q].
Proof. vm_compute. reflexivity. Qed.


(** The planner meets that node in its first pass: the problem is solved by
    turning the light on, working and turning it off, and [plan] raises. *)
Example light_plan_raises :
  solvable (_actions light_planner) light_start light_goal ∧
  start_node <$> plan light_planner None None light_start
  = Raise ZeroDivisionError.
Proof.
  split; [|vm_compute; reflexivity].
  exists [TurnOn; Work; TurnOff],
    (foldl assign (foldl assign (foldl assign light_start (effects TurnOn))
                     (effects Work)) (effects TurnOff)).
  split_and!; [|reflexivity|vm_compute; reflexivity].
  repeat constructor; set_solver.
Qed.

(** The goal node of the light has no children yet: expanding it over no
    actions can be done twice. *)
Lemma get_child_nodes_twice_without_children_witness :
  ∃ h1,
    get_child_nodes 0 [] light_start light_store = Ok ([], h1) ∧
    get_child_nodes 0 [] light_start h1 = Ok ([], h1).
Proof.
  apply (get_child_nodes_twice_without_children light_store 0
           light_goal_node light_start light_start); reflexivity.
Defined.

(** *** The planner on the door *)

Lemma door_result_Ok :
  plan door_planner None None door_start = Ok door_result.
Proof. apply res_get_Ok. vm_compute. reflexivity. Qed.

(** The scenario of the specification: walk to the door, then open it, at a
    path cost of 2. *)
Example door_plan :
  start_node door_result = Some 2 ∧
  name <$> walk_actions (nodes door_result) [2; 1; 0]
  = ["WalkToDoor"; "OpenDoor"] ∧
  path_cost (nodes door_result) walk_node = Ok 2%Q.
Proof. vm_compute. done. Qed.

(** With the alarm on, [KickDoor] fails its context check; it would open
    the door in one step, and is the action of no node. *)
Lemma unchecked_action_in_no_node_witness :
  check_freeform_context KickDoor door_start = false ∧
  (λ n : Node, name <$> action n) <$> nodes door_result
  = [None; Some "OpenDoor"; Some "WalkToDoor"] ∧
  check_freeform_context OpenDoor door_start = true ∧
  OpenDoor ∈ _actions door_planner.
Proof.
  split; [reflexivity|]. split; [vm_compute; reflexivity|].
  apply (unchecked_action_in_no_node door_planner None None door_start
           (nodes door_result) 1 open_node OpenDoor).
  - apply plan_run_store, door_result_Ok.
  - apply list_lookup_lookup_total_lt. vm_compute. lia.
  - vm_compute. reflexivity.
Defined.

(** The start node of the plan for the door: its path cost is the sum over
    the walk through the node of [OpenDoor] to the goal node. *)
Lemma path_cost_sums_action_costs_witness :
  cost walk_node
  = match action walk_node with
    | Some a => Action_cost a
    | None => 0%Q
    end ∧
  ∃ costs walk,
    Forall2 (λ p c, ∃ pn, nodes door_result !! p = Some pn ∧ c = cost pn)
      (parent_nodes_path_list walk_node) costs ∧
    path_cost (nodes door_result) walk_node
    = Ok (cost walk_node + py_sum costs)%Q ∧
    forward_walk (nodes door_result)
      (S (length (parent_nodes_path_list walk_node))) 2
    = Ok walk ∧
    walk = 2 :: reverse (parent_nodes_path_list walk_node) ∧
    (cost walk_node + py_sum costs
     == py_sum (Action_cost <$> walk_actions (nodes door_result) walk))%Q.
Proof.
  apply (path_cost_sums_action_costs door_planner None None door_start
           door_result 2 walk_node).
  - apply door_result_Ok.
  - apply list_lookup_lookup_total_lt. vm_compute. lia.
Defined.

(** The plan for the door starts at node 2, and the walk from there ends at
    the goal node. *)
Lemma returned_node_walks_to_goal_witness :
  ∃ n walk g gn,
    nodes door_result !! 2 = Some n ∧
    matches (_start_worldstate (planner door_result)) (worldstate n) = true ∧
    forward_walk (nodes door_result)
      (S (length (parent_nodes_path_list n))) 2 = Ok walk ∧
    last walk = Some g ∧
    nodes door_result !! g = Some gn ∧
    is_goal gn = true.
Proof.
  apply (returned_node_walks_to_goal door_planner None None door_start
           door_result 2).
  - apply door_result_Ok.
  - vm_compute. reflexivity.
Defined.

(** *** The planner loop *)

Lemma maze_setup_Ok :
  plan_setup maze_planner None None maze_start
  = Ok (maze_setup.1.1, maze_setup.1.2, maze_setup.2).
Proof.
  rewrite <- !surjective_pairing. apply res_get_Ok. vm_compute. reflexivity.
Qed.

Lemma maze_first_pass :
  passes maze_setup.1.2 (_start_worldstate maze_setup.1.1) 1
    maze_setup.2 maze_pass1.
Proof.
  eapply passes_S; [|apply passes_O].
  apply next_state_Continue. vm_compute. reflexivity.
Qed.

(** After the first pass of the maze the 23 nodes of the cheap actions, all
    of total cost 2, stand in the order of their creation, before the node
    of the expensive action, which was created first. *)
Lemma lowest_total_cost_popped_first_witness :
  child_nodes maze_pass1 = 2 :: seq 3 22 ++ [1] ∧
  (∀ q, q ∈ seq 3 22 ++ [1] →
     ∃ kc kq, key (store maze_pass1) 2 = Ok kc ∧
              key (store maze_pass1) q = Ok kq ∧
              (kc <= kq)%Q ∧ ((kc == kq)%Q → 2 < q)) ∧
  (∀ s', plan_iteration maze_setup.1.2 (_start_worldstate maze_setup.1.1)
           maze_pass1 = Ok (Continue s') →
     ∃ new, child_nodes s' ≡ₚ (seq 3 22 ++ [1]) ++ new ∧
            new = seq (length (store maze_pass1)) (length new) ∧
            ∀ q, q ∈ seq 3 22 ++ [1] →
                 key (store s') q = key (store maze_pass1) q).
Proof.
  assert (child_nodes maze_pass1 = 2 :: seq 3 22 ++ [1]) as Hchild
    by (vm_compute; reflexivity).
  split; [exact Hchild|].
  exact (lowest_total_cost_popped_first maze_planner maze_setup.1.1 None None
           maze_start maze_setup.1.2 maze_setup.2 maze_pass1 1 2
           (seq 3 22 ++ [1]) maze_setup_Ok maze_first_pass Hchild).
Defined.

Example maze_keys :
  res_mapM (key (store maze_pass1)) [2; 3; 24; 1]
  = Ok [2%Q; 2%Q; 2%Q; 1000%Q].
Proof. vm_compute. reflexivity. Qed.




(** C1, where the code departs from it.  The maze is solvable, by the one
    action [Reach], and its effect chains are acyclic and have at most two
    actions; but the 23 and 23 times 23 nodes of the cheap dead ends come
    before the node of [Reach] in the open collection, and the loop limit is
    hit before that node is looked at: [plan] returns [None]. *)
Lemma solvable_problem_without_plan :
  solvable maze_catalog maze_start maze_goal ∧
  chains_shorter_than loop_limit maze_catalog ∧
  start_node <$> plan maze_planner None None maze_start = Ok None.
Proof.
  split_and!.
  - exists [Reach], (foldl assign maze_start (effects Reach)).
    split_and!; [|reflexivity|vm_compute; reflexivity].
    constructor; [|constructor]. apply list_elem_of_here.
  - exists maze_rank. split.
    + intros a _. unfold maze_rank, loop_limit. case_bool_decide; lia.
    + assert (∀ a, a ∈ maze_catalog →
                a = Reach ∨ (∃ i, a = decoy1 i) ∨ (∃ i, a = decoy2 i))
        as Hcases.
      { intros a Ha. unfold maze_catalog in Ha.
        apply elem_of_cons in Ha as [->|Ha]; [by left|].
        apply elem_of_app in Ha as [Ha|Ha];
          apply list_elem_of_fmap in Ha as (i & -> & _); eauto. }
      intros a b Ha Hb.
      destruct (Hcases a Ha) as [->|[[i ->]|[i ->]]],
        (Hcases b Hb) as [->|[[j ->]|[j ->]]];
        vm_compute; intros; (discriminate || lia).
  - vm_compute. reflexivity.
Qed.

(** *** The executor *)

Lemma kick_result_Ok :
  plan door_planner (Some quiet_world) None quiet_world = Ok kick_result.
Proof. apply res_get_Ok. vm_compute. reflexivity. Qed.

(** Kicking the door was planned while the alarm was off; with the alarm
    on, the context check fails and nothing is run. *)
Lemma execute_aborts_on_failed_check_witness :
  start_node kick_result = Some 1 ∧
  execute 10 1 false (mkExecState (nodes kick_result) door_start [])
  = Ok (false, kick_execution.2) ∧
  log kick_execution.2 !! 1 = Some (EvCheckContext KickDoor false) ∧
  false = false ∧ length (log kick_execution.2) = 2.
Proof.
  assert (execute 10 1 false (mkExecState (nodes kick_result) door_start [])
          = Ok (false, kick_execution.2)) as Hexec.
  { apply res_get_Ok_pair; vm_compute; reflexivity. }
  assert (log kick_execution.2 !! 1 = Some (EvCheckContext KickDoor false))
    as Hlog by (vm_compute; reflexivity).
  split; [vm_compute; reflexivity|]. split; [exact Hexec|].
  split; [exact Hlog|].
  exact (execute_aborts_on_failed_check 10 1 false _ _ false 1 _ Hexec Hlog
           eq_refl).
Defined.

Example kick_execution_log :
  show <$> log kick_execution.2
  = [SIsValid "KickDoor" [] true; SCheckContext "KickDoor" false].
Proof. vm_compute. reflexivity. Qed.

(** The plan made at the door, executed at the door: the first call
    validates [OpenDoor] against the worldstate of its node. *)
Lemma execute_validates_stored_worldstate_witness :
  ∃ evs,
    log at_door_execution.2
    = EvIsValid OpenDoor (worldstate at_door_node) true
      :: evs.
Proof.
  assert (execute 10 1 false
            (mkExecState (nodes at_door_result) at_door_start [])
          = Ok (true, at_door_execution.2)) as Hexec.
  { apply res_get_Ok_pair; vm_compute; reflexivity. }
  assert (nodes at_door_result !! 1 = Some at_door_node)
    as Hn.
  { apply list_lookup_lookup_total_lt. vm_compute. lia. }
  assert (action at_door_node = Some OpenDoor) as Ha
    by (vm_compute; reflexivity).
  assert (is_valid OpenDoor (worldstate at_door_node) = true)
    as Hvalid by (vm_compute; reflexivity).
  destruct (execute_validates_stored_worldstate 10 1 false _ _ true _ _
              Hexec Hn Ha) as (evs & Hlog & _).
  exists evs. rewrite Hvalid in Hlog. exact Hlog.
Defined.

(** C3, where the code departs from it.  The plan was made while the agent
    stood at the door, and the node of [OpenDoor] records [at_door] as true.
    When the plan is executed the agent has moved away: in the live
    worldstate the precondition of [OpenDoor] does not hold.  The executor
    validates the action against the worldstate of the node, finds it valid,
    and runs it. *)
Lemma execute_ignores_live_worldstate :
  start_node at_door_result = Some 1 ∧
  drifted_world !! "at_door" = Some (VBool false) ∧
  is_valid OpenDoor drifted_world = false ∧
  execute 10 1 false (mkExecState (nodes at_door_result) drifted_world [])
  = Ok (true, drifted_execution.2) ∧
  show <$> log drifted_execution.2
  = [SIsValid "OpenDoor" [("at_door", VBool true)] true;
     SCheckContext "OpenDoor" true;
     SRun "OpenDoor" [("door", VStr "open")]].
Proof.
  split_and!; [vm_compute; reflexivity..| |vm_compute; reflexivity].
  apply res_get_Ok_pair; vm_compute; reflexivity.
Qed.

End examples.
(** * More of the heuristic *)


Lemma py_len_nonneg {A} (l : list A) : (0 <= py_len l)%Q.
Proof.
  unfold py_len. change 0%Q with (inject_Z 0). rewrite <- Zle_Qle. lia.
Qed.

Lemma py_len_zero {A} (l : list A) : (py_len l == 0)%Q ↔ l = [].
Proof.
  unfold py_len. change 0%Q with (inject_Z 0). rewrite inject_Z_injective.
  destruct l; simpl; split; (done || lia).
Qed.

Lemma py_len_pos {A} (l : list A) : l ≠ [] → (1 <= py_len l)%Q.
Proof.
  intros Hl. unfold py_len. change 1%Q with (inject_Z 1).
  rewrite <- Zle_Qle. destruct l; [done|]. simpl. lia.
Qed.

Section heuristic_more.
Context `{D : Domain}.

(** What the arithmetic on one condition gives when it returns: a positive
    number, the assertion having passed. *)
Lemma relative_distance_Ok (vg vn vs : Value) (r : Q) :
  relative_distance vg vn vs = Ok r →
  ∃ qg qn qs,
    as_number vg = Some qg ∧ as_number vn = Some qn ∧
    as_number vs = Some qs ∧ ¬ (qg == qs)%Q ∧
    r = (Qabs (qn - qs) / Qabs (qg - qs))%Q ∧ (0 < r)%Q.
Proof.
  unfold relative_distance, py_sub, py_truediv. intros Hrel.
  destruct (as_number vg) as [qg|], (as_number vs) as [qs|]; try done.
  destruct (as_number vn) as [qn|]; try done.
  res_simpl in Hrel.
  destruct (Qeq_bool (Qabs (qg - qs)) 0) eqn:Hzero; [done|].
  res_simpl in Hrel.
  destruct (Qltb 0 _) eqn:Hpos; [|done]. simplify_eq.
  exists qg, qn, qs. split_and!; [done..| |done|by apply Qltb_lt].
  intros Heq. apply Qeq_bool_neq in Hzero. apply Hzero, Qabs_zero_iff. lra.
Qed.

Lemma condition_distance_Ok (gws nws sws : WorldState) (c : Condition)
    (d : Q) :
  condition_distance gws nws sws c = Ok d →
  (0 < d)%Q ∧
  (is_Some (gws !! c) → is_Some (nws !! c) ∧ is_Some (sws !! c)).
Proof.
  unfold condition_distance, get_condition_value. intros Hcond.
  destruct (gws !! c) as [vg|]; last first.
  { simplify_eq. split; [lra|]. by intros [? [=]]. }
  destruct (nws !! c) as [vn|]; [|done].
  destruct (sws !! c) as [vs|]; [|done].
  res_simpl in Hcond. split; [|by eauto].
  destruct (relative_distance vg vn vs) as [r|e] eqn:Hrel.
  - simplify_eq.
    by apply relative_distance_Ok in Hrel as (?&?&?&?&?&?&?&?&?).
  - destruct e; simplify_eq. lra.
Qed.

Lemma sum_distances_Ok (gws nws sws : WorldState) (l : list Condition)
    (acc t : Q) :
  sum_distances gws nws sws l acc = Ok t →
  (acc <= t)%Q ∧ (l ≠ [] → (acc < t)%Q) ∧
  Forall (λ c, ∃ d, condition_distance gws nws sws c = Ok d) l.
Proof.
  revert acc. induction l as [|c l IH]; intros acc Hsum.
  { cbn in Hsum. simplify_eq. split_and!; [lra|done|constructor]. }
  cbn [sum_distances] in Hsum.
  apply bind_Ok in Hsum as (d & Hd & Hsum).
  destruct (IH _ Hsum) as (Hle & _ & Hall).
  pose proof (condition_distance_Ok _ _ _ _ _ Hd) as [Hpos _].
  split_and!; [lra|intros _; lra|]. constructor; [by exists d|done].
Qed.


(** What a heuristic computation that returns has gone through. *)
Lemma calc_heuristic_inv (h h' : Heap) (self : ref) (start : WorldState) :
  _calc_heuristic_distance_for_node self start h = Ok h' →
  ∃ n d,
    h !! self = Some n ∧ heuristic_distance n = None ∧
    h' = <[self := set_heuristic_distance n d]> h ∧
    let l := get_unsatisfied_conditions (worldstate n) start in
    if is_goal n then d = py_len l
    else ∃ g gn total,
      head (parent_nodes_path_list n) = Some g ∧ h !! g = Some gn ∧
      sum_distances (worldstate gn) (worldstate n) start l 0 = Ok total ∧
      d = py_min (py_len l) total.
Proof.
  unfold _calc_heuristic_distance_for_node. intros Hcalc.
  apply bind_Ok in Hcalc as (n & Hn & Hcalc). apply deref_Ok in Hn.
  destruct (heuristic_distance n) eqn:Hhd; [done|].
  apply bind_Ok in Hcalc as (d & Hd & Hcalc). simplify_eq.
  exists n, d. split_and!; [done..|]. cbn zeta.
  destruct (is_goal n); [by simplify_eq|].
  apply bind_Ok in Hd as (g & Hg & Hd).
  apply bind_Ok in Hd as (gn & Hgn & Hd).
  apply bind_Ok in Hd as (total & Htotal & Hd). simplify_eq.
  apply deref_Ok in Hgn.
  destruct (head (parent_nodes_path_list n)) as [g'|]; [|done].
  cbn in Hg. simplify_eq. by exists g, gn, total.
Qed.

(** The heuristic of a goal node cannot fail. *)
Lemma calc_heuristic_goal (h : Heap) (self : ref) (n : Node)
    (start : WorldState) :
  h !! self = Some n →
  is_goal n = true →
  heuristic_distance n = None →
  _calc_heuristic_distance_for_node self start h
  = Ok (<[self := set_heuristic_distance n
                    (py_len (get_unsatisfied_conditions (worldstate n)
                               start))]> h).
Proof.
  intros Hn Hgoal Hhd. unfold _calc_heuristic_distance_for_node.
  rewrite (proj2 (deref_Ok _ _ _) Hn). res_simpl.
  by rewrite Hhd, Hgoal.
Qed.

(** The bounds of a heuristic that was computed. *)
Lemma heuristic_bounds (h h' : Heap) (self : ref) (start : WorldState) :
  _calc_heuristic_distance_for_node self start h = Ok h' →
  ∃ n d,
    h !! self = Some n ∧ heuristic_distance n = None ∧
    h' = <[self := set_heuristic_distance n d]> h ∧
    (0 <= d)%Q ∧
    (d <= py_len (get_unsatisfied_conditions (worldstate n) start))%Q ∧
    ((d == 0)%Q ↔ get_unsatisfied_conditions (worldstate n) start = []).
Proof.
  intros Hcalc.
  apply calc_heuristic_inv in Hcalc as (n & d & Hn & Hhd & -> & Hd).
  cbn zeta in Hd. exists n, d. split_and!; [done..| | |].
  all: set (l := get_unsatisfied_conditions _ _) in *.
  all: pose proof (py_len_nonneg l) as Hlen.
  all: destruct (is_goal n);
    [subst d|destruct Hd as (g & gn & total & _ & _ & Hsum & ->);
             apply sum_distances_Ok in Hsum as (Hle & Hlt & _)].
  - done.
  - unfold py_min. by destruct (Qltb total (py_len l)).
  - lra.
  - apply py_min_le_l.
  - apply py_len_zero.
  - unfold py_min. destruct (Qltb total (py_len l)) eqn:Hmin.
    + split.
      * intros Hzero. destruct l; [done|]. specialize (Hlt ltac:(done)). lra.
      * intros Hl. rewrite Hl in Hmin. apply Qltb_lt in Hmin.
        change (py_len []) with 0%Q in Hmin. lra.
    + apply py_len_zero.
Qed.

(** X1.  A heuristic that was computed is not negative, and it is zero
    exactly when the worldstate of the node and the start worldstate
    disagree on no condition: every condition that differs adds a positive
    amount. *)
Theorem heuristic_zero_iff_nothing_unsatisfied (h h' : Heap) (self : ref)
    (n : Node) (start_worldstate : WorldState) :
  h !! self = Some n →
  _calc_heuristic_distance_for_node self start_worldstate h = Ok h' →
  ∃ n' d,
    h' !! self = Some n' ∧ heuristic_distance n' = Some d ∧
    (0 <= d)%Q ∧
    ((d == 0)%Q ↔
     get_unsatisfied_conditions (worldstate n) start_worldstate = []).
Proof.
  intros Hn Hcalc.
  apply heuristic_bounds in Hcalc as (n0 & d & Hn0 & _ & -> & Hpos & _ & Hz).
  simplify_eq. exists (set_heuristic_distance n d), d.
  split; [apply list_lookup_insert_eq; by eapply lookup_lt_Some|done].
Qed.


(** X3.  When every condition that differs is either unknown to the goal
    worldstate or has a value that is not a number, each gets the default
    distance, and the heuristic of the node is exactly the number of
    differing conditions. *)
Theorem heuristic_is_count_on_defaults (h : Heap) (self g : ref)
    (n gn : Node) (start_worldstate : WorldState) :
  h !! self = Some n →
  heuristic_distance n = None →
  is_goal n = false →
  head (parent_nodes_path_list n) = Some g →
  h !! g = Some gn →
  Forall (λ c,
            worldstate gn !! c = None ∨
            ∃ vg vn vs,
              worldstate gn !! c = Some vg ∧ worldstate n !! c = Some vn ∧
              start_worldstate !! c = Some vs ∧
              (as_number vg = None ∨ as_number vn = None
               ∨ as_number vs = None))
    (get_unsatisfied_conditions (worldstate n) start_worldstate) →
  _calc_heuristic_distance_for_node self start_worldstate h
  = Ok (<[self := set_heuristic_distance n
                    (py_len (get_unsatisfied_conditions (worldstate n)
                               start_worldstate))]> h).
Proof.
  intros Hn Hhd Hgoal Hg Hgn Hall.
  unfold _calc_heuristic_distance_for_node.
  rewrite (proj2 (deref_Ok _ _ _) Hn). res_simpl.
  rewrite Hhd, Hgoal, Hg. res_simpl.
  rewrite (proj2 (deref_Ok _ _ _) Hgn). res_simpl.
  set (l := get_unsatisfied_conditions _ _) in *.
  assert (∀ acc, ∃ total,
            sum_distances (worldstate gn) (worldstate n) start_worldstate l
              acc = Ok total ∧ (total == acc + py_len l)%Q)
    as Hsum.
  { clear -Hall. induction Hall as [|c l Hc _ IH]; intros acc.
    { exists acc. split; [done|]. change (py_len []) with 0%Q. ring. }
    cbn [sum_distances].
    assert (condition_distance (worldstate gn) (worldstate n)
              start_worldstate c = Ok 1%Q) as ->.
    { unfold condition_distance, get_condition_value.
      destruct Hc as [->|(vg & vn & vs & -> & -> & -> & Hnum)]; [done|].
      res_simpl. by rewrite (proj2 (relative_distance_TypeError vg vn vs)). }
    res_simpl. destruct (IH (acc + 1)%Q) as (total & -> & Htotal).
    exists total. split; [done|]. rewrite Htotal.
    unfold py_len. cbn [length]. rewrite Nat2Z.inj_succ, <- Z.add_1_l.
    rewrite inject_Z_plus. change (inject_Z 1) with 1%Q. ring. }
  destruct (Hsum 0%Q) as (total & -> & Htotal). res_simpl.
  unfold py_min. rewrite (proj2 (Qltb_ge total (py_len l))); [done|].
  rewrite Htotal. lra.
Qed.

(** X4.  A heuristic computation that returns has found, for every
    differing condition the goal worldstate knows, a value in the worldstate
    of the node and in the start worldstate: a missing one is a [KeyError]
    that is not caught. *)
Theorem heuristic_needs_known_conditions (h h' : Heap) (self g : ref)
    (n gn : Node) (start_worldstate : WorldState) (c : Condition) :
  h !! self = Some n →
  is_goal n = false →
  head (parent_nodes_path_list n) = Some g →
  h !! g = Some gn →
  _calc_heuristic_distance_for_node self start_worldstate h = Ok h' →
  c ∈ get_unsatisfied_conditions (worldstate n) start_worldstate →
  is_Some (worldstate gn !! c) →
  is_Some (worldstate n !! c) ∧ is_Some (start_worldstate !! c).
Proof.
  intros Hn Hgoal Hg Hgn Hcalc Hc Hknown.
  apply calc_heuristic_inv in Hcalc as (n0 & d & Hn0 & _ & _ & Hd).
  simplify_eq. cbn zeta in Hd. rewrite Hgoal in Hd.
  destruct Hd as (g' & gn' & total & Hg' & Hgn' & Hsum & _). simplify_eq.
  apply sum_distances_Ok in Hsum as (_ & _ & Hall).
  eapply Forall_forall in Hall as [d' Hd']; [|done].
  by apply condition_distance_Ok in Hd' as [_ Hpresent]; apply Hpresent.
Qed.

End heuristic_more.

(** * More of the expansion *)

Section expansion_more.
Context `{D : Domain}.

(** What the loop of [get_child_nodes] has done when it returns. *)
Lemma expand_inv (start : WorldState) (actions : list Action)
    (h h' : Heap) (self : ref) (n : Node) :
  h !! self = Some n →
  expand self actions start h = Ok h' →
  length h' = length h + length actions ∧
  h' !! self = Some (set_possible_prev_nodes n
                       (possible_prev_nodes n
                        ++ seq (length h) (length actions))) ∧
  (∀ r, r ≠ self → r < length h → h' !! r = h !! r) ∧
  (∀ i a, actions !! i = Some a →
     ∃ d, h' !! (length h + i) = Some (child_of self n a start d) ∧
          (0 <= d)%Q ∧
          (d <= py_len (get_unsatisfied_conditions
                          (Action_apply_preconditions a (worldstate n) start)
                          start))%Q).
Proof.
  revert h n. induction actions as [|a actions IH]; intros h n Hn Hexpand.
  { cbn in Hexpand. simplify_eq. split_and!; [simpl; lia| |done|done].
    by rewrite app_nil_r, set_possible_prev_nodes_id. }
  cbn [expand] in Hexpand.
  rewrite (proj2 (deref_Ok h self n) Hn) in Hexpand. res_simpl in Hexpand.
  apply bind_Ok in Hexpand as (h2 & Hcalc & Hexpand).
  apply bind_Ok in Hexpand as (n2 & Hn2 & Hexpand).
  apply heuristic_bounds in Hcalc
    as (new & d & Hnew & _ & -> & Hpos & Hle & _).
  rewrite list_lookup_middle in Hnew by done. simplify_eq.
  apply deref_Ok in Hn2.
  assert (self < length h) as Hself by by eapply lookup_lt_Some.
  rewrite list_lookup_insert_ne, lookup_app_l in Hn2 by lia. simplify_eq.
  set (n3 := set_possible_prev_nodes n _) in *.
  set (h3 := <[self := n3]> _) in *.
  assert (length h3 = S (length h)) as Hlen.
  { subst h3. rewrite !length_insert, length_app. simpl. lia. }
  assert (h3 !! self = Some n3) as Hself3.
  { subst h3. apply list_lookup_insert_eq.
    rewrite length_insert, length_app. simpl. lia. }
  assert (h3 !! length h = Some (child_of self n a start d)) as Hnew.
  { subst h3. rewrite list_lookup_insert_ne by lia.
    apply list_lookup_insert_eq. rewrite length_app. simpl. lia. }
  assert (∀ r, r ≠ self → r < length h → h3 !! r = h !! r) as Hold.
  { intros r Hne Hr. subst h3.
    rewrite !list_lookup_insert_ne by lia. by apply lookup_app_l. }
  destruct (IH _ _ Hself3 Hexpand) as (Hlen' & Hself' & Hframe & Hchildren).
  split_and!.
  - simpl. lia.
  - rewrite Hself'. subst n3. cbn. rewrite Hlen, <- (assoc_L (++)). done.
  - intros r Hne Hr. rewrite Hframe by lia. by apply Hold.
  - intros [|i] a' Ha'.
    + cbn in Ha'. simplify_eq. exists d. rewrite Nat.add_0_r.
      rewrite Hframe by lia. done.
    + cbn in Ha'. destruct (Hchildren _ _ Ha') as (d' & Hd' & Hbounds).
      exists d'. rewrite Hlen in Hd'.
      replace (length h + S i) with (S (length h) + i) by lia. done.
Qed.

Lemma get_child_nodes_children_aux (h h' : Heap) (self : ref) (n : Node)
    (actions : list Action) (start : WorldState) (new : list ref) :
  h !! self = Some n →
  get_child_nodes self actions start h = Ok (new, h') →
  new = seq (length h) (length actions) ∧
  length h' = length h + length actions ∧
  h' !! self = Some (set_possible_prev_nodes n new) ∧
  (∀ r, r ≠ self → r < length h → h' !! r = h !! r) ∧
  (∀ i a, actions !! i = Some a →
     ∃ d, h' !! (length h + i) = Some (child_of self n a start d) ∧
          (0 <= d)%Q ∧
          (d <= py_len (get_unsatisfied_conditions
                          (Action_apply_preconditions a (worldstate n) start)
                          start))%Q).
Proof.
  intros Hn Hget. unfold get_child_nodes in Hget.
  rewrite (proj2 (deref_Ok _ _ _) Hn) in Hget. res_simpl in Hget.
  case_bool_decide as Hnil; [|done]. apply nil_length_inv in Hnil.
  apply bind_Ok in Hget as (h1 & Hexpand & Hget).
  apply bind_Ok in Hget as (n' & Hn' & Hget). apply deref_Ok in Hn'.
  destruct (expand_inv _ _ _ _ _ _ Hn Hexpand)
    as (Hlen & Hself & Hframe & Hchildren).
  rewrite Hn' in Hself. simplify_eq. rewrite Hnil in *.
  split_and!; [done..| | |]; done.
Qed.

(** X5.  [get_child_nodes], called on a node, returns one new node for
    each action, in the order of the actions and as the last nodes of the
    store.  The child for an action carries that action, the worldstate the
    action made of a copy of the worldstate of the node, the parent lists of
    the node extended by the node and by the action, no children, and a
    heuristic between 0 and the number of its unsatisfied conditions.  The
    node itself gets the list of the children and keeps its worldstate, and
    no other node is changed. *)
Theorem get_child_nodes_builds_children (h h' : Heap) (self : ref)
    (n : Node) (actions : list Action) (start_worldstate : WorldState)
    (new : list ref) :
  h !! self = Some n →
  get_child_nodes self actions start_worldstate h = Ok (new, h') →
  new = seq (length h) (length actions) ∧
  length h' = length h + length actions ∧
  h' !! self = Some (set_possible_prev_nodes n new) ∧
  (∀ r, r ≠ self → r < length h → h' !! r = h !! r) ∧
  (∀ i a, actions !! i = Some a →
     ∃ d, h' !! (length h + i)
          = Some (child_of self n a start_worldstate d) ∧
          (0 <= d)%Q ∧
          (d <= py_len (get_unsatisfied_conditions
                          (Action_apply_preconditions a (worldstate n)
                             start_worldstate) start_worldstate))%Q).
Proof. apply get_child_nodes_children_aux. Qed.

End expansion_more.

(** * More of the search tree *)

Lemma py_sorted_Permutation {A} (f : A → res Q) (l l' : list A) :
  py_sorted f l = Ok l' → l' ≡ₚ l.
Proof.
  intros Hsort. apply py_sorted_Ok in Hsort as (keyed & Hkeyed & ->).
  rewrite sort_by_key_Permutation.
  induction Hkeyed as [|x kx l l' [_ <-] _ IH]; [done|].
  cbn. by f_equiv.
Qed.

Section tree.
Context `{D : Domain}.

Lemma walk_actions_ext (h h' : Heap) (l : list ref) :
  Forall (λ c, h' !! c ≫= action = h !! c ≫= action) l →
  walk_actions h' l = walk_actions h l.
Proof.
  unfold walk_actions. induction 1 as [|c l Hc _ IH]; [done|].
  cbn. by rewrite Hc, IH.
Qed.

Lemma walk_actions_seq (h : Heap) (j : nat) (actions : list Action) :
  (∀ i a, actions !! i = Some a → h !! (j + i) ≫= action = Some a) →
  walk_actions h (seq j (length actions)) = actions.
Proof.
  revert j. induction actions as [|a actions IH]; intros j Hall; [done|].
  cbn [length seq].
  pose proof (Hall 0 a eq_refl) as Ha. rewrite Nat.add_0_r in Ha.
  destruct (h !! j) as [n|] eqn:Hn; [|done]. cbn in Ha.
  rewrite (walk_actions_cons _ _ _ _ Hn), Ha. f_equal. apply IH.
  intros i a' Ha'.
  replace (S j + i) with (j + S i) by lia. by apply Hall.
Qed.

(** One pass of the loop on a store with [heap_built]. *)
Lemma open_inv_pass (checked : list Action) (start : WorldState)
    (s s' : LoopState) :
  loop_inv checked s → open_inv checked start s →
  plan_iteration checked start s = Ok (Continue s') →
  open_inv checked start s'.
Proof.
  intros [Hwf Hbelow _] [Hbuilt Hunexp Hnodup Hclosed Hcount] Hpass.
  apply plan_iteration_Continue in Hpass
    as (current & rest & n & new & Hchild & _ & Hloopcount & Hn & Hmatch
        & Hget & Hsort).
  rewrite Hchild in Hbelow, Hunexp, Hnodup, Hclosed, Hcount.
  apply Forall_cons in Hbelow as [Hcurrent Hbelow].
  apply Forall_cons in Hunexp as [(n0 & Hn0 & Hnil) Hunexp].
  apply NoDup_cons in Hnodup as [Hfresh Hnodup].
  rewrite Hn in Hn0. injection Hn0 as <-.
  set (h := store s) in *. set (h' := store s') in *.
  set (actions := _filter_matching_actions start (worldstate n) checked) in *.
  destruct (get_child_nodes_children_aux _ _ _ _ _ _ _ Hn Hget)
    as (-> & Hlen & Hself & Hframe & Hchildren).
  apply py_sorted_Permutation in Hsort as Hperm.
  assert (∀ r nr, h !! r = Some nr →
            ∃ l, h' !! r = Some (set_possible_prev_nodes nr l) ∧
                 (r ≠ current → l = possible_prev_nodes nr) ∧
                 (r = current → l = seq (length h) (length actions)))
    as Hold.
  { intros r nr Hr. destruct (decide (r = current)) as [->|Hne].
    - simplify_eq. by eexists.
    - exists (possible_prev_nodes nr).
      rewrite Hframe, Hr, set_possible_prev_nodes_id;
        [done|done|by eapply lookup_lt_Some]. }
  assert (∀ r nr', h' !! r = Some nr' → length h ≤ r →
            ∃ i a d, r = length h + i ∧ actions !! i = Some a ∧
                     nr' = child_of current n a start d ∧
                     (0 <= d)%Q ∧
                     (d <= py_len (get_unsatisfied_conditions
                                     (worldstate nr') start))%Q)
    as Hnew.
  { intros r nr' Hr Hge. apply lookup_lt_Some in Hr as Hlt.
    destruct (lookup_lt_is_Some_2 actions (r - length h)) as [a Ha]; [lia|].
    destruct (Hchildren _ _ Ha) as (d & Hd & Hbounds).
    replace (length h + (r - length h)) with r in Hd by lia.
    simplify_eq. exists (r - length h), a, d.
    split_and!; [lia|done|done|apply Hbounds..]. }
  assert (∀ c cn, h' !! c = Some cn → c < length h →
            ∃ cn0, h !! c = Some cn0 ∧
                   parent_nodes_path_list cn = parent_nodes_path_list cn0)
    as Hback.
  { intros c cn Hc Hlt.
    destruct (lookup_lt_is_Some_2 h c Hlt) as [cn0 Hcn0].
    destruct (Hold _ _ Hcn0) as (l & Hc' & _). simplify_eq.
    by exists cn0. }
  assert (walk_actions h' (seq (length h) (length actions)) = actions)
    as Hwalk_self.
  { apply walk_actions_seq. intros i a Ha.
    destruct (Hchildren _ _ Ha) as (d & -> & _). done. }
  assert (∀ r nr, h !! r = Some nr →
            walk_actions h' (possible_prev_nodes nr)
            = walk_actions h (possible_prev_nodes nr)) as Hwalk_old.
  { intros r nr Hnr. apply walk_actions_ext.
    apply Forall_forall. intros c Hc.
    destruct (Hbuilt _ _ Hnr) as [_ _ Hkids _ _].
    apply Hkids in Hc as (cn & Hcn & _).
    destruct (Hold _ _ Hcn) as (lc & -> & _). by rewrite Hcn. }
  split.
  - intros r nr' Hr. change (h' !! r = Some nr') in Hr.
    destruct (decide (r < length h)) as [Hlt|Hge].
    + destruct (lookup_lt_is_Some_2 h r Hlt) as [nr Hnr].
      destruct (Hold _ _ Hnr) as (l & Hr' & Hl & Hl').
      assert (nr' = set_possible_prev_nodes nr l) as -> by congruence.
      destruct (Hbuilt _ _ Hnr) as [Hroot Hparent Hkids Hhelp Hheur].
      split; [exact Hroot| | | |exact Hheur].
      * cbn. destruct (action nr) as [a|]; [|done].
        destruct Hparent as (p & pn & Hlast & Hp & Hrest).
        destruct (Hold _ _ Hp) as (lp & Hp' & _).
        by exists p, (set_possible_prev_nodes pn lp).
      * intros c. cbn [possible_prev_nodes set_possible_prev_nodes].
        fold h'.
        destruct (decide (r = current)) as [->|Hne].
        -- specialize (Hl' eq_refl). subst l.
           assert (nr = n) as -> by congruence. split.
           ++ intros Hc. apply elem_of_seq in Hc.
              destruct (lookup_lt_is_Some_2 h' c) as [cn Hcn]; [lia|].
              destruct (Hnew _ _ Hcn) as (i & a & d & _ & _ & -> & _); [lia|].
              exists (child_of current n a start d). split; [done|].
              cbn. apply last_snoc.
           ++ intros (cn & Hcn & Hlast).
              destruct (decide (c < length h)) as [Hc|Hc].
              ** destruct (Hback _ _ Hcn Hc) as (cn0 & Hcn0 & Heq).
                 rewrite Heq in Hlast.
                 assert (c ∈ possible_prev_nodes n) as Hin
                   by (apply Hkids; eauto).
                 rewrite Hnil in Hin. by apply elem_of_nil in Hin.
              ** apply lookup_lt_Some in Hcn. apply elem_of_seq. lia.
        -- specialize (Hl Hne). subst l. rewrite Hkids. split.
           ++ intros (cn & Hcn & Hlast).
              destruct (Hold _ _ Hcn) as (lc & Hcn' & _).
              by exists (set_possible_prev_nodes cn lc).
           ++ intros (cn & Hcn & Hlast).
              destruct (decide (c < length h)) as [Hc|Hc].
              ** destruct (Hback _ _ Hcn Hc) as (cn0 & Hcn0 & Heq).
                 rewrite Heq in Hlast. eauto.
              ** destruct (Hnew _ _ Hcn) as (i & a & d & _ & _ & -> & _);
                   [lia|].
                 cbn in Hlast. rewrite last_snoc in Hlast. by simplify_eq.
      * cbn [possible_prev_nodes set_possible_prev_nodes worldstate].
        destruct (decide (r = current)) as [->|Hne].
        -- specialize (Hl' eq_refl). subst l.
           assert (nr = n) as -> by congruence. by right.
        -- specialize (Hl Hne). subst l.
           destruct Hhelp as [?|Hhelp]; [by left|].
           right. rewrite <- Hhelp. by eapply Hwalk_old.
    + destruct (Hnew _ _ Hr) as (i & a & d & -> & Ha & -> & Hbounds); [lia|].
      split.
      * cbn. split; [done|lia].
      * cbn. exists current, (set_possible_prev_nodes n
                                 (seq (length h) (length actions))).
        split_and!; [apply last_snoc|done|done|done| |done].
        apply list_elem_of_lookup_2 in Ha.
        by apply list_elem_of_filter in Ha as [Ha _].
      * intros c. cbn. fold h'. split; [by intros ?%elem_of_nil|].
        intros (cn & Hcn & Hlast). exfalso.
        destruct (decide (c < length h)) as [Hc|Hc].
        -- destruct (Hback _ _ Hcn Hc) as (cn0 & Hcn0 & Heq).
           rewrite Heq in Hlast.
           pose proof (parents_below _ _ _ _ Hwf Hcn0) as Hp.
           apply last_Some_elem_of in Hlast.
           eapply Forall_forall in Hp; [|done]. simpl in Hp. lia.
        -- destruct (Hnew _ _ Hcn) as (i' & a' & d' & _ & _ & -> & _);
             [lia|].
           cbn in Hlast. rewrite last_snoc in Hlast. simplify_eq. lia.
      * by left.
      * by exists d.
  - rewrite Hperm. apply Forall_app. split.
    + apply Forall_forall. intros r Hr.
      eapply Forall_forall in Hunexp as (nr & Hnr & Hnil'); [|done].
      destruct (Hold _ _ Hnr) as (l & Hr' & Hl & _).
      rewrite Hl in Hr' by by intros ->.
      by eexists.
    + apply Forall_seq. intros r Hr.
      destruct (lookup_lt_is_Some_2 h' r) as [nr' Hnr']; [lia|].
      destruct (Hnew _ _ Hnr') as (i & a & d & _ & _ & -> & _); [lia|].
      by eexists.
  - rewrite Hperm.
    apply NoDup_app. split_and!; [done| |apply NoDup_seq].
    intros r Hr Hr'. apply elem_of_seq in Hr'.
    eapply Forall_forall in Hbelow; [|done]. simpl in Hbelow. lia.
  - intros r nr' Hr Hopen. change (h' !! r = Some nr') in Hr.
    rewrite Hperm in Hopen. apply not_elem_of_app in Hopen as [Hrest Hseq].
    assert (r < length h) as Hlt.
    { apply lookup_lt_Some in Hr. rewrite elem_of_seq in Hseq. lia. }
    destruct (lookup_lt_is_Some_2 h r Hlt) as [nr Hnr].
    destruct (Hold _ _ Hnr) as (l & Hr' & Hl & Hl').
    assert (nr' = set_possible_prev_nodes nr l) as -> by congruence.
    cbn [possible_prev_nodes set_possible_prev_nodes worldstate]. fold h'.
    destruct (decide (r = current)) as [->|Hne].
    + specialize (Hl' eq_refl). subst l.
      assert (nr = n) as -> by congruence. done.
    + specialize (Hl Hne). subst l.
      destruct (Hclosed r nr Hnr) as [Hm Hw].
      { rewrite not_elem_of_cons. done. }
      split; [done|]. rewrite <- Hw. by eapply Hwalk_old.
  - apply Permutation_length in Hperm.
    rewrite Hperm, length_app, length_seq, Hloopcount.
    fold h h'. cbn [length] in Hcount. lia.
Qed.

End tree.

(** * More of the planner *)

Section planner_more.
Context `{D : Domain}.

(** The set-up of [plan] fails only for want of a goal. *)
Lemma plan_setup_eq (self : Planner) (start : option WorldState)
    (goal : option Goal) (w : World) :
  plan_setup self start goal w
  = match goal_used self goal with
    | None => Raise AttributeError
    | Some g =>
        let start' := default (_start_worldstate self) start in
        Ok (mkPlanner (_actions self) start' (Some g) (Some 0),
            check_actions (_actions self) w,
            mkLoopState 0 [0] [goal_node_of g start'])
    end.
Proof.
  unfold plan_setup, goal_used.
  destruct (match goal with Some g => Some g | None => _goal self end)
    as [g|]; [|done].
  res_simpl. by rewrite (calc_heuristic_goal [_] 0 _ _ eq_refl).
Qed.

Lemma open_inv_setup (checked : list Action) (g : Goal)
    (start : WorldState) :
  open_inv checked start (mkLoopState 0 [0] [goal_node_of g start]).
Proof.
  split; cbn.
  - intros [|r] n Hn; [|done]. cbn in Hn. simplify_eq. split; cbn.
    + done.
    + done.
    + intros c. split; [by intros ?%elem_of_nil|].
      intros (cn & Hcn & Hlast). destruct c; [|done].
      cbn in Hcn. by simplify_eq.
    + by left.
    + eexists. split_and!; [done|apply py_len_nonneg|apply Qle_refl].
  - repeat constructor. by eexists.
  - apply NoDup_singleton.
  - intros r n Hn Hr. destruct r; [|done].
    exfalso. apply Hr. left.
  - done.
Qed.

Lemma loop_inv_setup (checked : list Action) (g : Goal)
    (start : WorldState) :
  loop_inv checked (mkLoopState 0 [0] [goal_node_of g start]).
Proof.
  split; cbn.
  - intros [|r] n Hn; [|done]. cbn in Hn. simplify_eq.
    split; [by eexists|done].
  - repeat constructor.
  - repeat constructor.
Qed.

Lemma open_inv_passes (checked : list Action) (start : WorldState)
    (k : nat) (s s' : LoopState) :
  passes checked start k s s' →
  loop_inv checked s → open_inv checked start s →
  open_inv checked start s'.
Proof.
  induction 1 as [s|k s s' s'' Hpass _ IH]; intros Hinv Hopen; [done|].
  apply IH.
  - by eapply loop_inv_pass.
  - by eapply open_inv_pass.
Qed.

(** What a call of [plan] that returns has gone through. *)
Lemma plan_inv (self : Planner) (start : option WorldState)
    (goal : option Goal) (w : World) (pr : PlanResult) :
  plan self start goal w = Ok pr →
  let checked := check_actions (_actions self) w in
  let start' := default (_start_worldstate self) start in
  ∃ g k s o,
    goal_used self goal = Some g ∧
    planner pr = mkPlanner (_actions self) start' (Some g) (Some 0) ∧
    passes checked start' k (mkLoopState 0 [0] [goal_node_of g start']) s ∧
    plan_iteration checked start' s = Ok (Exit o) ∧
    nodes pr = store s ∧
    start_node pr = outcome_node o ∧
    loop_inv checked s ∧ open_inv checked start' s ∧
    loopcount s = k ∧
    heap_extends [goal_node_of g start'] (store s).
Proof.
  intros Hplan checked start'.
  apply plan_Ok in Hplan
    as (checked' & s0 & k & s & o & Hsetup & Hpasses & Hexit & Hnodes & Hout).
  pose proof (plan_setup_Ok _ _ _ _ _ _ _ Hsetup)
    as (_ & _ & _ & _ & Hinv & _).
  rewrite plan_setup_eq in Hsetup.
  destruct (goal_used self goal) as [g|]; [|done].
  cbn zeta in Hsetup. injection Hsetup as Hplanner <- <-.
  rewrite <- Hplanner in Hpasses, Hexit. cbn in Hpasses, Hexit.
  fold start' checked in Hpasses, Hexit, Hinv.
  destruct (loop_inv_passes _ _ _ _ _ Hpasses Hinv) as (Hinv' & Hk & Hext).
  exists g, k, s, o. split_and!; try done.
  eapply open_inv_passes; [done..|apply open_inv_setup].
Qed.

(** Nothing can be planned without a goal, and with one the set-up of the
    goal node cannot fail. *)
Lemma plan_no_goal (self : Planner) (start : option WorldState)
    (goal : option Goal) (w : World) :
  goal_used self goal = None →
  plan self start goal w = Raise AttributeError.
Proof.
  intros Hgoal. unfold plan, plan_with_fuel.
  by rewrite plan_setup_eq, Hgoal.
Qed.

End planner_more.

Section tree_theorems.
Context `{D : Domain}.

Lemma walk_actions_length (h : Heap) (l : list ref) :
  Forall (λ c, is_Some (h !! c ≫= action)) l →
  length (walk_actions h l) = length l.
Proof.
  unfold walk_actions. induction 1 as [|c l [a Ha] _ IH]; [done|].
  cbn. rewrite Ha. cbn. by f_equal.
Qed.

Lemma parent_node_last (n : Node) (p : ref) :
  parent_node n = Ok p ↔ last (parent_nodes_path_list n) = Some p.
Proof.
  unfold parent_node. destruct (last _); split; intros H; by simplify_eq.
Qed.

(** The two parent lists of a node of the tree have the same length, and
    the list of parent actions, read backwards, names the actions on the
    walk from the node to the goal node. *)
Lemma built_actions (checked : list Action) (start : WorldState)
    (h : Heap) (r : ref) (n : Node) :
  heap_wf checked h → heap_built checked start h → h !! r = Some n →
  length (parent_nodes_path_list n) = length (parent_actions_path_list n) ∧
  walk_actions h (r :: reverse (parent_nodes_path_list n))
  = reverse (parent_actions_path_list n).
Proof.
  intros Hwf Hbuilt. revert n.
  induction (lt_wf r) as [r _ IH]. intros n Hn.
  destruct (Hwf _ _ Hn) as [_ Hshape].
  destruct (Hbuilt _ _ Hn) as [_ Hparent _ _ _].
  rewrite (walk_actions_cons _ _ _ _ Hn).
  destruct (action n) as [a|].
  - destruct Hshape as (_ & p & pn & Hlt & Hp & Hparents).
    destruct Hparent as (p' & pn' & Hlast & Hp' & Hactions & _).
    rewrite Hparents, last_snoc in Hlast. simplify_eq.
    destruct (IH _ Hlt _ Hp) as [Hlen Hwalk].
    rewrite Hparents, Hactions, !length_app, !reverse_snoc, Hwalk. simpl.
    split; [lia|done].
  - by rewrite Hshape, Hparent.
Qed.

(** The goal node is the end of every walk. *)
Lemma built_root (checked : list Action) (start : WorldState)
    (h : Heap) (r : ref) (n : Node) :
  heap_wf checked h → heap_built checked start h → h !! r = Some n →
  last (r :: reverse (parent_nodes_path_list n)) = Some 0.
Proof.
  intros Hwf Hbuilt Hn.
  destruct (walk_ends_at_goal _ _ _ _ Hwf Hn) as (g & gn & Hlast & Hg & Hgoal).
  rewrite Hlast. f_equal.
  destruct (Hbuilt _ _ Hg) as [Hroot _ _ _ _]. apply Hroot.
  unfold is_goal in Hgoal. by destruct (action gn).
Qed.

(** X6.  In the store [plan] returns, every node with an action is the
    regression of its parent: the parent was taken from the open collection
    and did not match the start worldstate, the action is a checked action
    that was found helpful for the worldstate of the parent, the worldstate
    of the node is that of the parent with the preconditions of the action
    applied, and the node is listed among the children of the parent. *)
Theorem node_regresses_its_parent (self : Planner)
    (start_worldstate : option WorldState) (goal : option Goal) (w : World)
    (pr : PlanResult) (r : ref) (n : Node) (a : Action) :
  plan self start_worldstate goal w = Ok pr →
  nodes pr !! r = Some n →
  action n = Some a →
  let start := _start_worldstate (planner pr) in
  ∃ p pn,
    parent_node n = Ok p ∧ nodes pr !! p = Some pn ∧ p < r ∧
    matches start (worldstate pn) = false ∧
    a ∈ _filter_matching_actions start (worldstate pn)
          (check_actions (_actions self) w) ∧
    worldstate n = Action_apply_preconditions a (worldstate pn) start ∧
    r ∈ possible_prev_nodes pn.
Proof.
  intros Hplan Hn Ha start.
  apply plan_inv in Hplan
    as (g & k & s & o & _ & Hplanner & _ & _ & Hnodes & _ & Hinv & Hopen & _).
  subst start. rewrite Hplanner, Hnodes in *. cbn.
  destruct Hinv as [Hwf _ _]. destruct Hopen as [Hbuilt _ _].
  destruct (Hwf _ _ Hn) as [_ Hshape].
  destruct (Hbuilt _ _ Hn) as [_ Hparent _ _ _].
  rewrite Ha in Hshape, Hparent.
  destruct Hshape as (Hchecked & p & pn & Hlt & Hp & Hparents).
  destruct Hparent as (p' & pn' & Hlast & Hp' & _ & Hws & Hhelp & Hmatch).
  pose proof Hlast as Hlast'.
  rewrite Hparents, last_snoc in Hlast'. simplify_eq.
  exists p', pn. split_and!; [by apply parent_node_last|done..| |done|].
  - by apply list_elem_of_filter.
  - destruct (Hbuilt _ _ Hp) as [_ _ Hkids _ _]. apply Hkids. eauto.
Qed.

(** X7.  In the store [plan] returns, the children of a node are exactly
    the nodes whose parent it is; and when there are any, they carry, in
    the order of the list, the checked actions found helpful for the
    worldstate of the node, each once. *)
Theorem children_carry_helpful_actions (self : Planner)
    (start_worldstate : option WorldState) (goal : option Goal) (w : World)
    (pr : PlanResult) (r : ref) (n : Node) :
  plan self start_worldstate goal w = Ok pr →
  nodes pr !! r = Some n →
  (∀ c, c ∈ possible_prev_nodes n ↔
        ∃ cn, nodes pr !! c = Some cn ∧ parent_node cn = Ok r) ∧
  (possible_prev_nodes n ≠ [] →
   walk_actions (nodes pr) (possible_prev_nodes n)
   = _filter_matching_actions (_start_worldstate (planner pr))
       (worldstate n) (check_actions (_actions self) w) ∧
   length (possible_prev_nodes n)
   = length (_filter_matching_actions (_start_worldstate (planner pr))
               (worldstate n) (check_actions (_actions self) w))).
Proof.
  intros Hplan Hn.
  apply plan_inv in Hplan
    as (g & k & s & o & _ & Hplanner & _ & _ & Hnodes & _ & Hinv & Hopen & _).
  rewrite Hplanner, Hnodes in *. cbn.
  destruct Hopen as [Hbuilt _ _].
  destruct (Hbuilt _ _ Hn) as [_ _ Hkids Hhelp _].
  split.
  - intros c. rewrite Hkids. by setoid_rewrite parent_node_last.
  - intros Hne. destruct Hhelp as [?|Hhelp]; [done|]. split; [done|].
    rewrite <- Hhelp. symmetry. apply walk_actions_length.
    apply Forall_forall. intros c Hc.
    apply Hkids in Hc as (cn & Hcn & Hlast). rewrite Hcn. cbn.
    destruct Hinv as [Hwf _ _].
    destruct (Hwf _ _ Hcn) as [_ Hshape].
    destruct (action cn); [done|]. by rewrite Hshape in Hlast.
Qed.

(** X8.  In the store [plan] returns, the two parent lists of every node
    have the same length, which is what [execute] asserts, and the list of
    parent actions read backwards is the plan from that node: the actions
    of the nodes on the walk along the parent links, the action of the node
    itself first. *)
Theorem parent_actions_list_is_the_plan (self : Planner)
    (start_worldstate : option WorldState) (goal : option Goal) (w : World)
    (pr : PlanResult) (r : ref) (n : Node) :
  plan self start_worldstate goal w = Ok pr →
  nodes pr !! r = Some n →
  length (parent_nodes_path_list n) = length (parent_actions_path_list n) ∧
  forward_walk (nodes pr) (S (length (parent_nodes_path_list n))) r
  = Ok (r :: reverse (parent_nodes_path_list n)) ∧
  walk_actions (nodes pr) (r :: reverse (parent_nodes_path_list n))
  = reverse (parent_actions_path_list n).
Proof.
  intros Hplan Hn.
  apply plan_inv in Hplan
    as (g & k & s & o & _ & _ & _ & _ & Hnodes & _ & Hinv & Hopen & _).
  rewrite Hnodes in *.
  destruct Hinv as [Hwf _ _]. destruct Hopen as [Hbuilt _ _].
  destruct (built_actions _ _ _ _ _ Hwf Hbuilt Hn) as [Hlen Hwalk].
  split_and!; [done| |done]. by eapply forward_walk_wf.
Qed.

(** X9.  After a call of [plan] that returns, the planner has stored its
    parameters, and [last_goal_node] is the first node of the store.  That
    node holds what the goal made of an empty worldstate, its heuristic is
    the number of conditions on which that worldstate and the start
    worldstate disagree, it is the only node without an action, and the
    walk along the parent links ends at it from every node. *)
Theorem goal_node_is_the_root (self : Planner)
    (start_worldstate : option WorldState) (goal : option Goal) (w : World)
    (pr : PlanResult) :
  plan self start_worldstate goal w = Ok pr →
  ∃ g gn,
    goal_used self goal = Some g ∧
    _actions (planner pr) = _actions self ∧
    _start_worldstate (planner pr)
    = default (_start_worldstate self) start_worldstate ∧
    _goal (planner pr) = Some g ∧
    last_goal_node (planner pr) = Some 0 ∧
    nodes pr !! 0 = Some gn ∧
    worldstate gn = Goal_apply_preconditions g ∅ ∧
    heuristic_distance gn
    = Some (py_len (get_unsatisfied_conditions (worldstate gn)
                      (_start_worldstate (planner pr)))) ∧
    (∀ r n, nodes pr !! r = Some n → (is_goal n = true ↔ r = 0)) ∧
    (∀ r n, nodes pr !! r = Some n →
       last (r :: reverse (parent_nodes_path_list n)) = Some 0).
Proof.
  intros Hplan.
  apply plan_inv in Hplan
    as (g & k & s & o & Hg & Hplanner & _ & _ & Hnodes & _ & Hinv & Hopen
        & _ & Hext).
  rewrite Hplanner, Hnodes in *. cbn.
  destruct Hinv as [Hwf _ _]. destruct Hopen as [Hbuilt _ _].
  destruct (Hext 0 _ eq_refl) as (l & Hroot).
  exists g, (set_possible_prev_nodes
               (goal_node_of g (default (_start_worldstate self)
                                  start_worldstate)) l).
  split_and!; try done.
  - intros r n Hn. destruct (Hbuilt _ _ Hn) as [Hr _ _ _ _].
    rewrite <- Hr. unfold is_goal. by destruct (action n).
  - intros r n Hn. by eapply built_root.
Qed.

End tree_theorems.

(** * The edges of [plan] *)


Section edges.
Context `{D : Domain}.

Lemma check_actions_elem (actions : list Action) (w : World) (a : Action) :
  a ∈ check_actions actions w ↔
  a ∈ actions ∧ check_freeform_context a w = true.
Proof.
  unfold check_actions. rewrite set_iteration_elem, list_elem_of_filter.
  tauto.
Qed.

Lemma check_actions_length (actions : list Action) (w : World) :
  length (check_actions actions w) ≤ length actions.
Proof.
  apply submseteq_length, NoDup_submseteq; [apply set_iteration_NoDup|].
  intros a Ha. by apply check_actions_elem in Ha as [Ha _].
Qed.

(** Every pass adds at most one node for each checked action. *)
Lemma passes_store_length (checked : list Action) (start : WorldState)
    (k : nat) (s s' : LoopState) :
  passes checked start k s s' → loop_inv checked s →
  length (store s') ≤ length (store s) + k * length checked.
Proof.
  induction 1 as [s|k s s' s'' Hpass _ IH]; intros Hinv; [lia|].
  pose proof (loop_inv_pass _ _ _ _ Hinv Hpass) as Hinv'.
  specialize (IH Hinv').
  apply plan_iteration_Continue in Hpass
    as (current & rest & n & new & _ & _ & _ & _ & _ & Hget & _).
  apply get_child_nodes_spec with (checked := checked) in Hget
    as (_ & _ & Hlen & _); [|apply Hinv|apply helpful_actions_checked].
  pose proof (length_filter
    (λ action, has_satisfying_effects action (worldstate n) start
                 (get_unsatisfied_conditions (worldstate n) start) = true)
    checked) as Hfilter.
  unfold _filter_matching_actions in Hlen. simpl. lia.
Qed.

(** X10.  [plan] creates at most one node for each checked action in
    each of its at most 500 passes, besides the goal node; the checked
    actions are the actions of the planner whose freeform context holds,
    each once. *)
Theorem store_size_bounded (self : Planner)
    (start_worldstate : option WorldState) (goal : option Goal) (w : World)
    (pr : PlanResult) :
  plan self start_worldstate goal w = Ok pr →
  length (nodes pr)
  ≤ 1 + loop_limit * length (check_actions (_actions self) w) ∧
  length (check_actions (_actions self) w) ≤ length (_actions self) ∧
  NoDup (check_actions (_actions self) w) ∧
  ∀ a, a ∈ check_actions (_actions self) w ↔
       a ∈ _actions self ∧ check_freeform_context a w = true.
Proof.
  intros Hplan.
  split_and!;
    [|apply check_actions_length|apply set_iteration_NoDup
     |apply check_actions_elem].
  apply plan_inv in Hplan
    as (g & k & s & o & Hg & _ & Hpasses & _ & Hnodes & _ & _ & _ & Hk & _).
  pose proof (loop_inv_setup (check_actions (_actions self) w) g
                (default (_start_worldstate self) start_worldstate))
    as Hinv0.
  pose proof (passes_store_length _ _ _ _ _ Hpasses Hinv0) as Hlen.
  destruct (passes_bound _ _ _ _ _ Hpasses) as [_ Hbound].
  rewrite Hnodes. cbn in Hlen, Hbound.
  assert (k ≤ loop_limit) as Hle.
  { destruct k; [lia|]. rewrite <- Hk. apply Hbound. lia. }
  set (c := length (check_actions _ _)) in *.
  assert (k * c ≤ loop_limit * c) by (apply Nat.mul_le_mono_r; lia).
  lia.
Qed.

(** X11.  When the start worldstate already matches what the goal asks
    for, [plan] returns the goal node at once, having created no other
    node, and [execute] on it returns [True] without a call into any
    action. *)
Theorem satisfied_goal_needs_no_action (self : Planner)
    (start_worldstate : option WorldState) (goal : option Goal) (w : World)
    (g : Goal) :
  goal_used self goal = Some g →
  let start := default (_start_worldstate self) start_worldstate in
  matches start (Goal_apply_preconditions g ∅) = true →
  ∃ pr,
    plan self start_worldstate goal w = Ok pr ∧
    start_node pr = Some 0 ∧
    nodes pr = [goal_node_of g start] ∧
    ∀ depth introspector s,
      heap s = nodes pr →
      execute (S depth) 0 introspector s = Ok (true, s).
Proof.
  intros Hg start Hmatch.
  eexists (mkPlanResult (Some 0) _ [goal_node_of g start]).
  split_and!; [|done|done|].
  - unfold plan, plan_with_fuel. rewrite plan_setup_eq, Hg. cbn zeta.
    cbn [_start_worldstate]. fold start.
    erewrite (passes_plan_loop _ _ 0 _ _ _
                (Found 0 [goal_node_of g start]));
      [done|constructor| |lia].
    unfold plan_iteration. cbn [child_nodes loopcount store].
    rewrite bool_decide_eq_false_2 by (unfold loop_limit; lia).
    cbn. by rewrite Hmatch.
  - intros depth i s Hheap. cbn [nodes] in Hheap. cbn [execute].
    rewrite Hheap. done.
Qed.

(** X12.  When the start worldstate does not match what the goal asks
    for and no action of the planner whose freeform context holds is found
    helpful for it, [plan] returns [None] after one expansion that creates
    no node. *)
Theorem no_helpful_action_no_plan (self : Planner)
    (start_worldstate : option WorldState) (goal : option Goal) (w : World)
    (g : Goal) :
  goal_used self goal = Some g →
  let start := default (_start_worldstate self) start_worldstate in
  let goal_worldstate := Goal_apply_preconditions g ∅ in
  matches start goal_worldstate = false →
  (∀ a, a ∈ _actions self → check_freeform_context a w = true →
        has_satisfying_effects a goal_worldstate start
          (get_unsatisfied_conditions goal_worldstate start) = false) →
  ∃ pr,
    plan self start_worldstate goal w = Ok pr ∧
    start_node pr = None ∧
    nodes pr = [goal_node_of g start].
Proof.
  intros Hg start gws Hmatch Hnone.
  assert (_filter_matching_actions start gws
            (check_actions (_actions self) w) = []) as Hfilter.
  { destruct (_filter_matching_actions _ _ _) as [|a l] eqn:Heq; [done|].
    assert (a ∈ _filter_matching_actions start gws
                  (check_actions (_actions self) w)) as Ha
      by (rewrite Heq; left).
    apply list_elem_of_filter in Ha as [Hhelp Ha].
    apply check_actions_elem in Ha as [Ha Hctx].
    by rewrite (Hnone _ Ha Hctx) in Hhelp. }
  eexists (mkPlanResult None _ [goal_node_of g start]).
  split_and!; [|done|done].
  unfold plan, plan_with_fuel. rewrite plan_setup_eq, Hg. cbn zeta.
  cbn [_start_worldstate]. fold start.
  erewrite (passes_plan_loop _ _ 1 _ _
              (mkLoopState 1 [] [goal_node_of g start])
              (Drained [goal_node_of g start]));
    [done| |done|unfold loop_limit; lia].
  econstructor; [|constructor].
  unfold plan_iteration. cbn [child_nodes loopcount store].
  rewrite bool_decide_eq_false_2 by (unfold loop_limit; lia).
  cbn [deref lookup list_lookup goal_node_of worldstate]. res_simpl.
  change (worldstate (goal_node_of g start)) with gws.
  rewrite Hmatch, Hfilter. done.
Qed.

End edges.

(** * What [plan] can raise *)

Section raises.
Context `{D : Domain}.









End raises.

(** * More of the executor *)

Section executor_more.
Context `{D : Domain}.

Lemma runs_app (l1 l2 : list Event) : runs (l1 ++ l2) = runs l1 ++ runs l2.
Proof. apply omap_app. Qed.

Lemma without_publish_app (l1 l2 : list Event) :
  without_publish (l1 ++ l2) = without_publish l1 ++ without_publish l2.
Proof. apply filter_app. Qed.

Lemma set_worldstate_id (n : Node) : set_worldstate n (worldstate n) = n.
Proof. by destruct n. Qed.

Lemma same_structure_refl (h : Heap) : same_structure h h.
Proof.
  split; [done|]. intros q nq Hq. exists (worldstate nq).
  by rewrite set_worldstate_id.
Qed.

Lemma same_structure_trans (h1 h2 h3 : Heap) :
  same_structure h1 h2 → same_structure h2 h3 → same_structure h1 h3.
Proof.
  intros [Hlen12 H12] [Hlen23 H23]. split; [congruence|].
  intros q nq Hq. destruct (H12 _ _ Hq) as (ws & Hq').
  destruct (H23 _ _ Hq') as (ws' & Hq''). by exists ws'.
Qed.

Lemma same_structure_insert (h : Heap) (p : ref) (pn : Node)
    (ws : WorldState) :
  h !! p = Some pn → same_structure h (<[p := set_worldstate pn ws]> h).
Proof.
  intros Hp. split; [apply length_insert|]. intros q nq Hq.
  destruct (decide (q = p)) as [->|Hne].
  - simplify_eq. exists ws. apply list_lookup_insert_eq.
    by eapply lookup_lt_Some.
  - exists (worldstate nq).
    by rewrite list_lookup_insert_ne, set_worldstate_id.
Qed.

Lemma executable_same_structure (h h' : Heap) (r : ref)
    (actions : list Action) :
  same_structure h h' → executable h r actions → executable h' r actions.
Proof.
  intros [_ Hsame]. induction 1 as [r n Hn Ha Hlen|r n a p acts Hn Ha Hlen Hp _ IH].
  - destruct (Hsame _ _ Hn) as (ws & Hn'). by eapply executable_goal.
  - destruct (Hsame _ _ Hn) as (ws & Hn'). by eapply executable_step.
Qed.

(** A call of [execute] changes nothing in the store but worldstates. *)
Lemma execute_same_structure (depth : nat) (r : ref) (introspector : bool)
    (s s' : ExecState) (b : bool) :
  execute depth r introspector s = Ok (b, s') →
  same_structure (heap s) (heap s').
Proof.
  revert r s. induction depth as [|depth IH]; intros r s Hexec; [done|].
  cbn [execute] in Hexec.
  apply bind_Ok in Hexec as (n & Hn & Hexec).
  case_bool_decide; [|done].
  destruct (action n) as [a|];
    [|simplify_eq; apply same_structure_refl].
  apply bind_Ok in Hexec as (p & Hp & Hexec).
  apply bind_Ok in Hexec as (nn & Hnn & Hexec). apply deref_Ok in Hnn.
  destruct (is_valid a (worldstate n));
    [|simplify_eq; destruct introspector; apply same_structure_refl].
  destruct (check_freeform_context a _);
    [|simplify_eq; destruct introspector; apply same_structure_refl].
  destruct (run a (worldstate nn) _) as [ws' w'] eqn:Hrun.
  apply IH in Hexec. cbn [heap] in Hexec.
  eapply same_structure_trans; [|exact Hexec].
  destruct introspector; by apply same_structure_insert.
Qed.

(** On a chain that leads to a goal node, with room for the nested calls,
    [execute] returns: [True] after all the actions of the chain have run
    in order, or [False] after some of them, at a failed check of the action
    that comes next. *)
Lemma execute_chain (actions : list Action) (depth : nat) (r : ref)
    (introspector : bool) (s : ExecState) :
  executable (heap s) r actions → length actions < depth →
  ∃ b s' evs,
    execute depth r introspector s = Ok (b, s') ∧
    log s' = log s ++ evs ∧
    if b then
      runs evs = actions ∧ Forall (λ e, failed_check e = false) evs
    else
      ∃ k a e, actions !! k = Some a ∧ runs evs = take k actions ∧
               last evs = Some e ∧ failed_check e = true ∧ check_of a e.
Proof.
  revert depth r s.
  induction actions as [|a actions IH]; intros depth r s Hexec Hdepth.
  - destruct depth as [|depth]; [simpl in Hdepth; lia|].
    inversion Hexec as [r' n Hn Ha Hlen|]; subst.
    exists true, s, []. cbn [execute].
    rewrite (proj2 (deref_Ok _ _ _) Hn). res_simpl.
    rewrite bool_decide_eq_true_2, Ha by done.
    by rewrite app_nil_r.
  - destruct depth as [|depth]; [simpl in Hdepth; lia|].
    inversion Hexec as [|r' n a' p acts Hn Ha Hlen Hp Hnext]; subst.
    assert (∃ nn, heap s !! p = Some nn) as [nn Hnn]
      by (inversion Hnext; eauto).
    cbn [execute].
    rewrite (proj2 (deref_Ok _ _ _) Hn). res_simpl.
    rewrite bool_decide_eq_true_2, Ha by done.
    rewrite (proj2 (parent_node_last _ _) Hp). res_simpl.
    rewrite (proj2 (deref_Ok _ _ _) Hnn). res_simpl.
    set (s1 := if introspector then emit s (EvPublish r) else s).
    set (pre := if introspector then [EvPublish r] else []).
    assert (log s1 = log s ++ pre ∧ heap s1 = heap s ∧ runs pre = []
            ∧ Forall (λ e, failed_check e = false) pre)
      as (Hlog1 & Hheap1 & Hruns1 & Hpre).
    { subst s1 pre. destruct introspector; cbn.
      - split_and!; [done..|]. by repeat constructor.
      - by rewrite app_nil_r. }
    clearbody s1 pre.
    destruct (is_valid a (worldstate n)) eqn:Hvalid; last first.
    { exists false, (emit s1 (EvIsValid a (worldstate n) false)),
        (pre ++ [EvIsValid a (worldstate n) false]).
      split_and!; [done|cbn; by rewrite Hlog1, (assoc_L (++))|].
      exists 0, a, (EvIsValid a (worldstate n) false).
      split_and!; [done| |apply last_snoc|done|left; eauto].
      by rewrite runs_app, Hruns1. }
    cbn [emit world].
    destruct (check_freeform_context a (world s1)) eqn:Hctx; last first.
    { eexists false, _,
        (pre ++ [EvIsValid a (worldstate n) true; EvCheckContext a false]).
      split_and!; [done|cbn; by rewrite Hlog1, <- !(assoc_L (++))|].
      exists 0, a, (EvCheckContext a false).
      split_and!; [done| | |done|right; eauto].
      - by rewrite runs_app, Hruns1.
      - by rewrite last_app. }
    destruct (run a (worldstate nn) (world s1)) as [ws' w'] eqn:Hrun.
    cbn [heap log].
    set (s2 := mkExecState _ _ _).
    destruct (IH depth p s2) as (b & s' & evs & Hexec' & Hlog' & Hres).
    { subst s2. cbn [heap emit]. rewrite Hheap1.
      eapply executable_same_structure; [|done].
      by apply same_structure_insert. }
    { simpl in Hdepth. lia. }
    exists b, s',
      (pre ++ [EvIsValid a (worldstate n) true; EvCheckContext a true;
               EvRun a (worldstate nn)] ++ evs).
    split_and!; [done| |].
    { rewrite Hlog'. subst s2. cbn [log emit]. rewrite Hlog1.
      by rewrite <- !(assoc_L (++)). }
    destruct b.
    + destruct Hres as [Hruns Hok]. split.
      * by rewrite !runs_app, Hruns1, Hruns.
      * apply Forall_app. split; [done|]. by repeat constructor.
    + destruct Hres as (k & a' & e & Hk & Hruns & Hlast & Hfail & Hcheck).
      exists (S k), a', e. split_and!; [done| | |done|done].
      * by rewrite !runs_app, Hruns1, Hruns.
      * by rewrite !last_app, Hlast.
Qed.

(** A node of the tree the planner builds heads a chain that can be
    executed. *)
Lemma built_executable (checked : list Action) (start : WorldState)
    (h : Heap) (r : ref) (n : Node) :
  heap_wf checked h → heap_built checked start h → h !! r = Some n →
  executable h r (reverse (parent_actions_path_list n)).
Proof.
  intros Hwf Hbuilt. revert n.
  induction (lt_wf r) as [r _ IH]. intros n Hn.
  destruct (built_actions _ _ _ _ _ Hwf Hbuilt Hn) as [Hlen _].
  destruct (Hwf _ _ Hn) as [_ Hshape].
  destruct (Hbuilt _ _ Hn) as [_ Hparent _ _ _].
  destruct (action n) as [a|] eqn:Ha.
  - destruct Hshape as (_ & p & pn & Hlt & Hp & Hparents).
    destruct Hparent as (p' & pn' & Hlast & Hp' & Hactions & _).
    pose proof Hlast as Hlast'.
    rewrite Hparents, last_snoc in Hlast'. simplify_eq.
    rewrite Hactions, reverse_snoc.
    eapply executable_step; [done..|]. by apply IH.
  - rewrite Hparent. by eapply executable_goal.
Qed.

(** X14.  Given a chain of nodes that leads along the parent links to a
    goal node, every node passing the assertion on its parent lists, and
    room for one nested call for each node, [execute] raises nothing.  It
    returns [True] after it has run all the actions of the chain, in order
    and each after both of its checks passed; or [False] after it has run
    the first [k] of them, the last call being a check of the action that
    comes next, which failed. *)
Theorem execute_runs_chain_or_stops (actions : list Action) (depth : nat)
    (start_node : ref) (introspector : bool) (s : ExecState) :
  executable (heap s) start_node actions →
  length actions < depth →
  ∃ b s' evs,
    execute depth start_node introspector s = Ok (b, s') ∧
    log s' = log s ++ evs ∧
    if b then
      runs evs = actions ∧ Forall (λ e, failed_check e = false) evs
    else
      ∃ k a e, actions !! k = Some a ∧ runs evs = take k actions ∧
               last evs = Some e ∧ failed_check e = true ∧ check_of a e.
Proof. apply execute_chain. Qed.

(** X15.  A call of [execute] that returns has changed nothing in the
    store but worldstates: every node keeps its action, its parent lists,
    its children and its heuristic, so a chain that could be executed
    before can be executed again. *)
Theorem execute_keeps_the_plan (depth : nat) (start_node : ref)
    (introspector : bool) (s s' : ExecState) (b : bool) :
  execute depth start_node introspector s = Ok (b, s') →
  length (heap s') = length (heap s) ∧
  (∀ q nq, heap s !! q = Some nq →
     ∃ ws, heap s' !! q = Some (set_worldstate nq ws)) ∧
  (∀ q actions, executable (heap s) q actions →
     executable (heap s') q actions).
Proof.
  intros Hexec. apply execute_same_structure in Hexec as Hsame.
  destruct Hsame as [Hlen Hnodes]. split_and!; [done..|].
  intros q actions. by apply executable_same_structure.
Qed.

(** Two runs of [execute] that differ in the introspector only. *)
Lemma execute_introspector (depth : nat) (r : ref) (s1 s2 : ExecState) :
  heap s1 = heap s2 → world s1 = world s2 →
  without_publish (log s1) = without_publish (log s2) →
  match execute depth r true s1, execute depth r false s2 with
  | Ok (b1, s1'), Ok (b2, s2') =>
      b1 = b2 ∧ heap s1' = heap s2' ∧ world s1' = world s2' ∧
      without_publish (log s1') = without_publish (log s2')
  | Raise e1, Raise e2 => e1 = e2
  | _, _ => False
  end.
Proof.
  unfold without_publish.
  revert r s1 s2. induction depth as [|depth IH];
    intros r s1 s2 Hheap Hworld Hlog; [done|].
  cbn [execute]. rewrite Hheap.
  destruct (deref (heap s2) r) as [n|e]; [|done]. res_simpl.
  case_bool_decide; [|done].
  destruct (action n) as [a|]; [|done].
  destruct (parent_node n) as [p|e]; [|done]. res_simpl.
  destruct (deref (heap s2) p) as [nn|e]; [|done]. res_simpl.
  destruct (is_valid a (worldstate n)).
  - cbn [emit world]. rewrite Hworld.
    destruct (check_freeform_context a (world s2)).
    + destruct (run a (worldstate nn) (world s2)) as [ws' w'].
      apply IH; cbn [heap world log emit]; [by rewrite Hheap|done|].
      rewrite !filter_app, Hlog. cbn. by rewrite app_nil_r.
    + cbn [emit heap world log]. split_and!; [done..|].
      rewrite !filter_app, Hlog. cbn. by rewrite app_nil_r.
  - cbn [emit heap world log]. split_and!; [done..|].
    rewrite !filter_app, Hlog. cbn. by rewrite app_nil_r.
Qed.

(** Without an introspector nothing is published. *)
Lemma execute_no_publish (depth : nat) (r : ref) (s s' : ExecState)
    (b : bool) :
  execute depth r false s = Ok (b, s') →
  ∃ evs, log s' = log s ++ evs ∧ without_publish evs = evs.
Proof.
  revert r s. induction depth as [|depth IH]; intros r s Hexec; [done|].
  cbn [execute] in Hexec.
  apply bind_Ok in Hexec as (n & Hn & Hexec).
  case_bool_decide; [|done].
  destruct (action n) as [a|];
    [|simplify_eq; exists []; by rewrite app_nil_r].
  apply bind_Ok in Hexec as (p & Hp & Hexec).
  apply bind_Ok in Hexec as (nn & Hnn & Hexec).
  destruct (is_valid a (worldstate n));
    [|simplify_eq; by eexists [_]].
  cbn [emit world] in Hexec.
  destruct (check_freeform_context a (world s));
    [|simplify_eq; eexists [_; _]; cbn; by rewrite <- (assoc_L (++))].
  destruct (run a (worldstate nn) (world s)) as [ws' w'].
  apply IH in Hexec as (evs & -> & Hevs). cbn [log emit].
  exists ([EvIsValid a (worldstate n) true; EvCheckContext a true;
           EvRun a (worldstate nn)] ++ evs).
  split; [by rewrite <- !(assoc_L (++))|].
  by rewrite without_publish_app, Hevs.
Qed.

(** X16.  The introspector only observes: with and without one,
    [execute] raises the same exception or returns the same result, and
    leaves the same store, the same world and, the published updates apart,
    the same calls into the actions.  Without one nothing is published. *)
Theorem introspector_only_observes (depth : nat) (start_node : ref)
    (s : ExecState) :
  match execute depth start_node true s,
        execute depth start_node false s with
  | Ok (b1, s1), Ok (b2, s2) =>
      b1 = b2 ∧ heap s1 = heap s2 ∧ world s1 = world s2 ∧
      without_publish (log s1) = without_publish (log s2) ∧
      ∃ evs, log s2 = log s ++ evs ∧ without_publish evs = evs
  | Raise e1, Raise e2 => e1 = e2
  | _, _ => False
  end.
Proof.
  pose proof (execute_introspector depth start_node s s eq_refl eq_refl
                eq_refl) as Hrel.
  destruct (execute depth start_node true s) as [[b1 s1]|e1];
    destruct (execute depth start_node false s) as [[b2 s2]|e2] eqn:Hexec;
    try done.
  destruct Hrel as (? & ? & ? & ?). split_and!; [done..|].
  by eapply execute_no_publish.
Qed.

(** X17.  What [plan] returns can be executed: from every node of the
    store, with room for one nested call for each node on the way,
    [execute] raises nothing, the actions it runs are the first of the list
    of parent actions of the node read backwards, in that order, and it
    returns [True] exactly when it has run them all. *)
Theorem returned_plan_executes (self : Planner)
    (start_worldstate : option WorldState) (goal : option Goal) (w : World)
    (pr : PlanResult) (r : ref) (n : Node) (depth : nat)
    (introspector : bool) (s : ExecState) :
  plan self start_worldstate goal w = Ok pr →
  nodes pr !! r = Some n →
  heap s = nodes pr →
  length (parent_nodes_path_list n) < depth →
  ∃ b s' evs,
    execute depth r introspector s = Ok (b, s') ∧
    log s' = log s ++ evs ∧
    runs evs `prefix_of` reverse (parent_actions_path_list n) ∧
    (b = true ↔ runs evs = reverse (parent_actions_path_list n)).
Proof.
  intros Hplan Hn Hheap Hdepth.
  apply plan_inv in Hplan
    as (g & k & s0 & o & _ & _ & _ & _ & Hnodes & _ & Hinv & Hopen & _).
  rewrite Hnodes in *.
  destruct Hinv as [Hwf _ _]. destruct Hopen as [Hbuilt _ _].
  destruct (built_actions _ _ _ _ _ Hwf Hbuilt Hn) as [Hlen _].
  pose proof (built_executable _ _ _ _ _ Hwf Hbuilt Hn) as Hexec.
  rewrite <- Hheap in Hexec.
  destruct (execute_chain _ depth r introspector s Hexec)
    as (b & s' & evs & Hexecute & Hlog & Hres).
  { rewrite length_reverse. lia. }
  exists b, s', evs. split_and!; [done..| |].
  - destruct b.
    + destruct Hres as [-> _]. done.
    + destruct Hres as (j & a & e & _ & -> & _). apply prefix_take.
  - destruct b.
    + destruct Hres as [-> _]. done.
    + destruct Hres as (j & a & e & Hj & Hruns & _). split; [done|].
      intros Heq. rewrite Heq in Hruns.
      apply lookup_lt_Some in Hj.
      apply (f_equal length) in Hruns. rewrite length_take in Hruns. lia.
Qed.

End executor_more.

(** * A search that runs dry *)

Section exhaustive.
Context `{D : Domain}.

(** In a store all of whose nodes were expanded, every worldstate
    regressed from that of a node is the worldstate of a node. *)
Lemma regressed_in_store (checked : list Action) (start : WorldState)
    (h : Heap) (ws ws' : WorldState) (actions : list Action) :
  heap_built checked start h →
  (∀ r n, h !! r = Some n →
     walk_actions h (possible_prev_nodes n)
     = _filter_matching_actions start (worldstate n) checked) →
  regressed checked start ws actions ws' →
  ∀ r n, h !! r = Some n → worldstate n = ws →
    ∃ r' n', h !! r' = Some n' ∧ worldstate n' = ws'.
Proof.
  intros Hbuilt Hall.
  induction 1 as [ws|ws a actions ws' _ Ha _ IH]; intros r n Hn Hws.
  { by exists r, n. }
  subst ws. rewrite <- (Hall _ _ Hn) in Ha.
  unfold walk_actions in Ha.
  apply list_elem_of_omap in Ha as (c & Hc & Hca).
  destruct (h !! c) as [cn|] eqn:Hcn; [|done]. cbn in Hca.
  destruct (Hbuilt _ _ Hn) as [_ _ Hkids _ _].
  apply Hkids in Hc as (cn' & Hcn' & Hlast).
  rewrite Hcn in Hcn'. injection Hcn' as <-.
  destruct (Hbuilt _ _ Hcn) as [_ Hparent _ _ _].
  rewrite Hca in Hparent.
  destruct Hparent as (p & pn & Hlast' & Hp & _ & Hwsc & _).
  rewrite Hlast in Hlast'. injection Hlast' as <-.
  rewrite Hn in Hp. injection Hp as <-.
  by eapply (IH c cn).
Qed.

(** X18.  When [plan] returns [None] and has created no more nodes than
    the loop limit allows passes, the open collection ran dry and the search
    was exhaustive: every node of the store was taken from the open
    collection, did not match the start worldstate and got a child for each
    checked action found helpful for it.  So no worldstate that can be
    regressed from that of the goal, by helpful actions applied to
    worldstates that do not match, matches the start worldstate. *)
Theorem drained_search_is_exhaustive (self : Planner)
    (start_worldstate : option WorldState) (goal : option Goal) (w : World)
    (pr : PlanResult) :
  plan self start_worldstate goal w = Ok pr →
  start_node pr = None →
  length (nodes pr) ≤ loop_limit →
  let start := _start_worldstate (planner pr) in
  let checked_actions := check_actions (_actions self) w in
  ∃ g,
    goal_used self goal = Some g ∧
    (∀ r n, nodes pr !! r = Some n →
       matches start (worldstate n) = false ∧
       walk_actions (nodes pr) (possible_prev_nodes n)
       = _filter_matching_actions start (worldstate n) checked_actions) ∧
    ∀ actions ws,
      regressed checked_actions start (Goal_apply_preconditions g ∅)
        actions ws →
      matches start ws = false.
Proof.
  intros Hplan Hnone Hsize start checked.
  apply plan_inv in Hplan
    as (g & k & s & o & Hg & Hplanner & _ & Hexit & Hnodes & Hout & _ & Hopen
        & _ & Hext).
  subst start. rewrite Hplanner, Hnodes in *. cbn [_start_worldstate].
  destruct Hopen as [Hbuilt _ _ Hclosed Hcount].
  apply plan_iteration_Exit in Hexit.
  assert (child_nodes s = []) as Hdry.
  { destruct o as [r h|h|h]; [by rewrite Hnone in Hout|apply Hexit|].
    destruct Hexit as (_ & Hne & Hlimit).
    destruct (child_nodes s); [done|]. simpl in Hcount. lia. }
  rewrite Hdry in Hclosed.
  assert (∀ r n, store s !! r = Some n →
            matches (default (_start_worldstate self) start_worldstate)
              (worldstate n) = false ∧
            walk_actions (store s) (possible_prev_nodes n)
            = _filter_matching_actions
                (default (_start_worldstate self) start_worldstate)
                (worldstate n) checked) as Hall.
  { intros r n Hn. apply (Hclosed r n Hn). apply not_elem_of_nil. }
  exists g. split_and!; [done|done|].
  intros actions ws Hreg.
  destruct (Hext 0 _ eq_refl) as (l & Hroot).
  destruct (regressed_in_store _ _ _ _ _ _ Hbuilt
              (λ r n Hn, proj2 (Hall r n Hn)) Hreg 0 _ Hroot eq_refl)
    as (r' & n' & Hn' & <-).
  by apply (Hall r' n').
Qed.

End exhaustive.

(** * The runner *)

Section runner_properties.
Context `{D : Domain} {C : Control}.

Lemma M_bind_Ok {A B} (m : M A) (f : A → M B) (e e' : Env) (b : B) :
  (m ≫= f) e = Ok (b, e') ↔ ∃ a e1, m e = Ok (a, e1) ∧ f a e1 = Ok (b, e').
Proof.
  unfold mbind, M_bind. destruct (m e) as [[a e1]|ex]; split.
  - intros Hf. by exists a, e1.
  - by intros (a' & e1' & [= -> ->] & Hf).
  - done.
  - by intros (a' & e1' & [=] & _).
Qed.

Lemma update_worldstate_Ok (e : Env) :
  ∃ e', _update_worldstate e = Ok (tt, e') ∧
        calls e' = calls e ++ [CUpdate] ∧ env_log e' = env_log e ∧
        _last_goal (runner e') = _last_goal (runner e) ∧
        _preempt_requested (runner e') = _preempt_requested (runner e).
Proof.
  unfold _update_worldstate.
  destruct (initialize_worldstate _ _) as [ws w]. by eexists.
Qed.

Lemma Runner_plan_Ok (goal : option Goal) (e e' : Env)
    (start_node : option (ref * Heap)) :
  Runner_plan goal e = Ok (start_node, e') →
  calls e' = calls e ++ [CPlan goal (bool_decide (is_Some start_node))] ∧
  env_log e' = env_log e ∧ env_world e' = env_world e ∧
  _last_goal (runner e') = _last_goal (runner e) ∧
  _preempt_requested (runner e') = _preempt_requested (runner e).
Proof.
  unfold Runner_plan. intros Hplan.
  apply bind_Ok in Hplan as (pr & _ & Hplan). by simplify_eq.
Qed.

Lemma Runner_execute_Ok (start_node : ref * Heap) (e e' : Env) (b : bool) :
  Runner_execute start_node e = Ok (b, e') →
  calls e' = calls e ++ [CExecute b] ∧ runner e' = runner e.
Proof.
  unfold Runner_execute. intros Hexec.
  apply bind_Ok in Hexec as ([b' s] & _ & Hexec). by simplify_eq.
Qed.

Lemma failed_tries_S (goal : option Goal) (k : nat) :
  failed_tries goal (S k) = CUpdate :: CPlan goal false :: failed_tries goal k.
Proof. done. Qed.

Lemma failed_tries_snoc (goal : option Goal) (k : nat) :
  failed_tries goal k ++ [CUpdate; CPlan goal false]
  = failed_tries goal (S k).
Proof.
  induction k as [|k IH]; [done|].
  rewrite !failed_tries_S. cbn [app]. rewrite IH.
  by rewrite failed_tries_S.
Qed.

Lemma update_and_plan_loop_Ok (tries : nat) (goal : option Goal)
    (start_node0 start_node : option (ref * Heap)) (e e' : Env) :
  0 < tries →
  update_and_plan_loop tries goal start_node0 e = Ok (start_node, e') →
  ∃ k, k < tries ∧
    calls e' = calls e ++ failed_tries goal k
               ++ [CUpdate; CPlan goal (bool_decide (is_Some start_node))] ∧
    (start_node = None → S k = tries) ∧
    env_log e' = env_log e ∧
    _last_goal (runner e') = _last_goal (runner e) ∧
    _preempt_requested (runner e') = _preempt_requested (runner e).
Proof.
  revert start_node0 e.
  induction tries as [|tries IH]; intros start_node0 e Htries Hloop; [lia|].
  cbn [update_and_plan_loop] in Hloop.
  apply M_bind_Ok in Hloop as ([] & e1 & Hupdate & Hloop).
  apply M_bind_Ok in Hloop as (sn & e2 & Hplan & Hloop).
  destruct (update_worldstate_Ok e) as (e1' & Hupdate' & Hc1 & Hl1 & Hg1 & Hp1).
  rewrite Hupdate in Hupdate'. injection Hupdate' as <-.
  apply Runner_plan_Ok in Hplan as (Hc2 & Hl2 & _ & Hg2 & Hp2).
  destruct sn as [sn|].
  - injection Hloop as <- <-. exists 0.
    split_and!; [lia| |done|congruence..].
    rewrite Hc2, Hc1. cbn. by rewrite <- (assoc_L (++)).
  - destruct tries as [|tries].
    + cbn in Hloop. injection Hloop as <- <-. exists 0.
      split_and!; [lia| |done|congruence..].
      rewrite Hc2, Hc1. cbn. by rewrite <- (assoc_L (++)).
    + apply IH in Hloop
        as (k & Hk & Hc3 & Hnone & Hl3 & Hg3 & Hp3); [|lia].
      exists (S k). split_and!; [lia| |intros ?; f_equal; auto|congruence..].
      rewrite Hc3, Hc2, Hc1, failed_tries_S. cbn.
      by rewrite <- !(assoc_L (++)).
Qed.

(** X19.  A call of [update_and_plan] that returns was given at least
    one try.  It has planned at most [tries] times, each time after an
    update of the worldstate, and stopped at the first plan found; it
    returns [None] only when every one of the [tries] tries found no plan.
    The executor is not called. *)
Theorem update_and_plan_stops_at_first_plan (goal : option Goal)
    (tries : Z) (e e' : Env) (start_node : option (ref * Heap)) :
  update_and_plan goal tries e = Ok (start_node, e') →
  (1 ≤ tries)%Z ∧
  ∃ k : nat,
    (Z.of_nat k < tries)%Z ∧
    calls e' = calls e ++ failed_tries goal k
               ++ [CUpdate; CPlan goal (bool_decide (is_Some start_node))] ∧
    (start_node = None → Z.of_nat (S k) = tries) ∧
    env_log e' = env_log e.
Proof.
  unfold update_and_plan. intros Hplan.
  case_bool_decide as Htries; [|done]. split; [done|].
  apply update_and_plan_loop_Ok in Hplan
    as (k & Hk & Hcalls & Hnone & Hlog & _); [|lia].
  exists k. split_and!; [lia|done| |done].
  intros Hsn. specialize (Hnone Hsn). lia.
Qed.

(** No pass through the loop of [update_and_plan_and_execute] reaches
    the bottom of the loop body: what the executor returns is a boolean,
    which is not equal to ['aborted']. *)
Lemma no_pass_goes_again (goal : option Goal) (tries : Z)
    (outcome outcome' : PyOutcome) (e e' : Env) :
  update_and_plan_and_execute_pass goal tries outcome e
  ≠ Ok (Again outcome', e').
Proof.
  unfold update_and_plan_and_execute_pass.
  destruct (is_shutdown (env_world e)); [done|].
  intros Hpass.
  apply M_bind_Ok in Hpass as (preempt & e1 & _ & Hpass).
  destruct preempt.
  { apply M_bind_Ok in Hpass as ([] & e2 & _ & Hpass). done. }
  apply M_bind_Ok in Hpass as (sn & e2 & _ & Hpass).
  destruct sn as [sn|]; [|done].
  apply M_bind_Ok in Hpass as (b & e3 & _ & Hpass). done.
Qed.

Lemma update_and_plan_and_execute_fuel (goal : option Goal) (tries : Z)
    (e : Env) (fuel : nat) :
  0 < fuel →
  update_and_plan_and_execute_loop fuel goal tries ONone e
  = Some (update_and_plan_and_execute goal tries e).
Proof.
  intros Hfuel. destruct fuel as [|fuel]; [lia|].
  unfold update_and_plan_and_execute.
  cbn [update_and_plan_and_execute_loop].
  pose proof (no_pass_goes_again goal tries ONone) as Hno.
  destruct (update_and_plan_and_execute_pass goal tries ONone e)
    as [[[o|o] e1]|ex] eqn:Hpass; [|done..].
  by destruct (Hno o e e1).
Qed.

(** X20.  [update_and_plan_and_execute] never plans again after an
    execution: whatever fuel its loop is given, its first pass returns.  It
    returns [None] when the node is shut down, ['preempted'] when
    preemption was requested, which it services, and ['aborted'] when
    [tries] tries found no plan.  Otherwise it executes the first plan
    found, once, and returns the boolean of the executor, [False] as well
    as [True]. *)
Theorem update_and_plan_and_execute_runs_once (goal : option Goal)
    (tries : Z) (e e' : Env) (outcome : PyOutcome) :
  update_and_plan_and_execute goal tries e = Ok (outcome, e') →
  (∀ fuel, 0 < fuel →
     update_and_plan_and_execute_loop fuel goal tries ONone e
     = Some (Ok (outcome, e'))) ∧
  ∃ cs, calls e' = calls e ++ cs ∧
    match outcome with
    | ONone => is_shutdown (env_world e) = true ∧ cs = []
    | OStr s =>
        is_shutdown (env_world e) = false ∧
        ((s = "preempted" ∧ cs = [] ∧
          _preempt_requested (runner e) = true ∧
          _preempt_requested (runner e') = false) ∨
         (s = "aborted" ∧ (1 ≤ tries)%Z ∧
          cs = failed_tries goal (Z.to_nat tries)))
    | OBool b =>
        is_shutdown (env_world e) = false ∧
        ∃ k : nat, (Z.of_nat k < tries)%Z ∧
          cs = failed_tries goal k
               ++ [CUpdate; CPlan goal true; CExecute b]
    end.
Proof.
  intros Hrun. split.
  { intros fuel Hfuel.
    by rewrite update_and_plan_and_execute_fuel, Hrun. }
  unfold update_and_plan_and_execute in Hrun.
  cbn [update_and_plan_and_execute_loop] in Hrun.
  destruct (update_and_plan_and_execute_pass goal tries ONone e)
    as [[[o|o] e1]|ex] eqn:Hpass; [done| |done].
  cbn in Hrun. injection Hrun as -> ->.
  unfold update_and_plan_and_execute_pass in Hpass.
  destruct (is_shutdown (env_world e)) eqn:Hshutdown.
  { injection Hpass as <- <-. exists []. by rewrite app_nil_r. }
  apply M_bind_Ok in Hpass as (preempt & e1 & Hpre & Hpass).
  injection Hpre as <- <-.
  destruct (_preempt_requested (runner e)) eqn:Hpreempt.
  { apply M_bind_Ok in Hpass as ([] & e2 & Hserve & Hpass).
    injection Hserve as <-. injection Hpass as <- <-.
    exists []. cbn. rewrite app_nil_r. split; [done|]. split; [done|].
    left. done. }
  apply M_bind_Ok in Hpass as (sn & e2 & Hplan & Hpass).
  unfold update_and_plan in Hplan.
  case_bool_decide as Htries; [|done].
  apply update_and_plan_loop_Ok in Hplan
    as (k & Hk & Hcalls & Hnone & _); [|lia].
  destruct sn as [sn|].
  - apply M_bind_Ok in Hpass as (b & e3 & Hexec & Hpass).
    apply Runner_execute_Ok in Hexec as (Hcalls' & _).
    cbn in Hpass. injection Hpass as <- <-.
    exists (failed_tries goal k ++ [CUpdate; CPlan goal true; CExecute b]).
    split; [by rewrite Hcalls', Hcalls, <- !(assoc_L (++))|].
    split; [done|]. exists k. split; [lia|done].
  - injection Hpass as <- <-. specialize (Hnone eq_refl).
    exists (failed_tries goal (Z.to_nat tries)).
    split; [|split; [done|right; done]].
    rewrite Hcalls. f_equal.
    replace (Z.to_nat tries) with (S k) by lia.
    apply failed_tries_snoc.
Qed.

End runner_properties.

Lemma StronglySorted_filter {A} (R : relation A) (P : A → Prop)
    `{∀ x, Decision (P x)} (l : list A) :
  StronglySorted R l → StronglySorted R (filter P l).
Proof.
  induction 1 as [|x l _ IH Hx]; [constructor|].
  rewrite filter_cons. destruct (decide (P x)); [|done].
  constructor; [done|]. apply Forall_forall. intros y [_ Hy]%list_elem_of_filter. by eapply Forall_forall in Hx.
Qed.

Section goals.
Context `{D : Domain} {C : Control}.

Lemma sort_goals_elem (goals : list Goal) (g : Goal) :
  g ∈ sort_goals goals ↔ g ∈ goals.
Proof.
  unfold sort_goals. rewrite sort_by_key_Permutation.
  rewrite <- list_fmap_compose. by rewrite list_fmap_id.
Qed.

Lemma sort_goals_sorted (goals : list Goal) :
  StronglySorted (λ g1 g2, (usability g2 <= usability g1)%Q)
    (sort_goals goals).
Proof.
  unfold sort_goals.
  eapply StronglySorted_fmap_elem
    with (R := by_key_then (λ _ _ : Goal, True)).
  - intros x y Hx Hy Hxy.
    rewrite sort_by_key_Permutation in Hx, Hy.
    apply list_elem_of_fmap in Hx as (gx & -> & _).
    apply list_elem_of_fmap in Hy as (gy & -> & _).
    cbn in *. destruct Hxy as [Hlt|[Heq _]]; cbn in *; lra.
  - apply sort_by_key_sorted.
    clear. induction goals as [|g goals IH]; cbn; constructor; [done|].
    apply Forall_forall. by intros ? ? ?.
Qed.

Lemma failed_plans_cons (g : Goal) (goals : list Goal) :
  failed_plans (g :: goals) = CPlan (Some g) false :: failed_plans goals.
Proof. done. Qed.

(** What the loop over the goals has done when it returns. *)
Lemma goals_loop_Ok (goals : list Goal) (e e' : Env) (outcome : PyOutcome) :
  goals_loop goals e = Ok (outcome, e') →
  ∃ cs, calls e' = calls e ++ cs ∧
    let open := filter (λ goal, _last_goal (runner e) ≠ Some goal) goals in
    match outcome with
    | ONone => False
    | OStr s =>
        (s = "aborted" ∧ cs = failed_plans open ∧
         _last_goal (runner e') = _last_goal (runner e)) ∨
        (s = "preempted" ∧
         _preempt_requested (runner e') = false ∧
         ∃ tried, cs = failed_plans tried ∧
                  tried `prefix_of` open ∧ tried ≠ open)
    | OBool b =>
        ∃ tried goal,
          cs = failed_plans tried ++ [CPlan (Some goal) true; CExecute b] ∧
          (tried ++ [goal]) `prefix_of` open ∧
          _last_goal (runner e') = Some goal
    end.
Proof.
  revert e. induction goals as [|goal goals IH]; intros e Hloop.
  { injection Hloop as <- <-. exists []. rewrite app_nil_r.
    split; [done|]. by left. }
  cbn [goals_loop] in Hloop.
  apply M_bind_Ok in Hloop as (self & e0 & Hget & Hloop).
  injection Hget as <- <-. rewrite filter_cons.
  case_bool_decide as Hlast.
  { rewrite decide_False by (by intros ?). by apply IH. }
  rewrite decide_True by done.
  apply M_bind_Ok in Hloop as (preempt & e0 & Hget & Hloop).
  injection Hget as <- <-.
  destruct (_preempt_requested (runner e)).
  { apply M_bind_Ok in Hloop as ([] & e1 & Hserve & Hloop).
    injection Hserve as <-. injection Hloop as <- <-.
    exists []. rewrite app_nil_r. split; [done|]. right.
    split_and!; [done..|]. exists [].
    split_and!; [done|apply prefix_nil|done]. }
  apply M_bind_Ok in Hloop as (plan & e1 & Hplan & Hloop).
  apply Runner_plan_Ok in Hplan as (Hcalls1 & _ & _ & Hlast1 & Hpre1).
  destruct plan as [start_node|].
  - apply M_bind_Ok in Hloop as (self & e0 & Hget & Hloop).
    injection Hget as <- <-.
    apply M_bind_Ok in Hloop as ([] & e2 & Hput & Hloop).
    injection Hput as <-.
    apply M_bind_Ok in Hloop as (b & e3 & Hexec & Hloop).
    apply Runner_execute_Ok in Hexec as (Hcalls3 & Hrunner3).
    cbn in Hloop. injection Hloop as <- <-.
    exists [CPlan (Some goal) true; CExecute b].
    split; [rewrite Hcalls3; cbn; by rewrite Hcalls1, <- (assoc_L (++))|].
    exists [], goal. split_and!; [done| |by rewrite Hrunner3].
    apply prefix_cons, prefix_nil.
  - apply IH in Hloop as (cs & Hcalls & Hres).
    exists (CPlan (Some goal) false :: cs).
    split; [by rewrite Hcalls, Hcalls1, <- (assoc_L (++))|].
    rewrite Hlast1 in Hres. cbn zeta in *.
    destruct outcome as [|b|s]; [done| |].
    + destruct Hres as (tried & g & -> & Hprefix & Hg).
      exists (goal :: tried), g.
      split_and!; [done|by apply prefix_cons|done].
    + destruct Hres as [(-> & -> & Hg)|(-> & Hflag & tried & -> & Hprefix & Hne)].
      * left. by rewrite Hg.
      * right. split_and!; [done..|]. exists (goal :: tried).
        split_and!; [done|by apply prefix_cons|congruence].
Qed.

(** X21.  [plan_and_execute_goals] updates the worldstate once and plans
    for the goals in the order of falling usability, leaving out the goal
    it executed last time.  It executes the first plan it finds, and no
    other: the boolean of the executor is returned, [False] as well as
    [True], and the goal is remembered as the last one.  It returns
    ['aborted'] when none of these goals has a plan, and ['preempted'],
    with the request serviced, when it finds preemption requested before
    planning for one of them. *)
Theorem plan_and_execute_goals_runs_one_plan (goals : list Goal)
    (e e' : Env) (outcome : PyOutcome) :
  plan_and_execute_goals goals e = Ok (outcome, e') →
  let open := candidates (runner e) goals in
  StronglySorted (λ g1 g2, (usability g2 <= usability g1)%Q) open ∧
  (∀ g, g ∈ open ↔ g ∈ goals ∧ _last_goal (runner e) ≠ Some g) ∧
  ∃ cs, calls e' = calls e ++ CUpdate :: cs ∧
    match outcome with
    | ONone => False
    | OStr s =>
        (s = "aborted" ∧ cs = failed_plans open ∧
         _last_goal (runner e') = _last_goal (runner e)) ∨
        (s = "preempted" ∧
         _preempt_requested (runner e') = false ∧
         ∃ tried, cs = failed_plans tried ∧
                  tried `prefix_of` open ∧ tried ≠ open)
    | OBool b =>
        ∃ tried goal,
          cs = failed_plans tried ++ [CPlan (Some goal) true; CExecute b] ∧
          (tried ++ [goal]) `prefix_of` open ∧
          _last_goal (runner e') = Some goal
    end.
Proof.
  intros Hrun open. split_and!.
  { apply StronglySorted_filter, sort_goals_sorted. }
  { intros g. unfold open, candidates.
    rewrite list_elem_of_filter, sort_goals_elem. tauto. }
  unfold plan_and_execute_goals in Hrun.
  apply M_bind_Ok in Hrun as ([] & e1 & Hupdate & Hloop).
  destruct (update_worldstate_Ok e) as (e1' & Hupdate' & Hc1 & _ & Hg1 & _).
  rewrite Hupdate in Hupdate'. injection Hupdate' as <-.
  apply goals_loop_Ok in Hloop as (cs & Hcalls & Hres).
  exists cs. split; [by rewrite Hcalls, Hc1, <- (assoc_L (++))|].
  rewrite Hg1 in Hres. exact Hres.
Qed.

End goals.

(** * The further properties at work *)

Section more_examples.
Import Model.
Import Scenarios.

(** ** The heuristic *)

Lemma charge_store'_Ok :
  _calc_heuristic_distance_for_node 1 charge_start charge_store
  = Ok charge_store'.
Proof. apply res_get_Ok. vm_compute. reflexivity. Qed.

(** The battery at 5: the level differs from the start, and the heuristic
    is not zero. *)
Lemma heuristic_zero_iff_nothing_unsatisfied_witness :
  ∃ n' d,
    charge_store' !! 1 = Some n' ∧ heuristic_distance n' = Some d ∧
    (0 <= d)%Q ∧
    ((d == 0)%Q ↔
     get_unsatisfied_conditions (worldstate charge_node) charge_start = []).
Proof.
  apply (heuristic_zero_iff_nothing_unsatisfied charge_store charge_store' 1
           charge_node charge_start); [reflexivity|].
  apply charge_store'_Ok.
Defined.


(** The node of [OpenDoor] asks for [at_door], of which the goal knows
    nothing: its heuristic is 1. *)
Lemma heuristic_is_count_on_defaults_witness :
  get_unsatisfied_conditions (worldstate fresh_open_node) door_start
  = ["at_door"] ∧
  _calc_heuristic_distance_for_node 1 door_start door_store
  = Ok (<[1 := set_heuristic_distance fresh_open_node
                 (py_len (get_unsatisfied_conditions
                            (worldstate fresh_open_node) door_start))]>
          door_store).
Proof.
  assert (get_unsatisfied_conditions (worldstate fresh_open_node) door_start
          = ["at_door"]) as Hunsat by (vm_compute; reflexivity).
  split; [exact Hunsat|].
  apply (heuristic_is_count_on_defaults door_store 1 0 fresh_open_node
           (mkNode door_goal_ws None [] [] [] (Some 1%Q)) door_start).
  - reflexivity.
  - reflexivity.
  - reflexivity.
  - reflexivity.
  - reflexivity.
  - rewrite Hunsat. constructor; [|constructor].
    left. vm_compute. reflexivity.
Defined.

(** The heuristic of the battery node returns: the level is known to the
    node and to the start worldstate. *)
Lemma heuristic_needs_known_conditions_witness :
  is_Some (worldstate charge_node !! "level") ∧
  is_Some (charge_start !! "level").
Proof.
  apply (heuristic_needs_known_conditions charge_store charge_store' 1 0
           charge_node charge_goal_node charge_start "level").
  - reflexivity.
  - reflexivity.
  - reflexivity.
  - reflexivity.
  - apply charge_store'_Ok.
  - vm_compute. apply list_elem_of_here.
  - vm_compute. eexists. reflexivity.
Defined.

(** ** The expansion *)

Lemma charge_children_Ok :
  get_child_nodes 0 [Charge] charge_start [charge_goal_node]
  = Ok (charge_children.1, charge_children.2).
Proof.
  rewrite <- surjective_pairing. apply res_get_Ok. vm_compute. reflexivity.
Qed.

(** The goal node of the battery expanded over [Charge]. *)
Lemma get_child_nodes_builds_children_witness :
  charge_children.1 = seq 1 1 ∧
  length charge_children.2 = 1 + 1 ∧
  charge_children.2 !! 0
  = Some (set_possible_prev_nodes charge_goal_node charge_children.1) ∧
  (∀ r, r ≠ 0 → r < 1 → charge_children.2 !! r = [charge_goal_node] !! r) ∧
  (∀ i a, [Charge] !! i = Some a →
     ∃ d, charge_children.2 !! (1 + i)
          = Some (child_of 0 charge_goal_node a charge_start d) ∧
          (0 <= d)%Q ∧
          (d <= py_len (get_unsatisfied_conditions
                          (Action_apply_preconditions a
                             (worldstate charge_goal_node) charge_start)
                          charge_start))%Q).
Proof.
  apply (get_child_nodes_builds_children [charge_goal_node]
           charge_children.2 0 charge_goal_node [Charge] charge_start
           charge_children.1); [reflexivity|].
  apply charge_children_Ok.
Defined.

(** ** The search tree of the door *)

Lemma walk_node_lookup : nodes door_result !! 2 = Some walk_node.
Proof. apply list_lookup_lookup_total_lt. vm_compute. lia. Qed.

(** The start node of the plan for the door is the regression of the node
    of [OpenDoor] by [WalkToDoor]. *)
Lemma node_regresses_its_parent_witness :
  ∃ p pn,
    parent_node walk_node = Ok p ∧ nodes door_result !! p = Some pn ∧
    p < 2 ∧
    matches (_start_worldstate (planner door_result)) (worldstate pn)
    = false ∧
    WalkToDoor ∈ _filter_matching_actions
                   (_start_worldstate (planner door_result)) (worldstate pn)
                   (check_actions (_actions door_planner) door_start) ∧
    worldstate walk_node
    = Action_apply_preconditions WalkToDoor (worldstate pn)
        (_start_worldstate (planner door_result)) ∧
    2 ∈ possible_prev_nodes pn.
Proof.
  apply (node_regresses_its_parent door_planner None None door_start
           door_result 2 walk_node WalkToDoor).
  - apply door_result_Ok.
  - apply walk_node_lookup.
  - vm_compute. reflexivity.
Defined.

(** The node of [OpenDoor] has one child, the node of [WalkToDoor]. *)
Lemma children_carry_helpful_actions_witness :
  possible_prev_nodes open_node = [2] ∧
  (∀ c, c ∈ possible_prev_nodes open_node ↔
        ∃ cn, nodes door_result !! c = Some cn ∧ parent_node cn = Ok 1) ∧
  (possible_prev_nodes open_node ≠ [] →
   walk_actions (nodes door_result) (possible_prev_nodes open_node)
   = _filter_matching_actions (_start_worldstate (planner door_result))
       (worldstate open_node) (check_actions (_actions door_planner)
                                 door_start) ∧
   length (possible_prev_nodes open_node)
   = length (_filter_matching_actions
               (_start_worldstate (planner door_result))
               (worldstate open_node)
               (check_actions (_actions door_planner) door_start))).
Proof.
  split; [vm_compute; reflexivity|].
  apply (children_carry_helpful_actions door_planner None None door_start
           door_result 1 open_node).
  - apply door_result_Ok.
  - apply list_lookup_lookup_total_lt. vm_compute. lia.
Defined.

(** The list of parent actions of the start node of the plan for the door,
    read backwards, is the plan. *)
Lemma parent_actions_list_is_the_plan_witness :
  name <$> reverse (parent_actions_path_list walk_node)
  = ["WalkToDoor"; "OpenDoor"] ∧
  length (parent_nodes_path_list walk_node)
  = length (parent_actions_path_list walk_node) ∧
  forward_walk (nodes door_result)
    (S (length (parent_nodes_path_list walk_node))) 2
  = Ok (2 :: reverse (parent_nodes_path_list walk_node)) ∧
  walk_actions (nodes door_result)
    (2 :: reverse (parent_nodes_path_list walk_node))
  = reverse (parent_actions_path_list walk_node).
Proof.
  split; [vm_compute; reflexivity|].
  apply (parent_actions_list_is_the_plan door_planner None None door_start
           door_result 2 walk_node).
  - apply door_result_Ok.
  - apply walk_node_lookup.
Defined.

(** The goal node of the plan for the door. *)
Lemma goal_node_is_the_root_witness :
  ∃ g gn,
    goal_used door_planner None = Some g ∧
    _actions (planner door_result) = _actions door_planner ∧
    _start_worldstate (planner door_result)
    = default (_start_worldstate door_planner) None ∧
    _goal (planner door_result) = Some g ∧
    last_goal_node (planner door_result) = Some 0 ∧
    nodes door_result !! 0 = Some gn ∧
    worldstate gn = Goal_apply_preconditions g ∅ ∧
    heuristic_distance gn
    = Some (py_len (get_unsatisfied_conditions (worldstate gn)
                      (_start_worldstate (planner door_result)))) ∧
    (∀ r n, nodes door_result !! r = Some n → (is_goal n = true ↔ r = 0)) ∧
    (∀ r n, nodes door_result !! r = Some n →
       last (r :: reverse (parent_nodes_path_list n)) = Some 0).
Proof.
  apply (goal_node_is_the_root door_planner None None door_start
           door_result).
  apply door_result_Ok.
Defined.

(** The store of the plan for the door has three nodes; two of the three
    actions are checked. *)
Lemma store_size_bounded_witness :
  length (nodes door_result) = 3 ∧
  name <$> check_actions (_actions door_planner) door_start
  = ["WalkToDoor"; "OpenDoor"] ∧
  length (nodes door_result)
  ≤ 1 + loop_limit * length (check_actions (_actions door_planner)
                               door_start) ∧
  length (check_actions (_actions door_planner) door_start)
  ≤ length (_actions door_planner) ∧
  NoDup (check_actions (_actions door_planner) door_start) ∧
  ∀ a, a ∈ check_actions (_actions door_planner) door_start ↔
       a ∈ _actions door_planner ∧ check_freeform_context a door_start = true.
Proof.
  split; [vm_compute; reflexivity|]. split; [vm_compute; reflexivity|].
  apply (store_size_bounded door_planner None None door_start door_result).
  apply door_result_Ok.
Defined.

(** ** The edges of [plan] *)

(** The door is open already. *)
Lemma satisfied_goal_needs_no_action_witness :
  ∃ pr,
    plan door_planner (Some open_world) None open_world = Ok pr ∧
    start_node pr = Some 0 ∧
    nodes pr = [goal_node_of door_goal open_world] ∧
    ∀ depth introspector s,
      heap s = nodes pr →
      execute (S depth) 0 introspector s = Ok (true, s).
Proof.
  apply (satisfied_goal_needs_no_action door_planner (Some open_world) None
           open_world door_goal).
  - reflexivity.
  - vm_compute. reflexivity.
Defined.

(** Walking does not open the door. *)
Lemma no_helpful_action_no_plan_witness :
  ∃ pr,
    plan walker_planner None None door_start = Ok pr ∧
    start_node pr = None ∧
    nodes pr = [goal_node_of door_goal door_start].
Proof.
  apply (no_helpful_action_no_plan walker_planner None None door_start
           door_goal).
  - reflexivity.
  - vm_compute. reflexivity.
  - intros a Ha _. apply list_elem_of_singleton in Ha as ->.
    vm_compute. reflexivity.
Defined.


Lemma walker_result_Ok :
  plan walker_planner None None door_start = Ok walker_result.
Proof. apply res_get_Ok. vm_compute. reflexivity. Qed.

(** Walking does not open the door, and nothing that can be regressed from
    the open door matches the start. *)
Lemma drained_search_is_exhaustive_witness :
  ∃ g,
    goal_used walker_planner None = Some g ∧
    (∀ r n, nodes walker_result !! r = Some n →
       matches (_start_worldstate (planner walker_result)) (worldstate n)
       = false ∧
       walk_actions (nodes walker_result) (possible_prev_nodes n)
       = _filter_matching_actions
           (_start_worldstate (planner walker_result)) (worldstate n)
           (check_actions (_actions walker_planner) door_start)) ∧
    ∀ actions ws,
      regressed (check_actions (_actions walker_planner) door_start)
        (_start_worldstate (planner walker_result))
        (Goal_apply_preconditions g ∅) actions ws →
      matches (_start_worldstate (planner walker_result)) ws = false.
Proof.
  apply (drained_search_is_exhaustive walker_planner None None door_start
           walker_result).
  - apply walker_result_Ok.
  - vm_compute. reflexivity.
  - vm_compute. lia.
Defined.

(** ** The executor *)

(** The plan to kick the door, executed with the alarm on. *)
Lemma execute_runs_chain_or_stops_witness :
  ∃ b s' evs,
    execute 10 1 false (mkExecState (nodes kick_result) door_start [])
    = Ok (b, s') ∧
    log s' = [] ++ evs ∧
    if b then
      runs evs = [KickDoor] ∧ Forall (λ e, failed_check e = false) evs
    else
      ∃ k a e, [KickDoor] !! k = Some a ∧ runs evs = take k [KickDoor] ∧
               last evs = Some e ∧ failed_check e = true ∧ check_of a e.
Proof.
  apply (execute_runs_chain_or_stops (D := domain) [KickDoor] 10 1 false
           (mkExecState (nodes kick_result) door_start [])).
  - eapply (executable_step (D := domain) _ 1 (nodes kick_result !!! 1)
              KickDoor 0).
    + apply list_lookup_lookup_total_lt. vm_compute. lia.
    + vm_compute. reflexivity.
    + vm_compute. reflexivity.
    + vm_compute. reflexivity.
    + eapply (executable_goal (D := domain) _ 0 (nodes kick_result !!! 0)).
      * apply list_lookup_lookup_total_lt. vm_compute. lia.
      * vm_compute. reflexivity.
      * vm_compute. reflexivity.
  - simpl. lia.
Defined.

Lemma kick_execution_Ok :
  execute 10 1 false (mkExecState (nodes kick_result) door_start [])
  = Ok (false, kick_execution.2).
Proof. apply res_get_Ok_pair; vm_compute; reflexivity. Qed.

(** The plan to kick the door is still there after its execution. *)
Lemma execute_keeps_the_plan_witness :
  length (heap kick_execution.2) = length (nodes kick_result) ∧
  (∀ q nq, nodes kick_result !! q = Some nq →
     ∃ ws, heap kick_execution.2 !! q = Some (set_worldstate nq ws)) ∧
  (∀ q actions, executable (nodes kick_result) q actions →
     executable (heap kick_execution.2) q actions).
Proof.
  apply (execute_keeps_the_plan 10 1 false
           (mkExecState (nodes kick_result) door_start [])
           kick_execution.2 false).
  apply kick_execution_Ok.
Defined.

(** The plan for the door is executed in full. *)
Lemma returned_plan_executes_witness :
  ∃ b s' evs,
    execute 10 2 false (mkExecState (nodes door_result) door_start [])
    = Ok (b, s') ∧
    log s' = [] ++ evs ∧
    runs evs `prefix_of` reverse (parent_actions_path_list walk_node) ∧
    (b = true ↔ runs evs = reverse (parent_actions_path_list walk_node)).
Proof.
  apply (returned_plan_executes door_planner None None door_start
           door_result 2 walk_node 10 false
           (mkExecState (nodes door_result) door_start [])).
  - apply door_result_Ok.
  - apply walk_node_lookup.
  - reflexivity.
  - vm_compute. lia.
Defined.

Example door_execution_log :
  door_execution.1 = true ∧
  name <$> runs (log door_execution.2) = ["WalkToDoor"; "OpenDoor"].
Proof. vm_compute. done. Qed.

(** ** The runner *)

Lemma door_try_Ok :
  update_and_plan (Some door_goal) 2 door_env
  = Ok (door_try.1, door_try.2).
Proof.
  rewrite <- surjective_pairing. apply res_get_Ok. vm_compute. reflexivity.
Qed.

(** The runner at the door finds a plan at its first try. *)
Lemma update_and_plan_stops_at_first_plan_witness :
  (1 ≤ 2)%Z ∧
  ∃ k : nat,
    (Z.of_nat k < 2)%Z ∧
    calls door_try.2
    = calls door_env ++ failed_tries (Some door_goal) k
      ++ [CUpdate; CPlan (Some door_goal) (bool_decide (is_Some door_try.1))] ∧
    (door_try.1 = None → Z.of_nat (S k) = 2%Z) ∧
    env_log door_try.2 = env_log door_env.
Proof.
  apply (update_and_plan_stops_at_first_plan (C := control)
           (Some door_goal) 2 door_env
           door_try.2 door_try.1).
  apply door_try_Ok.
Defined.

Example door_try_calls :
  show_call <$> calls door_try.2 = [SUpdate; SPlan (Some door_goal) true].
Proof. vm_compute. reflexivity. Qed.

Lemma door_run_Ok :
  update_and_plan_and_execute (Some door_goal) 1 door_env
  = Ok (OBool true, door_run.2).
Proof. apply res_get_Ok_pair; vm_compute; reflexivity. Qed.

(** The runner at the door plans once and executes once. *)
Lemma update_and_plan_and_execute_runs_once_witness :
  (∀ fuel, 0 < fuel →
     update_and_plan_and_execute_loop fuel (Some door_goal) 1 ONone door_env
     = Some (Ok (OBool true, door_run.2))) ∧
  ∃ cs, calls door_run.2 = calls door_env ++ cs ∧
    is_shutdown (env_world door_env) = false ∧
    ∃ k : nat, (Z.of_nat k < 1)%Z ∧
      cs = failed_tries (Some door_goal) k
           ++ [CUpdate; CPlan (Some door_goal) true; CExecute true].
Proof.
  apply (update_and_plan_and_execute_runs_once (C := control)
           (Some door_goal) 1 door_env
           door_run.2 (OBool true)).
  apply door_run_Ok.
Defined.

Lemma goals_run_Ok :
  plan_and_execute_goals [door_goal; quiet_goal] door_env
  = Ok (OBool true, goals_run.2).
Proof. apply res_get_Ok_pair; vm_compute; reflexivity. Qed.

(** The goal that asks for more comes first and has no plan; the plan for
    the door is executed. *)
Lemma plan_and_execute_goals_runs_one_plan_witness :
  candidates (runner door_env) [door_goal; quiet_goal]
  = [quiet_goal; door_goal] ∧
  show_call <$> calls goals_run.2
  = [SUpdate; SPlan (Some quiet_goal) false; SPlan (Some door_goal) true;
     SExecute true] ∧
  StronglySorted (λ g1 g2, (usability g2 <= usability g1)%Q)
    (candidates (runner door_env) [door_goal; quiet_goal]) ∧
  (∀ g, g ∈ candidates (runner door_env) [door_goal; quiet_goal] ↔
        g ∈ [door_goal; quiet_goal] ∧ _last_goal (runner door_env) ≠ Some g) ∧
  ∃ cs, calls goals_run.2 = calls door_env ++ CUpdate :: cs ∧
    ∃ tried goal,
      cs = failed_plans tried ++ [CPlan (Some goal) true; CExecute true] ∧
      (tried ++ [goal]) `prefix_of`
        candidates (runner door_env) [door_goal; quiet_goal] ∧
      _last_goal (runner goals_run.2) = Some goal.
Proof.
  split; [vm_compute; reflexivity|]. split; [vm_compute; reflexivity|].
  apply (plan_and_execute_goals_runs_one_plan (C := control)
           [door_goal; quiet_goal]
           door_env goals_run.2 (OBool true)).
  apply goals_run_Ok.
Defined.

End more_examples.
